(** * The release engine ([Auto]) and the "Released Label" plugin

    A shallow embedding of the two TypeScript sources of the repository:
    the [Auto] class (the node API behind the command line) and
    [plugins/released/src/index.ts].

    Conventions of the embedding.
    - A JavaScript string is a [string]; a value that may be [undefined]
      is an [option]; truthiness is written out ([truthy]).
    - Every method is a computation of the monad [M]: it reads the
      [World] (the answers of the collaborators that are not part of the
      two sources: the hosting client, the release helper, the semver
      library, the CI environment), threads the state [St] (the fields of
      [this] and the labels stored on the hosting platform), leaves a list
      of observable events and ends in an [Outcome]: a returned value, a
      thrown error or [process.exit].
    - Calls on [logger.verbose] and [logger.veryVerbose] are diagnostics
      and leave no event; calls on [logger.log] and [console.log] do.
    - An [async] function that runs as a callback of [Promise.all] or of
      a parallel hook is a [Task]: its callbacks are all started, in array
      order, and from then on they wait side by side for their calls. The
      order in which they are resumed is not the program's: it is the
      [schedule] of the [World]. A [Task] that is called on its own is
      the computation [alone]. *)

From Stdlib Require Import String Ascii List ZArith NArith Lia Bool.
From stdpp Require Import base option list gmap strings.

Open Scope string_scope.
Open Scope list_scope.

(** ** JavaScript values *)

Module JS.

(** Truthiness of a string: the empty string is falsy. *)
Definition truthy_string (s : string) : bool :=
  negb (String.eqb s "").

(** Truthiness of a [string | undefined]. *)
Definition truthy (v : option string) : bool :=
  match v with
  | Some s => truthy_string s
  | None => false
  end.

(** Truthiness of a [number | undefined]: [0] is falsy. *)
Definition truthy_number (v : option N) : bool :=
  match v with
  | Some n => negb (N.eqb n 0)
  | None => false
  end.

(** [a || b] on strings. *)
Definition or_string (a b : string) : string :=
  if truthy_string a then a else b.

(** [a || b] where [a] may be undefined. *)
Definition or_else (a : option string) (b : string) : string :=
  if truthy a then default b a else b.

Definition digit_of_N (n : N) : ascii :=
  ascii_of_N (48 + n).

(** Decimal digits of a natural number, most significant first; the fuel
    bounds the number of digits. *)
Fixpoint digits_of (fuel : nat) (n : N) (acc : list ascii) : list ascii :=
  match fuel with
  | O => acc
  | S fuel' =>
      let acc' := digit_of_N (n mod 10) :: acc in
      if (n <? 10)%N then acc' else digits_of fuel' (n / 10) acc'
  end.

(** [String(n)] for a non-negative integer. *)
Definition String_of_N (n : N) : string :=
  string_of_list_ascii (digits_of (S (N.to_nat (N.log2 n))) n []).

Definition is_digit (c : ascii) : bool :=
  let n := N_of_ascii c in ((48 <=? n) && (n <=? 57))%N.

(** [\s] on the code units below 256: tab, line feed, vertical tab, form
    feed, carriage return, space and no-break space. *)
Definition is_space (c : ascii) : bool :=
  let n := N_of_ascii c in
  ((9 <=? n) && (n <=? 13) || (n =? 32) || (n =? 160))%N.

Definition lower (c : ascii) : ascii :=
  let n := N_of_ascii c in
  if ((65 <=? n) && (n <=? 90))%N then ascii_of_N (n + 32) else c.

(** Two code units that the [i] flag identifies. *)
Definition eq_nocase (a b : ascii) : bool :=
  Ascii.eqb (lower a) (lower b).

(** [Number(digits)] for a string of decimal digits. *)
Definition Number_of_digits (ds : list ascii) : N :=
  fold_left (fun acc d => (10 * acc + (N_of_ascii d - 48))%N) ds 0%N.

(** [haystack.includes(needle)] *)
Fixpoint includes (haystack needle : string) : bool :=
  String.prefix needle haystack ||
  match haystack with
  | EmptyString => false
  | String _ rest => includes rest needle
  end.

(** [s.split(sep)] for a one-character separator. *)
Fixpoint split_on (sep : ascii) (s : string) : list string :=
  match s with
  | EmptyString => [""]
  | String c rest =>
      if Ascii.eqb c sep then "" :: split_on sep rest
      else match split_on sep rest with
           | [] => [String c ""]
           | piece :: pieces => String c piece :: pieces
           end
  end.

(** [s.replace(new RegExp(pattern, 'g'), by)] for a [pattern] without
    special characters: every occurrence, from left to right. The [$]
    sequences of a replacement text are not interpreted. *)
Fixpoint replace_all_from (skip : nat) (pattern by_ s : string) : string :=
  match skip with
  | S skip' =>
      match s with
      | EmptyString => EmptyString
      | String _ rest => replace_all_from skip' pattern by_ rest
      end
  | O =>
      match s with
      | EmptyString => EmptyString
      | String c rest =>
          if String.prefix pattern s
          then by_ +:+
               replace_all_from (String.length pattern - 1) pattern by_ rest
          else String c (replace_all_from 0 pattern by_ rest)
      end
  end.

Definition replace_all (pattern by_ s : string) : string :=
  replace_all_from 0 pattern by_ s.

(** [Number(s)] on a string of decimal digits, with [None] for [NaN].
    Any other text is taken to give [NaN], and the rounding of numbers
    above 2^53 is left out. *)
Definition Number (s : string) : option N :=
  let cs := list_ascii_of_string s in
  if forallb is_digit cs then Some (Number_of_digits cs) else None.

(** [String(v)] of a [string | undefined]. *)
Definition show (v : option string) : string :=
  default "undefined" v.

(** [s.replace(pattern, by)] for a literal, non-empty [pattern] without
    the [g] flag: the first occurrence only. The [$] sequences of a
    replacement text are not interpreted. *)
Fixpoint replace_first (pattern by_ s : string) : string :=
  if String.prefix pattern s
  then by_ +:+ String.substring (String.length pattern)
                 (String.length s - String.length pattern) s
  else match s with
       | EmptyString => EmptyString
       | String c rest => String c (replace_first pattern by_ rest)
       end.

End JS.

(** ** Regular expressions

    A backtracking matcher for the fragment of the JavaScript regular
    expressions that the plugin uses: character tests, sequence, ordered
    alternation, greedy [?] and [+], and capturing groups. *)

Module Regex.

Inductive regex : Type :=
| Eps
| Class (p : ascii -> bool)
| Cat (r1 r2 : regex)
| Alt (r1 r2 : regex)
| Opt (r : regex)
| Plus (r : regex)
| Group (r : regex).

(** The text consumed between the input [s] and its suffix [rest]. *)
Definition consumed (s rest : list ascii) : list ascii :=
  firstn (length s - length rest) s.

Definition first_some {A} (a b : option A) : option A :=
  match a with
  | Some x => Some x
  | None => b
  end.

(** [run r s caps k]: match [r] at the start of [s], then continue with
    [k] on the rest; the first success in backtracking order wins. The
    captures are listed in the order in which their groups close. *)
Fixpoint run {A} (r : regex) (s : list ascii) (caps : list (list ascii))
    (k : list ascii -> list (list ascii) -> option A) : option A :=
  match r with
  | Eps => k s caps
  | Class p =>
      match s with
      | c :: s' => if p c then k s' caps else None
      | [] => None
      end
  | Cat r1 r2 => run r1 s caps (fun s' caps' => run r2 s' caps' k)
  | Alt r1 r2 => first_some (run r1 s caps k) (run r2 s caps k)
  | Opt r1 => first_some (run r1 s caps k) (k s caps)
  | Plus r1 =>
      (fix iterate (fuel : nat) (s : list ascii) (caps : list (list ascii))
         : option A :=
         match fuel with
         | O => None
         | S fuel' =>
             run r1 s caps (fun s' caps' =>
               first_some (iterate fuel' s' caps') (k s' caps'))
         end) (S (length s)) s caps
  | Group r1 =>
      run r1 s caps (fun s' caps' => k s' (caps' ++ [consumed s s']))
  end.

(** The result of one successful match: the matched text, the captures
    and the input that follows the match. *)
Record found : Type := Found {
  matched : list ascii;
  captures : list (list ascii);
  rest : list ascii
}.

Definition match_here (r : regex) (s : list ascii) : option found :=
  run r s [] (fun s' caps => Some (Found (consumed s s') caps s')).

(** [RegExpBuiltinExec]: the leftmost position at which [r] matches. *)
Fixpoint exec (r : regex) (s : list ascii) : option found :=
  match match_here r s with
  | Some f => Some f
  | None =>
      match s with
      | [] => None
      | _ :: s' => exec r s'
      end
  end.

(** The successive matches of a regular expression with the [g] flag; an
    empty match advances by one code unit. *)
Fixpoint exec_all (fuel : nat) (r : regex) (s : list ascii)
    : list (list ascii) :=
  match fuel with
  | O => []
  | S fuel' =>
      match exec r s with
      | None => []
      | Some f =>
          matched f ::
          exec_all fuel' r
            (match matched f with [] => tl (rest f) | _ => rest f end)
      end
  end.

(** [str.match(r)] for [r] with the [g] flag: every matched text, or
    [null] when there is none. *)
Definition match_global (r : regex) (s : string) : option (list string) :=
  let cs := list_ascii_of_string s in
  match exec_all (S (length cs)) r cs with
  | [] => None
  | ms => Some (map string_of_list_ascii ms)
  end.

(** [str.match(r)] for [r] without the [g] flag: the first match, as the
    array of the matched text followed by the captures. *)
Definition match_first (r : regex) (s : string) : option (list string) :=
  match exec r (list_ascii_of_string s) with
  | None => None
  | Some f => Some (map string_of_list_ascii (matched f :: captures f))
  end.

Definition chr (c : ascii) : regex := Class (Ascii.eqb c).
Definition chr_i (c : ascii) : regex := Class (JS.eq_nocase c).
Definition digit : regex := Class JS.is_digit.
Definition space : regex := Class JS.is_space.

(** A literal word under the [i] flag. *)
Fixpoint word_i (w : string) : regex :=
  match w with
  | EmptyString => Eps
  | String c EmptyString => chr_i c
  | String c w' => Cat (chr_i c) (word_i w')
  end.

Fixpoint alt_of (rs : list regex) : regex :=
  match rs with
  | [] => Class (fun _ => false)
  | [r] => r
  | r :: rs' => Alt r (alt_of rs')
  end.

End Regex.

(** ** Data of the engine *)

Definition dq : string := String "034"%char "".
Definition nl : string := String "010"%char "".
Definition backtick : string := String "096"%char "".

(** A label definition of the configuration. *)
Record LabelDefinition : Type := {
  label_name : string;
  label_description : string
}.

(** [Partial<IReleasedLabelPluginOptions>]: the options a configuration
    gives to the plugin. *)
Record PartialOptions : Type := {
  given_message : option string;
  given_label : option string;
  given_lockIssues : option bool
}.

Definition no_options : PartialOptions :=
  {| given_message := None; given_label := None; given_lockIssues := None |}.

(** An entry of [config.plugins]: a name, or a name with its options. *)
Inductive PluginEntry : Type :=
| PluginName (path : string)
| PluginWithOptions (path : string) (options : PartialOptions).

(** [IAutoConfig], with the fields the engine reads. *)
Record IAutoConfig : Type := {
  cfg_labels : gmap string LabelDefinition;
  cfg_plugins : option (list PluginEntry);
  cfg_owner : option string;
  cfg_repo : option string;
  cfg_token : option string;
  cfg_githubApi : option string;
  cfg_githubGraphqlApi : option string;
  cfg_baseBranch : option string
}.

Definition set_labels (c : IAutoConfig) (l : gmap string LabelDefinition)
    : IAutoConfig :=
  {| cfg_labels := l; cfg_plugins := cfg_plugins c; cfg_owner := cfg_owner c;
     cfg_repo := cfg_repo c; cfg_token := cfg_token c;
     cfg_githubApi := cfg_githubApi c;
     cfg_githubGraphqlApi := cfg_githubGraphqlApi c;
     cfg_baseBranch := cfg_baseBranch c |}.

Definition set_baseBranch (c : IAutoConfig) (b : string) : IAutoConfig :=
  {| cfg_labels := cfg_labels c; cfg_plugins := cfg_plugins c;
     cfg_owner := cfg_owner c; cfg_repo := cfg_repo c;
     cfg_token := cfg_token c; cfg_githubApi := cfg_githubApi c;
     cfg_githubGraphqlApi := cfg_githubGraphqlApi c;
     cfg_baseBranch := Some b |}.

(** [ApiOptions]: the options [Auto] is constructed with. *)
Record ApiOptions : Type := {
  api_baseBranch : option string;
  api_dryRun : option bool
}.

(** The options of the commands ([ICanaryOptions], [IShipItOptions],
    [IReleaseOptions], [IChangelogOptions]). *)
Record CommandOptions : Type := {
  dryRun : bool;
  opt_pr : option N;
  opt_build : option N;
  opt_message : option string;
  opt_from : option string;
  opt_to : option string;
  opt_useVersion : option string
}.

Definition default_options : CommandOptions :=
  {| dryRun := false; opt_pr := None; opt_build := None; opt_message := None;
     opt_from := None; opt_to := None; opt_useVersion := None |}.

(** [ICommentOptions] *)
Record ICommentOptions : Type := {
  co_message : option string;
  co_pr : option N;
  co_context : option string;
  co_dryRun : bool;
  co_delete : bool;
  co_edit : bool
}.

(** [IExtendedCommit], with the fields the two sources read. *)
Record IExtendedCommit : Type := {
  hash : string;
  subject : string;
  labels : list string;
  pullRequest : option N
}.

(** The answer of [git.getPullRequest]. *)
Record PullRequest : Type := {
  pr_body : string;
  pr_head_sha : string
}.

(** The options of the [Release] helper that the engine reads. *)
Record ReleaseOptions : Type := {
  noVersionPrefix : bool;
  skipReleaseLabels : list string;
  email : option string;
  name : option string
}.

(** [IGitOptions], as [startGit] passes them on. *)
Record IGitOptions : Type := {
  git_owner : option string;
  git_repo : option string;
  git_token : string;
  git_baseUrl : string;
  git_graphqlBaseUrl : string
}.

(** An own property of the CI environment: absent, or present with a value
    that may be undefined. *)
Definition property (A : Type) : Type := option (option A).

Definition has {A} (p : property A) : bool :=
  match p with Some _ => true | None => false end.

Definition defined {A} (o : option A) : bool :=
  match o with Some _ => true | None => false end.

Definition value_of {A} (p : property A) : option A :=
  match p with Some v => v | None => None end.

(** The object that [envCi()] returns. *)
Record Env : Type := {
  env_pr : property string;
  env_build : property string;
  env_commit : property string;
  env_branch : property string;
  env_isPr : property bool;
  env_isCi : bool
}.

(** The payload of the [afterRelease] hook. *)
Record AfterRelease : Type := {
  ar_lastRelease : string;
  ar_newVersion : option string;
  ar_commits : list IExtendedCommit;
  ar_releaseNotes : string;
  ar_response : option string
}.

(** The payload of the two changelog hooks ([ChangelogLifecycle]). *)
Record ChangelogLifecycle : Type := {
  cl_bump : string;
  cl_commits : list IExtendedCommit;
  cl_releaseNotes : string;
  cl_currentVersion : string;
  cl_lastRelease : string
}.

(** [SEMVER] is a string enumeration; [noVersion] is the empty string. *)
Module SEMVER.
Definition major : string := "major".
Definition minor : string := "minor".
Definition patch : string := "patch".
Definition noVersion : string := "".
End SEMVER.

(** ** Hook points

    The hooks are those of the tapable library: a hook point holds its taps
    in registration order, each with the name of the plugin that owns it.
    A handler whose body is not part of the sources is an [Observer]: it
    either completes or throws. *)

Definition Observer (A : Type) : Type := A -> option string.

(** The answer of a handler of a bail hook: [undefined], a value, or a
    rejection. *)
Inductive Bail (R : Type) : Type :=
| NoOpinion
| Answer (r : R)
| Rejects (error : string).

Arguments NoOpinion {R}.
Arguments Answer {R} r.
Arguments Rejects {R} error.

(** What a handler of the [canary] hook resolves to: the published
    identifier, or an object that carries an error message. *)
Inductive CanaryResult : Type :=
| Published (identifier : string)
| Failed (error : string).

(** [IReleasedLabelPluginOptions] *)
Record IReleasedLabelPluginOptions : Type := {
  message : string;
  label : string;
  lockIssues : bool
}.

(** A handler of [afterRelease]: an observer, or the closure that the
    "Released Label" plugin taps, which captures the plugin's options. *)
Inductive AfterReleaseHandler : Type :=
| Observe (f : Observer AfterRelease)
| ReleasedLabel (options : IReleasedLabelPluginOptions).

Record IAuthorOptions : Type := {
  author_email : option string;
  author_name : option string
}.

(** What [getRepo] resolves to: the configuration, or the object that a
    handler of [getRepository] answers, whose [owner] and [repo] may be
    absent. *)
Record IRepoOptions : Type := {
  repo_owner : property string;
  repo_repo : property string;
  repo_token : option string
}.

Module Hook.

Definition taps (A : Type) : Type := list (string * A).

(** [IAutoHooks] *)
Record IAutoHooks : Type := {
  modifyConfig : taps (IAutoConfig -> IAutoConfig);
  beforeRun : taps (Observer IAutoConfig);
  beforeShipIt : taps (Observer unit);
  beforeCommitChangelog : taps (Observer ChangelogLifecycle);
  afterAddToChangelog : taps (Observer ChangelogLifecycle);
  afterShipIt : taps (Observer (option string * list IExtendedCommit));
  afterRelease : taps AfterReleaseHandler;
  getAuthor : taps (unit -> Bail IAuthorOptions);
  getPreviousVersion : taps ((string -> option string) -> Bail string);
  getRepository : taps (unit -> Bail IRepoOptions);
  onCreateRelease : taps (Observer ReleaseOptions);
  version : taps (Observer string);
  afterVersion : taps (Observer unit);
  publish : taps (Observer string);
  canary : taps (string * string -> Bail CanaryResult);
  afterPublish : taps (Observer unit)
}.

(** [makeHooks()]: no hook point has a tap. *)
Definition makeHooks : IAutoHooks :=
  {| modifyConfig := []; beforeRun := []; beforeShipIt := [];
     beforeCommitChangelog := []; afterAddToChangelog := [];
     afterShipIt := []; afterRelease := []; getAuthor := [];
     getPreviousVersion := []; getRepository := []; onCreateRelease := [];
     version := []; afterVersion := []; publish := []; canary := [];
     afterPublish := [] |}.

(** [hook.isUsed()] *)
Definition isUsed {A} (h : taps A) : bool :=
  match h with [] => false | _ => true end.

(** [hooks.modifyConfig.tap(owner, handler)] *)
Definition tap_modifyConfig (owner : string)
    (handler : IAutoConfig -> IAutoConfig) (h : IAutoHooks) : IAutoHooks :=
  {| modifyConfig := modifyConfig h ++ [(owner, handler)];
     beforeRun := beforeRun h; beforeShipIt := beforeShipIt h;
     beforeCommitChangelog := beforeCommitChangelog h;
     afterAddToChangelog := afterAddToChangelog h;
     afterShipIt := afterShipIt h; afterRelease := afterRelease h;
     getAuthor := getAuthor h; getPreviousVersion := getPreviousVersion h;
     getRepository := getRepository h; onCreateRelease := onCreateRelease h;
     version := version h; afterVersion := afterVersion h;
     publish := publish h; canary := canary h;
     afterPublish := afterPublish h |}.

(** [hooks.afterRelease.tapPromise(owner, handler)] *)
Definition tap_afterRelease (owner : string) (handler : AfterReleaseHandler)
    (h : IAutoHooks) : IAutoHooks :=
  {| modifyConfig := modifyConfig h;
     beforeRun := beforeRun h; beforeShipIt := beforeShipIt h;
     beforeCommitChangelog := beforeCommitChangelog h;
     afterAddToChangelog := afterAddToChangelog h;
     afterShipIt := afterShipIt h;
     afterRelease := afterRelease h ++ [(owner, handler)];
     getAuthor := getAuthor h; getPreviousVersion := getPreviousVersion h;
     getRepository := getRepository h; onCreateRelease := onCreateRelease h;
     version := version h; afterVersion := afterVersion h;
     publish := publish h; canary := canary h;
     afterPublish := afterPublish h |}.

(** [hooks.getPreviousVersion.tap(owner, handler)] *)
Definition tap_getPreviousVersion (owner : string)
    (handler : (string -> option string) -> Bail string) (h : IAutoHooks)
    : IAutoHooks :=
  {| modifyConfig := modifyConfig h;
     beforeRun := beforeRun h; beforeShipIt := beforeShipIt h;
     beforeCommitChangelog := beforeCommitChangelog h;
     afterAddToChangelog := afterAddToChangelog h;
     afterShipIt := afterShipIt h; afterRelease := afterRelease h;
     getAuthor := getAuthor h;
     getPreviousVersion := getPreviousVersion h ++ [(owner, handler)];
     getRepository := getRepository h; onCreateRelease := onCreateRelease h;
     version := version h; afterVersion := afterVersion h;
     publish := publish h; canary := canary h;
     afterPublish := afterPublish h |}.

(** [hooks.getAuthor.tapPromise(owner, handler)] *)
Definition tap_getAuthor (owner : string)
    (handler : unit -> Bail IAuthorOptions) (h : IAutoHooks) : IAutoHooks :=
  {| modifyConfig := modifyConfig h;
     beforeRun := beforeRun h; beforeShipIt := beforeShipIt h;
     beforeCommitChangelog := beforeCommitChangelog h;
     afterAddToChangelog := afterAddToChangelog h;
     afterShipIt := afterShipIt h; afterRelease := afterRelease h;
     getAuthor := getAuthor h ++ [(owner, handler)];
     getPreviousVersion := getPreviousVersion h;
     getRepository := getRepository h; onCreateRelease := onCreateRelease h;
     version := version h; afterVersion := afterVersion h;
     publish := publish h; canary := canary h;
     afterPublish := afterPublish h |}.

(** [hooks.getRepository.tapPromise(owner, handler)] *)
Definition tap_getRepository (owner : string)
    (handler : unit -> Bail IRepoOptions) (h : IAutoHooks) : IAutoHooks :=
  {| modifyConfig := modifyConfig h;
     beforeRun := beforeRun h; beforeShipIt := beforeShipIt h;
     beforeCommitChangelog := beforeCommitChangelog h;
     afterAddToChangelog := afterAddToChangelog h;
     afterShipIt := afterShipIt h; afterRelease := afterRelease h;
     getAuthor := getAuthor h; getPreviousVersion := getPreviousVersion h;
     getRepository := getRepository h ++ [(owner, handler)];
     onCreateRelease := onCreateRelease h;
     version := version h; afterVersion := afterVersion h;
     publish := publish h; canary := canary h;
     afterPublish := afterPublish h |}.

(** [hooks.onCreateRelease.tap(owner, handler)] *)
Definition tap_onCreateRelease (owner : string)
    (handler : Observer ReleaseOptions) (h : IAutoHooks) : IAutoHooks :=
  {| modifyConfig := modifyConfig h;
     beforeRun := beforeRun h; beforeShipIt := beforeShipIt h;
     beforeCommitChangelog := beforeCommitChangelog h;
     afterAddToChangelog := afterAddToChangelog h;
     afterShipIt := afterShipIt h; afterRelease := afterRelease h;
     getAuthor := getAuthor h; getPreviousVersion := getPreviousVersion h;
     getRepository := getRepository h;
     onCreateRelease := onCreateRelease h ++ [(owner, handler)];
     version := version h; afterVersion := afterVersion h;
     publish := publish h; canary := canary h;
     afterPublish := afterPublish h |}.

(** [hooks.canary.tapPromise(owner, handler)] *)
Definition tap_canary (owner : string)
    (handler : string * string -> Bail CanaryResult) (h : IAutoHooks)
    : IAutoHooks :=
  {| modifyConfig := modifyConfig h;
     beforeRun := beforeRun h; beforeShipIt := beforeShipIt h;
     beforeCommitChangelog := beforeCommitChangelog h;
     afterAddToChangelog := afterAddToChangelog h;
     afterShipIt := afterShipIt h; afterRelease := afterRelease h;
     getAuthor := getAuthor h; getPreviousVersion := getPreviousVersion h;
     getRepository := getRepository h; onCreateRelease := onCreateRelease h;
     version := version h; afterVersion := afterVersion h;
     publish := publish h; canary := canary h ++ [(owner, handler)];
     afterPublish := afterPublish h |}.

End Hook.

(** [IPlugin] *)
Record IPlugin : Type := {
  plugin_name : string;
  apply : Hook.IAutoHooks -> Hook.IAutoHooks
}.

(** ** Collaborators, events and state *)

(** A call on a collaborator: the configuration loader, the hosting client
    ([this.git]), the release helper ([this.release]) or a child process
    ([execPromise]). *)
Inductive Call : Type :=
| ConfigLoad
| GetLatestRelease
| GetSha (short : bool)
| GetLatestTagInBranch
| GetFirstCommit
| Publish (releaseNotes version : string)
| GetLabels (n : N)
| AddLabelToPr (n : N) (label : string)
| LockIssue (n : N)
| GetPullRequest (n : N)
| GetCommitsForPR (n : N)
| CreateComment (message : string) (n : N) (context : string)
| EditComment (message : string) (n : N) (context : string)
| DeleteComment (n : N) (context : string)
| AddToPrBody (message : string) (n : N) (context : string)
| GetCommitsInRelease (from : string) (to : option string)
| GetCommits (from : string)
| GetSemverBump (from : string) (to : option string)
| GenerateReleaseNotes (from : string) (to : option string)
    (bump : option string)
| AddToChangelog (releaseNotes lastRelease currentVersion : string)
| Exec (command : string) (args : list string).

(** What a hook point is called with. *)
Inductive Payload : Type :=
| NoArguments
| Strings (args : list string)
| Config (config : IAutoConfig)
| Changelog (lifecycle : ChangelogLifecycle)
| Released (release : AfterRelease)
| Shipped (newVersion : option string) (commits : list IExtendedCommit)
| Created (release : ReleaseOptions).

(** An observable event of a run. *)
Inductive Event : Type :=
| Logged (level : string) (args : list string)
| Printed (line : string)
| Fired (hook : string) (payload : Payload)
| Ran (hook : string) (owner : string)
| Called (call : Call).

Definition IVersionLabels : Type := list (string * list string).

(** The collaborators of a run. [fails] tells which calls reject, and with
    which error; the other fields give the answer of a call that
    resolves. The label store of the hosting platform is part of the
    state instead. [schedule] is the order in which the event loop resumes
    callbacks that wait side by side: each number picks one of the
    callbacks that can be resumed, counted in the order in which they were
    started. *)
Record World : Type := {
  env : Env;
  schedule : list nat;
  GH_TOKEN : option string;
  pkg : bool;
  fails : Call -> option string;
  loadedConfig : ApiOptions -> IAutoConfig;
  getVersionMap : gmap string LabelDefinition -> IVersionLabels;
  releaseOptions : IAutoConfig -> ReleaseOptions;
  loadPlugin : string -> PartialOptions -> option IPlugin;
  filterNonPullRequest : string;
  latestRelease : string;
  sha : bool -> string;
  latestTagInBranch : string;
  firstCommit : string;
  published : string -> string -> string;
  pullRequests : N -> PullRequest;
  commitsForPR : N -> list string;
  commitsInRelease : string -> option string -> list IExtendedCommit;
  commits : string -> list IExtendedCommit;
  semverBump : string -> option string -> string;
  releaseNotes : string -> option string -> option string -> string;
  calculateSemVerBump :
    list (list string) -> option IVersionLabels -> option IAutoConfig ->
    string;
  semver_parse : string -> bool;
  semver_eq : string -> string -> bool;
  semver_gt : string -> string -> bool;
  semver_inc : string -> string -> option string
}.

(** The fields of an [Auto] object. *)
Record Auto : Type := {
  this_hooks : Hook.IAutoHooks;
  this_options : ApiOptions;
  this_baseBranch : string;
  this_config : option IAutoConfig;
  this_release : option ReleaseOptions;
  this_git : option IGitOptions;
  this_labels : option (gmap string LabelDefinition);
  this_semVerLabels : option IVersionLabels;
  this_versionBump : option string
}.

(** The label store of the hosting platform: the labels of each request
    or issue. *)
Abbreviation Platform := (gmap N (list string)).

(** Modelled from the spec: the hosting client ([git.ts]) is not among the
    sources; [getLabels(number)] reads the current labels of a request or
    issue. *)
Definition labels_of (p : Platform) (n : N) : list string :=
  default [] (p !! n).

(** Modelled from the spec: the hosting client ([git.ts]) is not among the
    sources; [addLabel(number, label)] adds a label. The store keeps a
    list, so that a label added twice shows twice. *)
Definition add_label (p : Platform) (n : N) (l : string) : Platform :=
  <[n := labels_of p n ++ [l]]> p.

Record St : Type := {
  auto : Auto;
  platform : Platform
}.

(** ** The monad of the engine *)

Inductive Outcome (A : Type) : Type :=
| Returns (a : A)
| Throws (error : string)
| Exits (code : N).

Arguments Returns {A} a.
Arguments Throws {A} error.
Arguments Exits {A} code.

(** A run: the events it leaves, in the order in which they happen, the
    state it ends in and how it ends. *)
Record Run (A : Type) : Type := {
  events : list Event;
  final : St;
  outcome : Outcome A
}.

Arguments Build_Run {A} events final outcome.
Arguments events {A} r.
Arguments final {A} r.
Arguments outcome {A} r.

Definition M (A : Type) : Type := World -> St -> Run A.

Definition ret {A} (a : A) : M A := fun _ st => Build_Run [] st (Returns a).

Definition bind {A B} (m : M A) (f : A -> M B) : M B :=
  fun w st =>
    let r := m w st in
    match outcome r with
    | Returns a =>
        let r' := f a w (final r) in
        Build_Run (events r ++ events r') (final r') (outcome r')
    | Throws e => Build_Run (events r) (final r) (Throws e)
    | Exits c => Build_Run (events r) (final r) (Exits c)
    end.

Declare Scope engine_scope.
Delimit Scope engine_scope with engine.
Notation "x <- m ;; k" := (bind m (fun x => k))
  (at level 100, m at next level, right associativity) : engine_scope.
Notation "m ;;; k" := (bind m (fun _ => k))
  (at level 100, right associativity) : engine_scope.
Open Scope engine_scope.

(** [throw new Error(e)] *)
Definition throw {A} (e : string) : M A :=
  fun _ st => Build_Run [] st (Throws e).

(** [process.exit(code)] *)
Definition process_exit {A} (code : N) : M A :=
  fun _ st => Build_Run [] st (Exits code).

(** [try { m } catch (error) { handler }] *)
Definition try_catch {A} (m : M A) (handler : string -> M A) : M A :=
  fun w st =>
    let r := m w st in
    match outcome r with
    | Throws e =>
        let r' := handler e w (final r) in
        Build_Run (events r ++ events r') (final r') (outcome r')
    | _ => r
    end.

Definition emit (e : Event) : M unit :=
  fun _ st => Build_Run [e] st (Returns tt).

Definition this : M Auto := fun _ st => Build_Run [] st (Returns (auto st)).

Definition world : M World := fun w st => Build_Run [] st (Returns w).

Definition set_this (a : Auto) : M unit :=
  fun _ st =>
    Build_Run [] {| auto := a; platform := platform st |} (Returns tt).

Definition log (level : string) (args : list string) : M unit :=
  emit (Logged level args).

(** A call on a collaborator that leaves the label store alone: the call is
    recorded, then rejects or resolves with its answer. *)
Definition call {A} (c : Call) (answer : World -> A) : M A :=
  fun w st =>
    Build_Run [Called c] st
      match fails w c with
      | Some e => Throws e
      | None => Returns (answer w)
      end.

(** [git.getLabels(n)] *)
Definition getLabels (n : N) : M (list string) :=
  fun w st =>
    Build_Run [Called (GetLabels n)] st
      match fails w (GetLabels n) with
      | Some e => Throws e
      | None => Returns (labels_of (platform st) n)
      end.

(** [git.addLabelToPr(n, label)] *)
Definition addLabelToPr (n : N) (l : string) : M unit :=
  fun w st =>
    match fails w (AddLabelToPr n l) with
    | Some e => Build_Run [Called (AddLabelToPr n l)] st (Throws e)
    | None =>
        Build_Run [Called (AddLabelToPr n l)]
          {| auto := auto st; platform := add_label (platform st) n l |}
          (Returns tt)
    end.

(** ** Callbacks that run side by side *)

(** An [async] function that is used as a callback. [Do] is code that runs
    without waiting, [Await] a call that the callback waits for, and [All]
    is [await Promise.all(callbacks)]. A computation that throws rejects
    the callback.

    A call is made when the callback reaches its [await]: it is recorded,
    and has its effect on the hosting platform, at that moment; the
    callback then waits for the answer, and other callbacks may run before
    it goes on. Nothing runs between two calls of a callback: an [await]
    of an [async] function of the two sources is where that function
    waits for its own calls, and not one more point where another
    callback runs. *)
#[warnings="-register-all"]
Inductive Task : Type :=
| Return
| Do {X : Type} (m : M X) (k : X -> Task)
| Await {X : Type} (call : M X) (k : X -> Task)
| All (callbacks : list Task) (k : Task).

(** [await t; k] for an [async] function [t]. *)
Fixpoint and_then (t k : Task) : Task :=
  match t with
  | Return => k
  | Do m f => Do m (fun x => and_then (f x) k)
  | Await c f => Await c (fun x => and_then (f x) k)
  | All callbacks f => All callbacks (and_then f k)
  end.

Declare Scope task_scope.
Delimit Scope task_scope with task.
Notation "x <- m ;; k" := (Do m (fun x => k))
  (at level 100, m at next level, right associativity) : task_scope.
Notation "m ;;; k" := (Do m (fun _ => k))
  (at level 100, right associativity) : task_scope.
Notation "x <~ c ;; k" := (Await c (fun x => k))
  (at level 100, c at next level, right associativity) : task_scope.
Notation "c ~;; k" := (Await c (fun _ => k))
  (at level 100, right associativity) : task_scope.

(** A callback that has been started: it is settled (resolved, or rejected
    with an error), or it waits for a call and [continue] is what it does
    when the call completes, or it waits for its own callbacks.
    [rejected] is the first rejection among them so far. *)
#[warnings="-register-all"]
Inductive Thread : Type :=
| Settled (rejection : option string)
| Suspended (continue : M Thread)
| Waiting (rejected : option string) (children : list Thread)
    (continue : M Thread).

Definition settled (th : Thread) : bool :=
  match th with
  | Settled _ => true
  | _ => false
  end.

Fixpoint first_rejection (ths : list Thread) : option string :=
  match ths with
  | [] => None
  | Settled (Some e) :: _ => Some e
  | _ :: ths' => first_rejection ths'
  end.

(** A rejection that is already known stays the first. *)
Definition or_rejection (rejected later : option string) : option string :=
  match rejected with
  | Some e => Some e
  | None => later
  end.

(** A piece of a callback that throws rejects the callback. *)
Definition as_rejection (m : M Thread) : M Thread :=
  fun w st =>
    let r := m w st in
    match outcome r with
    | Throws e => Build_Run (events r) (final r) (Returns (Settled (Some e)))
    | _ => r
    end.

(** Start a callback: it runs until it first waits. The callbacks of
    [Promise.all] are started one after the other. *)
Fixpoint start (t : Task) : M Thread :=
  match t with
  | Return => ret (Settled None)
  | Do m k =>
      fun w st =>
        let r := m w st in
        match outcome r with
        | Returns x =>
            let r' := start (k x) w (final r) in
            Build_Run (events r ++ events r') (final r') (outcome r')
        | Throws e =>
            Build_Run (events r) (final r) (Returns (Settled (Some e)))
        | Exits c => Build_Run (events r) (final r) (Exits c)
        end
  | Await call k =>
      fun w st =>
        let r := call w st in
        match outcome r with
        | Returns x =>
            Build_Run (events r) (final r) (Returns (Suspended (start (k x))))
        | Throws e =>
            Build_Run (events r) (final r) (Returns (Settled (Some e)))
        | Exits c => Build_Run (events r) (final r) (Exits c)
        end
  | All callbacks k =>
      children <-
        (fix each (ts : list Task) : M (list Thread) :=
           match ts with
           | [] => ret []
           | t :: ts' =>
               th <- start t ;;
               ths <- each ts' ;;
               ret (th :: ths)
           end) callbacks ;;
      ret (Waiting (first_rejection children) children (start k))
  end.

(** What looking for the callback to resume gives: the callback was not in
    this thread, and [n] callbacks are still to be passed over, or it was,
    and this is the thread afterwards. *)
Inductive Seek : Type :=
| Passed (n : nat)
| Resumed (th : Thread).

(** Resume the callback number [n] among those that can be resumed: the
    ones that wait for a call, and the ones whose own callbacks are all
    settled. The callback runs until it waits again. *)
Fixpoint resume (n : nat) (th : Thread) : M Seek :=
  match th with
  | Settled _ => ret (Passed n)
  | Suspended continue =>
      match n with
      | O => th' <- as_rejection continue ;; ret (Resumed th')
      | S n' => ret (Passed n')
      end
  | Waiting rejected children continue =>
      if forallb settled children then
        match n with
        | O =>
            match rejected with
            | Some e => ret (Resumed (Settled (Some e)))
            | None => th' <- as_rejection continue ;; ret (Resumed th')
            end
        | S n' => ret (Passed n')
        end
      else
        found <-
          (fix among (n : nat) (ths : list Thread)
             : M (nat + list Thread) :=
             match ths with
             | [] => ret (inl n)
             | th :: ths' =>
                 sought <- resume n th ;;
                 match sought with
                 | Resumed th' => ret (inr (th' :: ths'))
                 | Passed n' =>
                     rest <- among n' ths' ;;
                     match rest with
                     | inl n'' => ret (inl n'')
                     | inr ths'' => ret (inr (th :: ths''))
                     end
                 end
             end) n children ;;
        match found with
        | inl n' => ret (Passed n')
        | inr children' =>
            ret (Resumed
                   (Waiting (or_rejection rejected (first_rejection children'))
                      children' continue))
        end
  end.

(** Resume callbacks in the order of a schedule. A number that picks no
    callback is passed over. *)
Fixpoint resume_all (schedule : list nat) (th : Thread) : M Thread :=
  match schedule with
  | [] => ret th
  | n :: schedule' =>
      sought <- resume n th ;;
      match sought with
      | Passed _ => resume_all schedule' th
      | Resumed th' => resume_all schedule' th'
      end
  end.

(** Let a thread run to its end, its callbacks one after the other, and
    give its rejection. *)
Fixpoint finish (th : Thread) : M (option string) :=
  match th with
  | Settled rejection => ret rejection
  | Suspended continue =>
      fun w st =>
        match continue w st with
        | {| events := evs; final := st'; outcome := out |} =>
            match out with
            | Returns th' =>
                let r := finish th' w st' in
                Build_Run (evs ++ events r) (final r) (outcome r)
            | Throws e => Build_Run evs st' (Returns (Some e))
            | Exits c => Build_Run evs st' (Exits c)
            end
        end
  | Waiting rejected children continue =>
      rejected <-
        (fix each (ths : list Thread) (rejected : option string)
           : M (option string) :=
           match ths with
           | [] => ret rejected
           | th :: ths' =>
               rejection <- finish th ;;
               each ths' (or_rejection rejected rejection)
           end) children rejected ;;
      match rejected with
      | Some e => ret (Some e)
      | None =>
          fun w st =>
            match continue w st with
            | {| events := evs; final := st'; outcome := out |} =>
                match out with
                | Returns th' =>
                    let r := finish th' w st' in
                    Build_Run (evs ++ events r) (final r) (outcome r)
                | Throws e => Build_Run evs st' (Returns (Some e))
                | Exits c => Build_Run evs st' (Exits c)
                end
            end
      end
  end.

(** [await Promise.all(callbacks)]: every callback is started, then they
    are resumed in the order of the schedule, and what the schedule leaves
    is run to its end, one callback after the other. A rejection does not
    stop the other callbacks, and the first rejection is the result. In
    JavaScript the caller sees the rejection at once, while the other
    callbacks go on; here they go on first, and then the caller sees the
    rejection. *)
Definition parallel (callbacks : list Task) : M unit :=
  root <- start (All callbacks Return) ;;
  w <- world ;;
  root <- resume_all (schedule w) root ;;
  rejection <- finish root ;;
  match rejection with
  | Some e => throw e
  | None => ret tt
  end.

(** An [async] function that is called on its own: nothing runs beside it
    but its own callbacks. *)
Fixpoint alone (t : Task) : World -> St -> Run unit :=
  match t with
  | Return => ret tt
  | Do m k => x <- m ;; alone (k x)
  | Await call k => x <- call ;; alone (k x)
  | All callbacks k => parallel callbacks ;;; alone k
  end.

Coercion alone : Task >-> Funclass.

(** A callback that does not wait. *)
Definition atomic (m : M unit) : Task := Do m (fun _ => Return).

(** Callbacks that run one after the other; a rejection stops the run. *)
Fixpoint series (ms : list (M unit)) : M unit :=
  match ms with
  | [] => ret tt
  | m :: ms' => m ;;; series ms'
  end.

(** ** Calling a hook point *)

Definition run_observer {A} (hook owner : string) (f : Observer A) (a : A)
    : M unit :=
  emit (Ran hook owner) ;;;
  match f a with
  | Some e => throw e
  | None => ret tt
  end.

(** [SyncHook.call] and [AsyncSeriesHook.promise]: every handler, in
    registration order; a handler that throws ends the call. *)
Definition call_series {A} (hook : string) (payload : Payload)
    (h : Hook.taps (Observer A)) (a : A) : M unit :=
  emit (Fired hook payload) ;;;
  series (map (fun t => run_observer hook (fst t) (snd t) a) h).

(** [AsyncParallelHook.promise]: every handler is started. *)
Definition call_parallel {A} (hook : string) (payload : Payload)
    (h : Hook.taps (Observer A)) (a : A) : M unit :=
  emit (Fired hook payload) ;;;
  parallel (map (fun t => atomic (run_observer hook (fst t) (snd t) a)) h).

(** [SyncWaterfallHook.call]: each handler receives what the one before it
    returned. *)
Fixpoint waterfall {A} (hook : string) (h : Hook.taps (A -> A)) (a : A)
    : M A :=
  match h with
  | [] => ret a
  | (owner, f) :: h' => emit (Ran hook owner) ;;; waterfall hook h' (f a)
  end.

(** [AsyncSeriesBailHook.promise]: the first answer that is not
    [undefined] is the result, and the handlers after it do not run. *)
Fixpoint bail {A R} (hook : string) (h : Hook.taps (A -> Bail R)) (a : A)
    : M (option R) :=
  match h with
  | [] => ret None
  | (owner, f) :: h' =>
      emit (Ran hook owner) ;;;
      match f a with
      | NoOpinion => bail hook h' a
      | Answer r => ret (Some r)
      | Rejects e => throw e
      end
  end.

(** ** Commands of [Auto] that the plugin uses *)

Definition createErrorMessage : string :=
  "Auto is not initialized! Make sure the have run Auto.loadConfig".

(** [getPrNumberFromEnv(pr)]: [pr || envPr]. [None] stands for the falsy
    values [false] and [NaN]. *)
Definition getPrNumberFromEnv (e : Env) (pr : option N) : option N :=
  let envPr :=
    if has (env_pr e)
    then match value_of (env_pr e) with
         | Some s => JS.Number s
         | None => None
         end
    else None in
  if JS.truthy_number pr then pr else envPr.

Definition getPrNumber (command : string) (pr : option N) : M N :=
  w <- world ;;
  let prNumber := getPrNumberFromEnv (env w) pr in
  if negb (JS.truthy_number prNumber)
  then throw ("Could not detect PR number. " +:+ command +:+
              " must be run from either a PR or have the PR number supplied via the --pr flag.")
  else ret (default 0%N prNumber).

(** [comment] is also what the "Released Label" plugin calls from its
    callbacks: it is a [Task], which waits for the hosting client. *)
Definition comment (options : ICommentOptions) : Task :=
  let message := co_message options in
  let context := default "default" (co_context options) in
  (a <- this ;;
   if negb (defined (this_git a)) then atomic (throw createErrorMessage)
   else
     prNumber <- getPrNumber "comment" (co_pr options) ;;
     let n := JS.String_of_N prNumber in
     if co_dryRun options then
       if co_delete options then
         atomic
           (log "info" ["Would have deleted comment on " +:+ n +:+ " under " +:+
                        dq +:+ context +:+ dq +:+ " context"])
       else if co_edit options then
         atomic
           (log "info" ["Would have edited the comment on " +:+ n +:+
                        " under " +:+ dq +:+ context +:+ dq +:+ " context." +:+
                        nl +:+ nl +:+ "New message: " +:+ JS.show message])
       else
         atomic
           (log "info" ["Would have commented on " +:+ n +:+ " under " +:+
                        dq +:+ context +:+ dq +:+ " context:" +:+ nl +:+ nl +:+
                        JS.show message])
     else if co_edit options && JS.truthy message then
       call (EditComment (JS.show message) prNumber context) (fun _ => tt) ~;;
       atomic
         (log "success" ["Edited comment on PR #" +:+ n +:+
                         " under context " +:+ dq +:+ context +:+ dq])
     else
       and_then
         (if co_delete options then
            call (DeleteComment prNumber context) (fun _ => tt) ~;;
            atomic
              (log "success" ["Deleted comment on PR #" +:+ n +:+
                              " under context " +:+ dq +:+ context +:+ dq])
          else Return)
         (if JS.truthy message then
            call (CreateComment (JS.show message) prNumber context)
              (fun _ => tt) ~;;
            atomic (log "success" ["Commented on PR #" +:+ n])
          else Return))%task.

Definition prBody (options : ICommentOptions) : M unit :=
  let message := co_message options in
  let context := default "default" (co_context options) in
  a <- this ;;
  if negb (defined (this_git a)) then throw createErrorMessage
  else
    prNumber <- getPrNumber "pr-body" (co_pr options) ;;
    let n := JS.String_of_N prNumber in
    if co_dryRun options then
      if co_delete options then
        log "info" ["Would have deleted PR body on " +:+ n +:+ " under " +:+
                    dq +:+ context +:+ dq +:+ " context"]
      else
        log "info" ["Would have appended to PR body on " +:+ n +:+
                    " under " +:+ dq +:+ context +:+ dq +:+ " context:" +:+
                    nl +:+ nl +:+ JS.show message]
    else
      (if co_delete options then
         call (AddToPrBody "" prNumber context) (fun _ => tt)
       else ret tt) ;;;
      (if JS.truthy message then
         call (AddToPrBody (JS.show message) prNumber context) (fun _ => tt)
       else ret tt) ;;;
      log "success" ["Updated body on PR #" +:+ n].

(** ** The "Released Label" plugin ([plugins/released/src/index.ts]) *)

Module ReleasedLabelPlugin.

Import Regex.

Definition TYPE : string := "%TYPE".
Definition VERSION : string := "%VERSION".

Definition defaultOptions : IReleasedLabelPluginOptions :=
  {| label := "released";
     lockIssues := false;
     message := ":rocket: " +:+ TYPE +:+ " was released in " +:+ VERSION +:+
                " :rocket:" |}.

(** [/(?:Close|Closes|Closed|Fix|Fixes|Fixed|Resolve|Resolves|Resolved)\s((?:#\d+(?:,\s)?)+)/gi] *)
Definition closeIssue : regex :=
  Cat (alt_of (map word_i
                 ["Close"; "Closes"; "Closed"; "Fix"; "Fixes"; "Fixed";
                  "Resolve"; "Resolves"; "Resolved"]))
    (Cat space
       (Group (Plus (Cat (chr "#")
                       (Cat (Plus digit) (Opt (Cat (chr ",") space))))))).

(** [/#(\d+)/i] *)
Definition issueNumber : regex :=
  Cat (chr "#") (Group (Plus digit)).

(** Determine if string is a canary version: [version.match('canary')]. *)
Definition isCanary (version : string) : bool :=
  JS.includes version "canary".

Definition name : string := "Released Label".

(** The constructor: [merge(defaultOptions, options)]. *)
Definition constructor (options : PartialOptions)
    : IReleasedLabelPluginOptions :=
  {| label := default (label defaultOptions) (given_label options);
     lockIssues :=
       default (lockIssues defaultOptions) (given_lockIssues options);
     message := default (message defaultOptions) (given_message options) |}.

(** Create a comment that fits the context (pr of issue). *)
Definition createReleasedComment (options : IReleasedLabelPluginOptions)
    (isIssue : bool) (version : string) : string :=
  JS.replace_all VERSION version
    (JS.replace_all TYPE (if isIssue then "Issue" else "PR")
       (message options)).

(** Lines 144 to 149 of [addCommentAndLabel]: add a `released` label to
    a PR. *)
Definition ensureLabel (options : IReleasedLabelPluginOptions)
    (prOrIssue : N) : Task :=
  (labels <~ getLabels prOrIssue ;;
   if negb (existsb (String.eqb (label options)) labels)
   then addLabelToPr prOrIssue (label options) ~;; Return
   else Return)%task.

(** Add the templated comment to the pr and attach the "released" label. *)
Definition addCommentAndLabel (options : IReleasedLabelPluginOptions)
    (newVersion : string) (prOrIssue : N) (isIssue : bool) : Task :=
  let message := createReleasedComment options isIssue newVersion in
  and_then
    (comment {| co_message := Some message; co_pr := Some prOrIssue;
                co_context := Some "released"; co_dryRun := false;
                co_delete := false; co_edit := false |})
    (if isCanary newVersion then Return
     else ensureLabel options prOrIssue).

(** The issue numbers that a list of messages closes: lines 109 to 115 of
    the source. *)
Definition issues_of (messages : list string) : list N :=
  let matches := map (match_global closeIssue) messages in
  let found := omap id matches in
  let all := fold_left (fun all arr => all ++ arr) found [] in
  let numbers := omap id (map (match_first issueNumber) all) in
  map (fun m => default 0%N (JS.Number (nth 1 m ""))) numbers.

(** Lines 109 to 125 of [addReleased]: comment on the issues that the
    messages close, label them and lock them, all side by side. *)
Definition releaseIssues (options : IReleasedLabelPluginOptions)
    (newVersion : string) (messages : list string) : Task :=
  All (map (fun issue =>
              and_then (addCommentAndLabel options newVersion issue true)
                (if lockIssues options && negb (isCanary newVersion)
                 then call (LockIssue issue) (fun _ => tt) ~;; Return
                 else Return)%task)
         (issues_of messages))
    Return.

(** Add the release label + other stuff to a commit. *)
Definition addReleased (options : IReleasedLabelPluginOptions)
    (commit : IExtendedCommit) (newVersion : string) : Task :=
  match pullRequest commit with
  | Some number =>
      and_then (addCommentAndLabel options newVersion number false)
        (pr <~ call (GetPullRequest number) (fun w => pullRequests w number) ;;
         commitsInPr <~
           call (GetCommitsForPR number) (fun w => commitsForPR w number) ;;
         releaseIssues options newVersion
           ([subject commit] ++ JS.split_on "010"%char (pr_body pr)
            ++ commitsInPr))%task
  | None => releaseIssues options newVersion [subject commit]
  end.

(** The handler that [apply] taps on [modifyConfig]. *)
Definition modifyConfig (config : IAutoConfig) : IAutoConfig :=
  set_labels config
    (match cfg_labels config !! "released" with
     | Some _ => cfg_labels config
     | None =>
         <["released" :=
             {| label_name := "released";
                label_description :=
                  "This issue/pull request has been released." |}]>
           (cfg_labels config)
     end).

(** The handler that [apply] taps on [afterRelease]. *)
Definition afterRelease (options : IReleasedLabelPluginOptions)
    (payload : AfterRelease) : Task :=
  if negb (JS.truthy (ar_newVersion payload)) then Return
  else
    let newVersion := JS.show (ar_newVersion payload) in
    (a <- this ;;
     if default false (api_dryRun (this_options a)) then Return
     else
       match ar_commits payload with
       | [] => Return
       | head :: _ =>
           isSkipped <-
             match labels head with
             | [] => ret None
             | _ =>
                 match this_release a with
                 | None =>
                     throw "TypeError: Cannot read property 'options' of undefined"
                 | Some release =>
                     ret (List.find
                            (fun label =>
                               existsb (String.eqb label)
                                 (skipReleaseLabels release))
                            (labels head))
                 end
             end ;;
           if JS.truthy isSkipped then Return
           else
             All (map (fun commit => addReleased options commit newVersion)
                    (ar_commits payload))
               Return
       end)%task.

(** Tap into auto plugin points. *)
Definition apply (options : IReleasedLabelPluginOptions)
    (hooks : Hook.IAutoHooks) : Hook.IAutoHooks :=
  Hook.tap_afterRelease name (ReleasedLabel options)
    (Hook.tap_modifyConfig name modifyConfig hooks).

(** The plugin object made from the options of the configuration. *)
Definition plugin (options : PartialOptions) : IPlugin :=
  Build_IPlugin name (apply (constructor options)).

End ReleasedLabelPlugin.

(** [hooks.afterRelease.promise(payload)] *)
Definition run_afterRelease (t : string * AfterReleaseHandler)
    (payload : AfterRelease) : Task :=
  (emit (Ran "afterRelease" (fst t)) ;;;
   match snd t with
   | Observe f =>
       match f payload with
       | Some e => atomic (throw e)
       | None => Return
       end
   | ReleasedLabel options => ReleasedLabelPlugin.afterRelease options payload
   end)%task.

Definition call_afterRelease (h : Hook.taps AfterReleaseHandler)
    (payload : AfterRelease) : M unit :=
  emit (Fired "afterRelease" (Released payload)) ;;;
  parallel (map (fun t => run_afterRelease t payload) h).

(** ** The [Auto] class *)

(** The constructor: [new Auto(options)]. *)
Definition new_Auto (options : ApiOptions) : Auto :=
  {| this_options := options;
     this_baseBranch := JS.or_else (api_baseBranch options) "master";
     this_hooks :=
       Hook.tap_onCreateRelease "Link onCreateLogParse" (fun _ => None)
         (Hook.tap_onCreateRelease "Link onCreateChangelog" (fun _ => None)
            Hook.makeHooks);
     this_config := None; this_release := None; this_git := None;
     this_labels := None; this_semVerLabels := None;
     this_versionBump := None |}.

Definition set_hooks (a : Auto) (h : Hook.IAutoHooks) : Auto :=
  {| this_hooks := h; this_options := this_options a;
     this_baseBranch := this_baseBranch a; this_config := this_config a;
     this_release := this_release a; this_git := this_git a;
     this_labels := this_labels a; this_semVerLabels := this_semVerLabels a;
     this_versionBump := this_versionBump a |}.

Definition set_config (a : Auto) (c : IAutoConfig) (v : IVersionLabels)
    : Auto :=
  {| this_hooks := this_hooks a; this_options := this_options a;
     this_baseBranch := this_baseBranch a; this_config := Some c;
     this_release := this_release a; this_git := this_git a;
     this_labels := Some (cfg_labels c); this_semVerLabels := Some v;
     this_versionBump := this_versionBump a |}.

Definition set_git (a : Auto) (g : IGitOptions) : Auto :=
  {| this_hooks := this_hooks a; this_options := this_options a;
     this_baseBranch := this_baseBranch a; this_config := this_config a;
     this_release := this_release a; this_git := Some g;
     this_labels := this_labels a; this_semVerLabels := this_semVerLabels a;
     this_versionBump := this_versionBump a |}.

Definition set_release (a : Auto) (r : ReleaseOptions) : Auto :=
  {| this_hooks := this_hooks a; this_options := this_options a;
     this_baseBranch := this_baseBranch a; this_config := this_config a;
     this_release := Some r; this_git := this_git a;
     this_labels := this_labels a; this_semVerLabels := this_semVerLabels a;
     this_versionBump := this_versionBump a |}.

Definition set_versionBump (a : Auto) (b : string) : Auto :=
  {| this_hooks := this_hooks a; this_options := this_options a;
     this_baseBranch := this_baseBranch a; this_config := this_config a;
     this_release := this_release a; this_git := this_git a;
     this_labels := this_labels a; this_semVerLabels := this_semVerLabels a;
     this_versionBump := Some b |}.

(** [if (!this.git || !this.release) throw this.createErrorMessage()] *)
Definition initialized (a : Auto) : bool :=
  defined (this_git a) && defined (this_release a).

(** Apply all of the plugins in the config. *)
Definition loadPlugins (config : IAutoConfig) : M unit :=
  w <- world ;;
  let defaultPlugins := [PluginName (if pkg w then "git-tag" else "npm")] in
  let pluginsPaths :=
    PluginName (filterNonPullRequest w) ::
    default defaultPlugins (cfg_plugins config) in
  let loaded :=
    omap (fun plugin =>
            match plugin with
            | PluginName path => loadPlugin w path no_options
            | PluginWithOptions path options => loadPlugin w path options
            end) pluginsPaths in
  a <- this ;;
  set_this (set_hooks a
              (fold_left (fun hooks plugin => apply plugin hooks) loaded
                 (this_hooks a))).

(** Get the repo to interact with. *)
Definition getRepo (config : IAutoConfig) : M (option IRepoOptions) :=
  if JS.truthy (cfg_owner config) && JS.truthy (cfg_repo config)
  then ret (Some {| repo_owner := Some (cfg_owner config);
                    repo_repo := Some (cfg_repo config);
                    repo_token := cfg_token config |})
  else
    a <- this ;;
    emit (Fired "getRepository" NoArguments) ;;;
    bail "getRepository" (Hook.getRepository (this_hooks a)) tt.

(** Create a client to interact with git. *)
Definition startGit (gitOptions : IGitOptions) : M IGitOptions :=
  if negb (JS.truthy (git_owner gitOptions)) ||
     negb (JS.truthy (git_repo gitOptions)) ||
     negb (JS.truthy_string (git_token gitOptions))
  then throw "Must set owner, repo, and GitHub token."
  else ret gitOptions.

(** Load the .autorc from the file system, set up defaults, combine with
    CLI args, load the extends property, load the plugins and start the git
    remote interface. *)
Definition loadConfig : M unit :=
  a <- this ;;
  loaded <- call ConfigLoad (fun w => loadedConfig w (this_options a)) ;;
  let initial := set_baseBranch loaded (this_baseBranch a) in
  emit (Fired "modifyConfig" (Config initial)) ;;;
  config <- waterfall "modifyConfig" (Hook.modifyConfig (this_hooks a))
              initial ;;
  w <- world ;;
  set_this (set_config a config (getVersionMap w (cfg_labels config))) ;;;
  loadPlugins config ;;;
  a <- this ;;
  call_series "beforeRun" (Config config) (Hook.beforeRun (this_hooks a))
    config ;;;
  repository <- getRepo config ;;
  let token :=
    match repository with
    | Some r => if JS.truthy (repo_token r) then repo_token r else GH_TOKEN w
    | None => GH_TOKEN w
    end in
  if negb (JS.truthy token) || String.eqb (JS.show token) "undefined" then
    log "error"
      ["No GitHub was found. Make sure it is available on process.env.GH_TOKEN."] ;;;
    throw "GitHub token not found!"
  else
    let githubOptions :=
      {| git_owner := match repository with
                      | Some r =>
                          if has (repo_owner r) then value_of (repo_owner r)
                          else cfg_owner config
                      | None => cfg_owner config
                      end;
         git_repo := match repository with
                     | Some r =>
                         if has (repo_repo r) then value_of (repo_repo r)
                         else cfg_repo config
                     | None => cfg_repo config
                     end;
         git_token := JS.show token;
         git_baseUrl :=
           JS.or_else (cfg_githubApi config) "https://api.github.com";
         git_graphqlBaseUrl :=
           JS.or_else (cfg_githubGraphqlApi config)
             (JS.or_else (cfg_githubApi config) "https://api.github.com") |} in
    git <- startGit githubOptions ;;
    a <- this ;;
    let release := releaseOptions w config in
    set_this (set_release (set_git a git) release) ;;;
    call_series "onCreateRelease" (Created release)
      (Hook.onCreateRelease (this_hooks a)) release.

(** Prefix a version with a "v" if needed. *)
Definition prefix_with (options : ReleaseOptions) (release : string)
    : string :=
  if noVersionPrefix options || String.prefix "v" release
  then release
  else "v" +:+ release.

Definition prefixRelease (release : string) : M string :=
  a <- this ;;
  match this_release a with
  | None => throw createErrorMessage
  | Some options => ret (prefix_with options release)
  end.

(** [this.prefixRelease] as the handlers of [getPreviousVersion] receive
    it: a function that throws ([None]) on an engine without a release
    helper. *)
Definition prefixRelease_of (a : Auto) (release : string) : option string :=
  option_map (fun options => prefix_with options release) (this_release a).

(** [parse(v)] of a value that may be undefined. *)
Definition parses (w : World) (v : option string) : bool :=
  match v with
  | Some s => semver_parse w s
  | None => false
  end.

(** The tap that [getCurrentVersion] adds: [prefixRelease('0.0.0')], which
    throws on an engine without a release helper. *)
Definition noPreviousVersion (prefixRelease : string -> option string)
    : Bail string :=
  match prefixRelease "0.0.0" with
  | Some version => Answer version
  | None => Rejects createErrorMessage
  end.

(** Get the latest version number of the project. *)
Definition getCurrentVersion (lastRelease : string) : M (option string) :=
  a <- this ;;
  let hooks :=
    Hook.tap_getPreviousVersion "None" noPreviousVersion (this_hooks a) in
  set_this (set_hooks a hooks) ;;;
  emit (Fired "getPreviousVersion" NoArguments) ;;;
  lastVersion <- bail "getPreviousVersion" (Hook.getPreviousVersion hooks)
                   (prefixRelease_of a) ;;
  w <- world ;;
  if semver_parse w lastRelease && parses w lastVersion &&
     semver_gt w lastRelease (JS.show lastVersion)
  then ret (Some lastRelease)
  else ret lastVersion.

(** Calculate a version from a tag using labels. *)
Definition getVersion (from : option string) : M string :=
  a <- this ;;
  if negb (initialized a) then throw createErrorMessage
  else
    lastRelease <-
      (if JS.truthy from then ret (JS.show from)
       else call GetLatestRelease latestRelease) ;;
    bump <- call (GetSemverBump lastRelease None)
              (fun w => semverBump w lastRelease None) ;;
    a <- this ;;
    set_this (set_versionBump a bump) ;;;
    ret bump.

Definition localEnvironmentNote : string :=
  "Detected local environment, will not set git user. This happens automatically in a CI environment." +:+
  nl +:+ nl +:+ "If a command fails manually run:" +:+ nl +:+ nl +:+
  "  - git config user.email your@email.com" +:+ nl +:+
  "  - git config user.name " +:+ dq +:+ "Your Name" +:+ dq.

(** Set the git user to make releases and commit with. *)
Definition setGitUser : M unit :=
  try_catch
    (call (Exec "git" ["config"; "user.email"]) (fun _ => tt) ;;;
     call (Exec "git" ["config"; "user.name"]) (fun _ => tt))
    (fun _ =>
       w <- world ;;
       if negb (env_isCi (env w)) then log "note" [localEnvironmentNote]
       else
         a <- this ;;
         match this_release a with
         | None => ret tt
         | Some options =>
             emit (Fired "getAuthor" NoArguments) ;;;
             packageAuthor <- bail "getAuthor" (Hook.getAuthor (this_hooks a))
                                tt ;;
             let email :=
               match packageAuthor with
               | Some author =>
                   if negb (JS.truthy (email options))
                   then author_email author else email options
               | None => email options
               end in
             let name :=
               match packageAuthor with
               | Some author =>
                   if negb (JS.truthy (name options))
                   then author_name author else name options
               | None => name options
               end in
             (if JS.truthy email then
                call (Exec "git" ["config"; "user.email";
                                  dq +:+ JS.show email +:+ dq])
                  (fun _ => tt)
              else ret tt) ;;;
             (if JS.truthy name then
                call (Exec "git" ["config"; "user.name";
                                  dq +:+ JS.show name +:+ dq])
                  (fun _ => tt)
              else ret tt)
         end).

(** [to || undefined] *)
Definition or_undefined (v : option string) : option string :=
  if JS.truthy v then v else None.

(** Make a changelog over a range of commits. *)
Definition makeChangelog (options : CommandOptions) : M unit :=
  let message := default "Update CHANGELOG.md [skip ci]" (opt_message options) in
  let to := opt_to options in
  a <- this ;;
  if negb (initialized a) then throw createErrorMessage
  else
    setGitUser ;;;
    lastRelease <-
      (if JS.truthy (opt_from options) then ret (JS.show (opt_from options))
       else call GetLatestRelease latestRelease) ;;
    bump <- call (GetSemverBump lastRelease to)
              (fun w => semverBump w lastRelease to) ;;
    a <- this ;;
    releaseNotes <-
      call (GenerateReleaseNotes lastRelease (or_undefined to)
              (this_versionBump a))
        (fun w => releaseNotes w lastRelease (or_undefined to)
                    (this_versionBump a)) ;;
    log "info" ["New Release Notes" +:+ nl; releaseNotes] ;;;
    if dryRun options then ret tt
    else
      currentVersion <- getCurrentVersion lastRelease ;;
      call (AddToChangelog releaseNotes lastRelease (JS.show currentVersion))
        (fun _ => tt) ;;;
      commits <-
        call (GetCommitsInRelease lastRelease (or_undefined to))
          (fun w => commitsInRelease w lastRelease (or_undefined to)) ;;
      let lifecycle :=
        {| cl_bump := bump; cl_commits := commits;
           cl_releaseNotes := releaseNotes; cl_lastRelease := lastRelease;
           cl_currentVersion := JS.show currentVersion |} in
      a <- this ;;
      call_series "beforeCommitChangelog" (Changelog lifecycle)
        (Hook.beforeCommitChangelog (this_hooks a)) lifecycle ;;;
      call (Exec "git" ["commit"; "-m"; dq +:+ message +:+ dq; "--no-verify"])
        (fun _ => tt) ;;;
      call_series "afterAddToChangelog" (Changelog lifecycle)
        (Hook.afterAddToChangelog (this_hooks a)) lifecycle.

(** [/^\d+\.\d+\.\d+/] *)
Definition startsWithVersion : Regex.regex :=
  Regex.Cat (Regex.Plus Regex.digit)
    (Regex.Cat (Regex.chr ".")
       (Regex.Cat (Regex.Plus Regex.digit)
          (Regex.Cat (Regex.chr ".") (Regex.Plus Regex.digit)))).

(** Lines 964 to 995 of [makeRelease]: with the last release, the commits,
    the release notes and the new version at hand, create the release on
    the hosting platform and call [afterRelease]. *)
Definition createRelease (options : CommandOptions) (lastRelease : string)
    (commitsInRelease : list IExtendedCommit)
    (releaseNotes newVersion : string) : M (option string) :=
  w <- world ;;
  if negb (dryRun options) && semver_parse w newVersion &&
     semver_parse w lastRelease && semver_eq w newVersion lastRelease
  then
    log "warn"
      ["Nothing released to Github. Version to be released is the same as the latest release on Github: " +:+
       newVersion] ;;;
    ret None
  else
    release <-
      (if dryRun options then
         log "info" ["Would have released (unless ran with " +:+ dq +:+
                     "shipit" +:+ dq +:+ "): " +:+ newVersion] ;;;
         ret None
       else
         log "info" ["Releasing " +:+ newVersion +:+ " to GitHub."] ;;;
         response <- call (Publish releaseNotes newVersion)
                       (fun w => published w releaseNotes newVersion) ;;
         ret (Some response)) ;;
    a <- this ;;
    call_afterRelease (Hook.afterRelease (this_hooks a))
      {| ar_lastRelease := lastRelease; ar_newVersion := Some newVersion;
         ar_commits := commitsInRelease; ar_releaseNotes := releaseNotes;
         ar_response := release |} ;;;
    ret (Some newVersion).

(** Make a release over a range of commits. *)
Definition makeRelease (options : CommandOptions) : M (option string) :=
  a <- this ;;
  if negb (initialized a) then throw createErrorMessage
  else
    lastRelease <-
      (if JS.truthy (opt_from options) then ret (JS.show (opt_from options))
       else call GetLatestRelease latestRelease) ;;
    lastRelease <-
      (if defined (Regex.match_here startsWithVersion
                     (list_ascii_of_string lastRelease))
       then prefixRelease lastRelease
       else ret lastRelease) ;;
    log "info" ["Last used release:"; lastRelease] ;;;
    commitsInRelease <-
      call (GetCommitsInRelease lastRelease None)
        (fun w => commitsInRelease w lastRelease None) ;;
    releaseNotes <-
      call (GenerateReleaseNotes lastRelease None (this_versionBump a))
        (fun w => releaseNotes w lastRelease None (this_versionBump a)) ;;
    log "info" ["Using release notes:" +:+ nl +:+ releaseNotes] ;;;
    rawVersion <-
      (if JS.truthy (opt_useVersion options) then ret (opt_useVersion options)
       else
         current <- getCurrentVersion lastRelease ;;
         if JS.truthy current then ret current
         else
           tag <- call GetLatestTagInBranch latestTagInBranch ;;
           ret (Some tag)) ;;
    if negb (JS.truthy rawVersion) then
      log "error" ["Could not calculate next version from last tag."] ;;;
      ret None
    else
      w <- world ;;
      newVersion <-
        (if parses w rawVersion then prefixRelease (JS.show rawVersion)
         else ret (JS.show rawVersion)) ;;
      createRelease options lastRelease commitsInRelease releaseNotes
        newVersion.

(** Lines 793 to 805 of [publishLatest]: what a dry run reports after
    [makeRelease]. *)
Definition reportDryRun (lastRelease version : string) : M unit :=
  log "warn"
    ["The version reported in the line above hasn't been incremented during `dry-run`"] ;;;
  current <- getCurrentVersion lastRelease ;;
  w <- world ;;
  if parses w current then
    log "warn"
      ["Published version would be: " +:+
       default "null" (semver_inc w (JS.show current) version)]
  else ret tt.

(** What [publishLatest] and [canary] return to [shipit]. *)
Abbreviation PublishInfo := (option string * list IExtendedCommit)%type.

(** On master: publish a new latest version. *)
Definition publishLatest (options : CommandOptions) : M (option PublishInfo) :=
  a <- this ;;
  if negb (initialized a) then throw createErrorMessage
  else
    version <- getVersion None ;;
    if String.eqb version "" then
      log "info" ["No version published."] ;;;
      ret None
    else
      lastRelease <- call GetLatestRelease latestRelease ;;
      commitsInRelease <-
        call (GetCommitsInRelease lastRelease None)
          (fun w => commitsInRelease w lastRelease None) ;;
      makeChangelog options ;;;
      (if negb (dryRun options) then
         a <- this ;;
         call_parallel "version" (Strings [version])
           (Hook.version (this_hooks a)) version ;;;
         call_parallel "afterVersion" NoArguments
           (Hook.afterVersion (this_hooks a)) tt ;;;
         call_parallel "publish" (Strings [version])
           (Hook.publish (this_hooks a)) version ;;;
         call_parallel "afterPublish" NoArguments
           (Hook.afterPublish (this_hooks a)) tt
       else ret tt) ;;;
      newVersion <- makeRelease options ;;
      (if dryRun options then reportDryRun lastRelease version
       else ret tt) ;;;
      ret (Some (newVersion, commitsInRelease)).

Definition noCanaryPlugin : string :=
  "None of the plugins that you are using implement the `canary` command!" +:+
  nl +:+ nl +:+
  dq +:+ "canary" +:+ dq +:+
  " releases are versions that are used solely to test changes. They make sense on some platforms (ex: npm) but not all!" +:+
  nl +:+ nl +:+
  "If you think your package manager has the ability to support canaries please file an issue or submit a pull request,".

(** Lines 610 to 622 of [canary]: the request number and the build, from
    the CI environment unless the options give them. *)
Definition canaryInfo (e : Env) (options : CommandOptions)
    : option string * option string :=
  let '(pr, build) :=
    if has (env_pr e) && has (env_build e)
    then (value_of (env_pr e), value_of (env_build e))
    else if has (env_pr e) && has (env_commit e)
    then (value_of (env_pr e), value_of (env_commit e))
    else (None, None) in
  (if JS.truthy_number (opt_pr options)
   then option_map JS.String_of_N (opt_pr options) else pr,
   if JS.truthy_number (opt_build options)
   then option_map JS.String_of_N (opt_build options) else build).

(** Lines 631 to 643: the suffix of the canary version. [headSha] is what
    [git.getSha(true)] answers; it is asked for only when the request
    number or the build is missing. *)
Definition canarySuffix (pr build : option string) (headSha : M string)
    : M string :=
  let canaryVersion := "" in
  let canaryVersion :=
    if JS.truthy pr then canaryVersion +:+ "." +:+ JS.show pr
    else canaryVersion in
  let canaryVersion :=
    if JS.truthy build then canaryVersion +:+ "." +:+ JS.show build
    else canaryVersion in
  if negb (JS.truthy pr) || negb (JS.truthy build) then
    short <- headSha ;;
    ret (canaryVersion +:+ "." +:+ short)
  else ret canaryVersion.

(** Lines 645 to 691 of [canary]: publish the canary version through the
    hook, report it, and return it with the commits since the latest tag. *)
Definition publishCanary (options : CommandOptions) (pr : option string)
    (version canaryVersion : string) : M (option PublishInfo) :=
  newVersion <-
    (if dryRun options then
       log "warn" ["Published canary identifier would be: " +:+ dq +:+
                   "-canary" +:+ canaryVersion +:+ dq] ;;;
       ret (Some (Some ""))
     else
       a <- this ;;
       emit (Fired "canary" (Strings [version; canaryVersion])) ;;;
       result <- bail "canary" (Hook.canary (this_hooks a))
                   (version, canaryVersion) ;;
       match result with
       | Some (Failed error) =>
           log "warn" [error] ;;;
           ret None
       | _ =>
           let newVersion :=
             match result with
             | Some (Published identifier) => Some identifier
             | _ => None
             end in
           let message :=
             JS.or_else (opt_message options)
               "Published PR with canary version: %v" in
           (if negb (String.eqb message "false") && JS.truthy pr then
              prBody
                {| co_pr := JS.Number (JS.show pr);
                   co_message :=
                     Some (JS.replace_first "%v"
                             (if negb (JS.truthy newVersion) ||
                                 JS.includes (JS.show newVersion) nl
                              then JS.show newVersion
                              else backtick +:+ JS.show newVersion +:+
                                   backtick)
                             message);
                   co_context := Some "canary-version";
                   co_dryRun := false; co_delete := false;
                   co_edit := false |}
            else ret tt) ;;;
           log "success"
             ["Published canary version" +:+
              (if JS.truthy newVersion then ": " +:+ JS.show newVersion
               else "")] ;;;
           ret (Some newVersion)
       end) ;;
  match newVersion with
  | None => ret None
  | Some newVersion =>
      latestTag <-
        try_catch (call GetLatestTagInBranch latestTagInBranch)
          (fun _ => call GetFirstCommit firstCommit) ;;
      commitsInRelease <- call (GetCommits latestTag)
                            (fun w => commits w latestTag) ;;
      ret (Some (newVersion, commitsInRelease))
  end.

(** Create a canary (or test) version of the project. *)
Definition canary (options : CommandOptions) : M (option PublishInfo) :=
  a <- this ;;
  if negb (initialized a) then throw createErrorMessage
  else if negb (Hook.isUsed (Hook.canary (this_hooks a))) then
    log "error" [noCanaryPlugin] ;;;
    process_exit 1
  else
    w <- world ;;
    let pr := fst (canaryInfo (env w) options) in
    let build := snd (canaryInfo (env w) options) in
    head <- call (GetCommitsInRelease "HEAD^" None)
              (fun w => commitsInRelease w "HEAD^" None) ;;
    let labels := map labels head in
    let version :=
      JS.or_string
        (calculateSemVerBump w labels (this_semVerLabels a) (this_config a))
        SEMVER.patch in
    canaryVersion <-
      canarySuffix pr build (call (GetSha true) (fun w => sha w true)) ;;
    publishCanary options pr version canaryVersion.

(** Run the full workflow. *)
Definition shipit (options : CommandOptions) : M unit :=
  a <- this ;;
  if negb (initialized a) then throw createErrorMessage
  else
    call_series "beforeShipIt" NoArguments (Hook.beforeShipIt (this_hooks a))
      tt ;;;
    w <- world ;;
    let isPR := has (env_isPr (env w)) &&
                default false (value_of (env_isPr (env w))) in
    let isBaseBranch :=
      negb isPR && has (env_branch (env w)) &&
      bool_decide (value_of (env_branch (env w)) = Some (this_baseBranch a)) in
    publishInfo <-
      (if isBaseBranch then publishLatest options else canary options) ;;
    match publishInfo with
    | None => ret tt
    | Some (newVersion, commitsInRelease) =>
        a <- this ;;
        call_parallel "afterShipIt" (Shipped newVersion commitsInRelease)
          (Hook.afterShipIt (this_hooks a)) (newVersion, commitsInRelease)
    end.

(** Calculate the version bump for the current state of the repository. *)
Definition version (options : CommandOptions) : M unit :=
  bump <- getVersion (opt_from options) ;;
  emit (Printed bump).

(** Calculate the the changelog and commit it. *)
Definition changelog (options : CommandOptions) : M unit :=
  makeChangelog options.

(** Make a release to the git remote with the changes. *)
Definition runRelease (options : CommandOptions) : M unit :=
  makeRelease options ;;; ret tt.

(** ** A semver library for the scenarios

    The semver library is a collaborator of the engine ([World]). The
    scenarios below use this one: versions of the form [MAJOR.MINOR.PATCH]
    with an optional leading [v], the part of the grammar without
    pre-release and build identifiers. *)

Module CoreSemver.

Definition numeric (s : string) : option N :=
  match s with
  | EmptyString => None
  | String "0" EmptyString => Some 0%N
  | String "0" _ => None
  | _ => JS.Number s
  end.

Definition triple (s : string) : option (N * N * N) :=
  let s := match s with String "v" s' => s' | _ => s end in
  match JS.split_on "." s with
  | [a; b; c] =>
      match numeric a, numeric b, numeric c with
      | Some x, Some y, Some z => Some (x, y, z)
      | _, _, _ => None
      end
  | _ => None
  end.

Definition parse (s : string) : bool := defined (triple s).

Definition eq (a b : string) : bool :=
  match triple a, triple b with
  | Some (x, y, z), Some (x', y', z') =>
      ((x =? x') && (y =? y') && (z =? z'))%N
  | _, _ => false
  end.

Definition gt (a b : string) : bool :=
  match triple a, triple b with
  | Some (x, y, z), Some (x', y', z') =>
      ((x' <? x) || (x =? x') && ((y' <? y) || (y =? y') && (z' <? z)))%N
  | _, _ => false
  end.

Definition render (x y z : N) : string :=
  JS.String_of_N x +:+ "." +:+ JS.String_of_N y +:+ "." +:+ JS.String_of_N z.

Definition inc (v release : string) : option string :=
  match triple v with
  | Some (x, y, z) =>
      if String.eqb release "major" then Some (render (x + 1) 0 0)
      else if String.eqb release "minor" then Some (render x (y + 1) 0)
      else if String.eqb release "patch" then Some (render x y (z + 1))
      else None
  | None => None
  end.

End CoreSemver.

(** ** Scenarios: concrete worlds and states *)

Module Scenario.

(** A merged request, number 5, whose description closes two issues. *)
Definition feature : IExtendedCommit :=
  {| hash := "1a2b3c4"; subject := "Add the feature (#5)";
     labels := ["minor"]; pullRequest := Some 5%N |}.

Definition request5 : PullRequest :=
  {| pr_body := "Adds the feature." +:+ nl +:+ "Fixes #10, #11";
     pr_head_sha := "1a2b3c4" |}.

(** A commit that was pushed without a request, and closes two issues. *)
Definition hotfix : IExtendedCommit :=
  {| hash := "5e6f7a8"; subject := "Resolves #12 and fixes #10";
     labels := []; pullRequest := None |}.

(** A CI build of the base branch. *)
Definition ci : Env :=
  {| env_pr := None; env_build := Some (Some "7"); env_commit := None;
     env_branch := Some (Some "master"); env_isPr := Some (Some false);
     env_isCi := true |}.

(** A CI build of request 42. *)
Definition ci_pr : Env :=
  {| env_pr := Some (Some "42"); env_build := Some (Some "7");
     env_commit := None; env_branch := Some (Some "feature");
     env_isPr := Some (Some true); env_isCi := true |}.

(** A configuration that names the "released" plugin. *)
Definition autorc : IAutoConfig :=
  {| cfg_labels := ∅; cfg_plugins := Some [PluginName "released"];
     cfg_owner := Some "octo"; cfg_repo := Some "project";
     cfg_token := None; cfg_githubApi := None;
     cfg_githubGraphqlApi := None; cfg_baseBranch := None |}.

Definition options_of_release : ReleaseOptions :=
  {| noVersionPrefix := false; skipReleaseLabels := ["skip-release"];
     email := Some "bot@example.com"; name := Some "Release Bot" |}.

(** The collaborators of the scenarios: [e] is the CI environment,
    [failing] the calls that reject and [bump] what the version engine
    computes. *)
Definition collaborators (e : Env) (failing : Call -> option string)
    (bump : string) : World :=
  {| env := e; schedule := []; GH_TOKEN := Some "ghp_0123456789";
     pkg := false;
     fails := failing;
     loadedConfig := fun _ => autorc;
     getVersionMap := fun _ => [("minor", ["minor"]); ("patch", ["patch"])];
     releaseOptions := fun _ => options_of_release;
     loadPlugin := fun path options =>
       if String.eqb path "released"
       then Some (ReleasedLabelPlugin.plugin options) else None;
     filterNonPullRequest := "./plugins/filter-non-pull-request";
     latestRelease := "v1.0.0";
     sha := fun short => if short then "1a2b3c4" else "1a2b3c4d5e6f";
     latestTagInBranch := "v1.0.0";
     firstCommit := "0000000";
     published := fun _ version => "release " +:+ version;
     pullRequests := fun _ => request5;
     commitsForPR := fun _ => ["Add the feature"];
     commitsInRelease := fun _ _ => [feature];
     commits := fun _ => [feature];
     semverBump := fun _ _ => bump;
     releaseNotes := fun _ _ _ => "#### Enhancement";
     calculateSemVerBump := fun _ _ _ => bump;
     semver_parse := CoreSemver.parse;
     semver_eq := CoreSemver.eq;
     semver_gt := CoreSemver.gt;
     semver_inc := CoreSemver.inc |}.

Definition nothing_fails : Call -> option string := fun _ => None.

(** The same collaborators, with the callbacks resumed in the order
    [order]. *)
Definition resumed (order : list nat) (w : World) : World :=
  {| env := env w; schedule := order; GH_TOKEN := GH_TOKEN w;
     pkg := pkg w; fails := fails w; loadedConfig := loadedConfig w;
     getVersionMap := getVersionMap w; releaseOptions := releaseOptions w;
     loadPlugin := loadPlugin w;
     filterNonPullRequest := filterNonPullRequest w;
     latestRelease := latestRelease w; sha := sha w;
     latestTagInBranch := latestTagInBranch w;
     firstCommit := firstCommit w; published := published w;
     pullRequests := pullRequests w; commitsForPR := commitsForPR w;
     commitsInRelease := commitsInRelease w; commits := commits w;
     semverBump := semverBump w; releaseNotes := releaseNotes w;
     calculateSemVerBump := calculateSemVerBump w;
     semver_parse := semver_parse w; semver_eq := semver_eq w;
     semver_gt := semver_gt w; semver_inc := semver_inc w |}.

(** The same collaborators, where the commit of every request says that
    it fixes issue 10, as the description of request 5 does. *)
Definition closing_twice (w : World) : World :=
  {| env := env w; schedule := schedule w; GH_TOKEN := GH_TOKEN w;
     pkg := pkg w; fails := fails w; loadedConfig := loadedConfig w;
     getVersionMap := getVersionMap w; releaseOptions := releaseOptions w;
     loadPlugin := loadPlugin w;
     filterNonPullRequest := filterNonPullRequest w;
     latestRelease := latestRelease w; sha := sha w;
     latestTagInBranch := latestTagInBranch w;
     firstCommit := firstCommit w; published := published w;
     pullRequests := pullRequests w;
     commitsForPR := fun _ => ["Add the feature. Fixes #10"];
     commitsInRelease := commitsInRelease w; commits := commits w;
     semverBump := semverBump w; releaseNotes := releaseNotes w;
     calculateSemVerBump := calculateSemVerBump w;
     semver_parse := semver_parse w; semver_eq := semver_eq w;
     semver_gt := semver_gt w; semver_inc := semver_inc w |}.

(** A configuration that names a repository and no owner, and a plugin
    that knows the owner of the repository and a token. *)
Definition repo_only : IAutoConfig :=
  {| cfg_labels := ∅; cfg_plugins := Some [PluginName "git-info"];
     cfg_owner := None; cfg_repo := Some "project";
     cfg_token := None; cfg_githubApi := None;
     cfg_githubGraphqlApi := None; cfg_baseBranch := None |}.

Definition git_info : IPlugin :=
  Build_IPlugin "git-info"
    (Hook.tap_getRepository "git-info"
       (fun _ => Answer {| repo_owner := Some (Some "octo");
                           repo_repo := None;
                           repo_token := Some "ghp_9876543210" |})).

(** The same collaborators, for a project with that configuration. *)
Definition with_git_info (w : World) : World :=
  {| env := env w; schedule := schedule w; GH_TOKEN := GH_TOKEN w;
     pkg := pkg w; fails := fails w;
     loadedConfig := fun _ => repo_only;
     getVersionMap := getVersionMap w; releaseOptions := releaseOptions w;
     loadPlugin := fun path _ =>
       if String.eqb path "git-info" then Some git_info else None;
     filterNonPullRequest := filterNonPullRequest w;
     latestRelease := latestRelease w; sha := sha w;
     latestTagInBranch := latestTagInBranch w;
     firstCommit := firstCommit w; published := published w;
     pullRequests := pullRequests w; commitsForPR := commitsForPR w;
     commitsInRelease := commitsInRelease w; commits := commits w;
     semverBump := semverBump w; releaseNotes := releaseNotes w;
     calculateSemVerBump := calculateSemVerBump w;
     semver_parse := semver_parse w; semver_eq := semver_eq w;
     semver_gt := semver_gt w; semver_inc := semver_inc w |}.

(** An engine that has loaded a configuration. *)
Definition loaded (options : ApiOptions) (hooks : Hook.IAutoHooks) : Auto :=
  {| this_hooks := hooks; this_options := options;
     this_baseBranch := "master"; this_config := Some autorc;
     this_release := Some options_of_release;
     this_git :=
       Some {| git_owner := Some "octo"; git_repo := Some "project";
               git_token := "ghp_0123456789";
               git_baseUrl := "https://api.github.com";
               git_graphqlBaseUrl := "https://api.github.com" |};
     this_labels := Some ∅;
     this_semVerLabels :=
       Some [("minor", ["minor"]); ("patch", ["patch"])];
     this_versionBump := None |}.

Definition no_api_options : ApiOptions :=
  {| api_baseBranch := None; api_dryRun := None |}.

Definition start (a : Auto) : St := {| auto := a; platform := ∅ |}.

(** The hooks after the "Released Label" plugin has been applied. *)
Definition released_hooks : Hook.IAutoHooks :=
  ReleasedLabelPlugin.apply ReleasedLabelPlugin.defaultOptions
    (this_hooks (new_Auto no_api_options)).

(** A publisher whose canary release fails, and one that publishes. *)
Definition npm_fails : Hook.IAutoHooks :=
  Hook.tap_canary "npm" (fun _ => Answer (Failed "No packages to publish"))
    released_hooks.

Definition npm_publishes : Hook.IAutoHooks :=
  Hook.tap_canary "npm"
    (fun a => Answer (Published ("1.0.1-canary" +:+ snd a)))
    released_hooks.

(** A plugin whose previous version is not a semantic version. *)
Definition nightly_hooks : Hook.IAutoHooks :=
  Hook.tap_getPreviousVersion "nightly" (fun _ => Answer "nightly")
    released_hooks.

(** A publisher that knows the author of the package, on an engine
    whose release options give an email and no name. *)
Definition npm_author : Hook.IAutoHooks :=
  Hook.tap_getAuthor "npm"
    (fun _ => Answer {| author_email := Some "me@example.com";
                        author_name := Some "Me" |})
    released_hooks.

Definition email_only : ReleaseOptions :=
  {| noVersionPrefix := false; skipReleaseLabels := ["skip-release"];
     email := Some "bot@example.com"; name := None |}.

(** The options of a dry run started from the command line. *)
Definition cli_dry : ApiOptions :=
  {| api_baseBranch := None; api_dryRun := Some true |}.

(** No git identity is configured: reading it fails. *)
Definition no_git_identity : Call -> option string :=
  fun c =>
    match c with
    | Exec _ [_; _] => Some "Running command 'git' failed"
    | _ => None
    end.

(** What [afterRelease] is called with after a canary release of the two
    commits. *)
Definition canary_released : AfterRelease :=
  {| ar_lastRelease := "v1.0.0"; ar_newVersion := Some "1.0.1-canary.5.7";
     ar_commits := [feature; hotfix]; ar_releaseNotes := "#### Enhancement";
     ar_response := None |}.

(** An email is configured, a name is not: reading the name fails. *)
Definition no_git_name : Call -> option string :=
  fun c =>
    match c with
    | Exec _ [_; key] =>
        if String.eqb key "user.name"
        then Some "Running command 'git' failed" else None
    | _ => None
    end.

Definition dry : CommandOptions :=
  {| dryRun := true; opt_pr := None; opt_build := None;
     opt_message := None; opt_from := None; opt_to := None;
     opt_useVersion := None |}.

End Scenario.

(** ** Vocabulary of the properties *)

(** The answer of a bail hook, as a function of its taps: the first answer
    that is not [undefined]. *)
Fixpoint first_answer {A R} (h : Hook.taps (A -> Bail R)) (a : A) : Bail R :=
  match h with
  | [] => NoOpinion
  | (_, f) :: h' =>
      match f a with
      | NoOpinion => first_answer h' a
      | r => r
      end
  end.

(** The owners of the handlers that a bail hook runs. *)
Fixpoint consulted {A R} (h : Hook.taps (A -> Bail R)) (a : A) : list string :=
  match h with
  | [] => []
  | (owner, f) :: h' =>
      owner :: match f a with
               | NoOpinion => consulted h' a
               | _ => []
               end
  end.

Definition settle {R} (b : Bail R) : Outcome (option R) :=
  match b with
  | NoOpinion => Returns None
  | Answer r => Returns (Some r)
  | Rejects e => Throws e
  end.

(** The canary suffix as the specification words it (section 4.3): a
    request number or build id is known when it is given and not empty. *)
Definition buildCanarySuffix (requestNumber buildId : option string)
    (shortSha : string) : string :=
  match JS.truthy requestNumber, JS.truthy buildId with
  | true, true => "." +:+ JS.show requestNumber +:+ "." +:+ JS.show buildId
  | true, false => "." +:+ JS.show requestNumber +:+ "." +:+ shortSha
  | false, true => "." +:+ JS.show buildId +:+ "." +:+ shortSha
  | false, false => "." +:+ shortSha
  end.

Definition is_fired (hook : string) (e : Event) : bool :=
  match e with
  | Fired h _ => String.eqb h hook
  | _ => false
  end.

Definition is_ran (hook owner : string) (e : Event) : bool :=
  match e with
  | Ran h o => String.eqb h hook && String.eqb o owner
  | _ => false
  end.

(** The request or issue that a call on the hosting client writes to. *)
Definition written (e : Event) : option N :=
  match e with
  | Called (CreateComment _ n _) | Called (EditComment _ n _)
  | Called (DeleteComment n _) | Called (AddToPrBody _ n _)
  | Called (AddLabelToPr n _) | Called (LockIssue n) => Some n
  | _ => None
  end.

Definition labels_or_locks (e : Event) : bool :=
  match e with
  | Called (AddLabelToPr _ _) | Called (LockIssue _) => true
  | _ => false
  end.

Definition is_git_commit (command : string) (args : list string) : bool :=
  String.eqb command "git" &&
  match args with
  | sub :: _ => String.eqb sub "commit"
  | [] => false
  end.

(** [git config <key> <value>] writes the configuration; with the key
    alone it reads it. *)
Definition is_git_config_write (command : string) (args : list string)
    : bool :=
  String.eqb command "git" &&
  match args with
  | [sub; _; _] => String.eqb sub "config"
  | _ => false
  end.

(** The effects that a dry run holds back: the four publishing hook points
    and the canary hook, the changelog and its commit, and the release on
    the hosting platform. *)
Definition held_back (e : Event) : bool :=
  match e with
  | Fired h _ =>
      existsb (String.eqb h)
        ["version"; "afterVersion"; "publish"; "afterPublish"; "canary"]
  | Called (AddToChangelog _ _ _) => true
  | Called (Publish _ _) => true
  | Called (Exec command args) => is_git_commit command args
  | _ => false
  end.

(** An event that changes something outside of the engine: the hosting
    platform, the changelog, the repository or its configuration. *)
Definition mutating (e : Event) : bool :=
  held_back e ||
  match e with
  | Called (Exec command args) => is_git_config_write command args
  | Called (CreateComment _ _ _) | Called (EditComment _ _ _)
  | Called (DeleteComment _ _) | Called (AddToPrBody _ _ _)
  | Called (AddLabelToPr _ _) | Called (LockIssue _) => true
  | _ => false
  end.

(** Every event of every run of [m] satisfies [P]. *)
Definition emits {A} (P : Event -> Prop) (m : M A) : Prop :=
  forall w st, Forall P (events (m w st)).

(** Every run of [m] keeps the invariant [I] of the label store. *)
Definition keeps {A} (I : Platform -> Prop) (m : M A) : Prop :=
  forall w st, I (platform st) -> I (platform (final (m w st))).


Definition is_publish (e : Event) : bool :=
  match e with
  | Called (Publish _ _) => true
  | _ => false
  end.

(** What the specification says of a release whose version is the last
    published one: no release is created, and [afterRelease] is fired. *)
Definition skips_and_notifies (r : Run (option string)) : Prop :=
  existsb is_publish (events r) = false /\
  existsb (is_fired "afterRelease") (events r) = true.

(** A run that comes after the events [evs]. *)
Definition prepend {A} (evs : list Event) (r : Run A) : Run A :=
  Build_Run (evs ++ events r) (final r) (outcome r).

(** What the hook point [hook] is first called with. *)
Definition payload_of (hook : string) (evs : list Event) : option Payload :=
  match List.find (is_fired hook) evs with
  | Some (Fired _ payload) => Some payload
  | _ => None
  end.

(** The two reports of a published canary: the update of the body of the
    request and the success line. *)
Definition reports_canary (e : Event) : bool :=
  match e with
  | Called (AddToPrBody _ _ _) => true
  | Logged level _ => String.eqb level "success"
  | _ => false
  end.

(** The bump that the version engine computes for [canary]. *)
Definition canaryBump (w : World) (a : Auto) : string :=
  calculateSemVerBump w (map labels (commitsInRelease w "HEAD^" None))
    (this_semVerLabels a) (this_config a).

(** The call for the short sha, when [canary] needs it. *)
Definition sha_events (pr build : option string) : list Event :=
  if JS.truthy pr && JS.truthy build then [] else [Called (GetSha true)].

(** An event that a dry run may leave. *)
Definition quiet (e : Event) : Prop := held_back e = false.

(** A line that reports the version that would be published. *)
Definition reports_increment (e : Event) : bool :=
  match e with
  | Logged _ [line] => String.prefix "Published version would be: " line
  | _ => false
  end.

(** The line that a dry run of the trunk path ends with. *)
Definition wouldBePublished (w : World) (current : option string)
    (version : string) : Event :=
  Logged "warn"
    ["Published version would be: " +:+
     default "null" (semver_inc w (JS.show current) version)].

(** The messages that [addReleased] searches for closed issues: the subject
    of the commit and, when the commit comes from a request, the lines of
    the description of the request and the messages of its commits. *)
Definition messages_of (w : World) (commit : IExtendedCommit) : list string :=
  match pullRequest commit with
  | Some number =>
      [subject commit] ++
      JS.split_on "010"%char (pr_body (pullRequests w number)) ++
      commitsForPR w number
  | None => [subject commit]
  end.

(** The events of a release comment posted on a request or issue. *)
Definition announcement (options : IReleasedLabelPluginOptions)
    (version : string) (n : N) (isIssue : bool) : list Event :=
  [Called (CreateComment
             (ReleasedLabelPlugin.createReleasedComment options isIssue version)
             n "released");
   Logged "success" ["Commented on PR #" +:+ JS.String_of_N n]].

(** What the announcement of one released commit consists of: the comment
    on its request, the two reads of the request, and the comment on every
    issue that its messages close. *)
Definition announcements (options : IReleasedLabelPluginOptions)
    (version : string) (w : World) (commit : IExtendedCommit) : list Event :=
  match pullRequest commit with
  | Some number =>
      announcement options version number false ++
      [Called (GetPullRequest number); Called (GetCommitsForPR number)]
  | None => []
  end ++
  concat (map (fun issue => announcement options version issue true)
            (ReleasedLabelPlugin.issues_of (messages_of w commit))).

(** The commit carries one of the labels that skip the release. *)
Definition carries_skip_label (release : ReleaseOptions)
    (commit : IExtendedCommit) : bool :=
  existsb (fun label => existsb (String.eqb label) (skipReleaseLabels release))
    (labels commit).

(** The targets of the announcement of a commit are requests and issues:
    none has the number 0. *)
Definition targets_numbered (w : World) (commit : IExtendedCommit) : Prop :=
  pullRequest commit <> Some 0%N /\
  Forall (fun n => n <> 0%N)
    (ReleasedLabelPlugin.issues_of (messages_of w commit)).

(** The state after [k] calls of [m] in a row, however each call ends. *)
Definition after_calls {A} (k : nat) (m : M A) (w : World) (st : St) : St :=
  Nat.iter k (fun s => final (m w s)) st.

(** No request or issue carries a label twice. *)
Definition no_duplicates (p : Platform) : Prop :=
  forall n, NoDup (labels_of p n).

(** The reads and the additions of labels among the events of a run. *)
Definition label_calls (evs : list Event) : list Event :=
  List.filter (fun e => match e with
                   | Called (GetLabels _) | Called (AddLabelToPr _ _) => true
                   | _ => false
                   end) evs.

(** An event that neither adds a label nor locks an issue. *)
Definition unlabelled (e : Event) : Prop := labels_or_locks e = false.

(** An event that reaches outside of the engine: a call on a collaborator
    (the commit log, the hosting platform, a child process) or on a hook
    point. *)
Definition reaches_out (e : Event) : bool :=
  match e with
  | Called _ | Fired _ _ | Ran _ _ => true
  | _ => false
  end.

(** An event that is not the run of a handler of [modifyConfig]. *)
Definition other_hook (e : Event) : Prop :=
  match e with
  | Ran hook _ => hook <> "modifyConfig"
  | _ => True
  end.

(** The texts that the keyword expression matches in a list of messages. *)
Definition keyword_matches (messages : list string) : list string :=
  concat (omap id (map (Regex.match_global ReleasedLabelPlugin.closeIssue)
                     messages)).


(** ** Vocabulary of the properties of callbacks *)

(** [Q] holds of every element of a list. *)
Definition each {A} (Q : A -> Prop) : list A -> Prop :=
  fix each (l : list A) : Prop :=
    match l with
    | [] => True
    | x :: l' => Q x /\ each l'
    end.

(** A property of a stretch of a run: of the state before it, of its
    events and of the state after it. *)
Definition Stretch : Type := St -> list Event -> St -> Prop.

(** A property of stretches that holds of the empty stretch and of two
    stretches put end to end. *)
Record composes (R : Stretch) : Prop := {
  stretch_nil : forall st, R st [] st;
  stretch_app :
    forall st evs st' evs' st'',
      R st evs st' -> R st' evs' st'' -> R st (evs ++ evs') st''
}.

(** Every run of [m] is a stretch of [R]. *)
Definition obeys {A} (R : Stretch) (m : M A) : Prop :=
  forall w st, R st (events (m w st)) (final (m w st)).

(** Every piece of the callback [t] obeys [R]. *)
Fixpoint task_obeys (R : Stretch) (t : Task) : Prop :=
  match t with
  | Return => True
  | Do m k => obeys R m /\ forall x, task_obeys R (k x)
  | Await c k => obeys R c /\ forall x, task_obeys R (k x)
  | All callbacks k => each (task_obeys R) callbacks /\ task_obeys R k
  end.

(** [Q] holds of the thread that a piece of a callback leaves. *)
Definition leaves (Q : Thread -> Prop) (continue : M Thread) : Prop :=
  forall w st,
    match outcome (continue w st) with
    | Returns th => Q th
    | _ => True
    end.

(** Whatever a started callback still does obeys [R]. *)
Fixpoint thread_obeys (R : Stretch) (th : Thread) : Prop :=
  match th with
  | Settled _ => True
  | Suspended continue =>
      obeys R continue /\ leaves (thread_obeys R) continue
  | Waiting _ children continue =>
      each (thread_obeys R) children /\
      obeys R continue /\ leaves (thread_obeys R) continue
  end.

(** The stretches whose events all satisfy [P], and the stretches that keep
    the invariant [I] of the label store. *)
Definition emitting (P : Event -> Prop) : Stretch :=
  fun _ evs _ => Forall P evs.

Definition keeping (I : Platform -> Prop) : Stretch :=
  fun st _ st' => I (platform st) -> I (platform st').

(** The stretches whose two ends are related by [T]. *)
Definition relating (T : St -> St -> Prop) : Stretch :=
  fun st _ st' => T st st'.

(** The state [st'] gives the same previous version as [st]: the release
    helper is the same, and the taps of [getPreviousVersion] are those of
    [st], followed by copies of the tap that [getCurrentVersion] adds. *)
Definition same_previous_version (st st' : St) : Prop :=
  this_release (auto st') = this_release (auto st) /\
  exists k,
    Hook.getPreviousVersion (this_hooks (auto st')) =
    Hook.getPreviousVersion (this_hooks (auto st)) ++
    repeat ("None", noPreviousVersion) k.

(** A callback that is calm in the state [st]: each of its pieces, run from
    [st], returns and leaves [st] as it is. *)
Fixpoint task_calm (w : World) (st : St) (t : Task) : Prop :=
  match t with
  | Return => True
  | Do m k =>
      final (m w st) = st /\
      match outcome (m w st) with
      | Returns x => task_calm w st (k x)
      | _ => False
      end
  | Await c k =>
      final (c w st) = st /\
      match outcome (c w st) with
      | Returns x => task_calm w st (k x)
      | _ => False
      end
  | All callbacks k => each (task_calm w st) callbacks /\ task_calm w st k
  end.

(** The events of a callback in the order of the program text: each
    callback of [Promise.all] to its end before the next one starts. *)
Fixpoint in_order (w : World) (st : St) (t : Task) : list Event :=
  match t with
  | Return => []
  | Do m k =>
      events (m w st) ++
      match outcome (m w st) with
      | Returns x => in_order w st (k x)
      | _ => []
      end
  | Await c k =>
      events (c w st) ++
      match outcome (c w st) with
      | Returns x => in_order w st (k x)
      | _ => []
      end
  | All callbacks k =>
      concat (map (in_order w st) callbacks) ++ in_order w st k
  end.

(** The same for a callback that has been started. *)
Fixpoint thread_calm (w : World) (st : St) (th : Thread) : Prop :=
  match th with
  | Settled rejection => rejection = None
  | Suspended continue =>
      final (continue w st) = st /\
      match outcome (continue w st) with
      | Returns th' => thread_calm w st th'
      | _ => False
      end
  | Waiting rejected children continue =>
      rejected = None /\
      each (thread_calm w st) children /\
      final (continue w st) = st /\
      match outcome (continue w st) with
      | Returns th' => thread_calm w st th'
      | _ => False
      end
  end.

(** The events that a started callback still leaves, when it is run to its
    end. *)
Fixpoint remaining (w : World) (st : St) (th : Thread) : list Event :=
  match th with
  | Settled _ => []
  | Suspended continue =>
      events (continue w st) ++
      match outcome (continue w st) with
      | Returns th' => remaining w st th'
      | _ => []
      end
  | Waiting _ children continue =>
      concat (map (remaining w st) children) ++
      events (continue w st) ++
      match outcome (continue w st) with
      | Returns th' => remaining w st th'
      | _ => []
      end
  end.


(** ** Vocabulary of the further properties *)

(** A comment is created or deleted on the hosting platform. *)
Definition creates_or_deletes (e : Event) : bool :=
  match e with
  | Called (CreateComment _ _ _) | Called (DeleteComment _ _) => true
  | _ => false
  end.

Definition updates_body (e : Event) : bool :=
  match e with
  | Called (AddToPrBody _ _ _) => true
  | _ => false
  end.

Definition writes_git_config (e : Event) : bool :=
  match e with
  | Called (Exec command args) => is_git_config_write command args
  | _ => false
  end.

(** The email or the name that [setGitUser] writes: the one of the release
    options, or when the options give none, the one of the author that the
    [getAuthor] hook answers. *)
Definition identity_of (own : option string) (answer : Bail IAuthorOptions)
    (theirs : IAuthorOptions -> option string) : option string :=
  if JS.truthy own then own
  else
    match answer with
    | Answer author => theirs author
    | _ => own
    end.

(** The write of [value] under [key] of the git configuration, when there
    is a value. *)
Definition written_identity (key : string) (value : option string)
    : list Event :=
  if JS.truthy value
  then [Called (Exec "git" ["config"; key; dq +:+ JS.show value +:+ dq])]
  else [].



(** The version that [getCurrentVersion] keeps: the last release when it is
    a later semantic version than the previous version, the previous
    version otherwise. *)
Definition later_version (w : World) (lastRelease previous : string)
    : string :=
  if semver_parse w lastRelease && semver_parse w previous &&
     semver_gt w lastRelease previous
  then lastRelease
  else previous.

(** In [evs], every event of [Q] comes after an event of [P]. *)
Definition preceded_by (P Q : Event -> bool) (evs : list Event) : Prop :=
  forall pre e post,
    evs = pre ++ e :: post -> Q e = true -> existsb P pre = true.

Definition writes_changelog (e : Event) : bool :=
  match e with
  | Called (AddToChangelog _ _ _) => true
  | _ => false
  end.

Definition commits_changelog (e : Event) : bool :=
  match e with
  | Called (Exec command args) => is_git_commit command args
  | _ => false
  end.

Definition unpublished (e : Event) : Prop := is_publish e = false.

(** The steps of the trunk path that come before the release, in the order
    of the source. *)
Definition before_the_release : list (Event -> bool) :=
  [writes_changelog; commits_changelog; is_fired "version";
   is_fired "afterVersion"; is_fired "publish"; is_fired "afterPublish"].

(** What the "released" plugin may do: log, read the labels of a request
    or issue, read a request and its commits, write a new comment in its
    own context, add its own label, and lock an issue when the [lockIssues]
    option is set. Nothing else: no hook point, no child process, no other
    call. *)
Definition plugin_does (options : IReleasedLabelPluginOptions) (e : Event)
    : Prop :=
  match e with
  | Logged _ _ => True
  | Called (GetLabels _) | Called (GetPullRequest _)
  | Called (GetCommitsForPR _) => True
  | Called (CreateComment _ _ context) => context = "released"
  | Called (AddLabelToPr _ l) => l = label options
  | Called (LockIssue _) => lockIssues options = true
  | _ => False
  end.

(** A child process: [execPromise(command, args)]. *)
Definition runs_command (e : Event) : bool :=
  match e with
  | Called (Exec _ _) => true
  | _ => false
  end.

(** ** The status of [prCheck] *)

(** The message of the status that [prCheck] posts. *)
Record StatusMessage : Type := {
  msg_description : string;
  msg_state : string
}.

(** Lines 398 to 438 of [prCheck]: the status that the labels of a request
    give. [labels] is what [git.getLabels] answered, [labelValues] is
    [[...this.semVerLabels.values()]] and [release] holds the options of
    the release helper. The error thrown at line 413 is caught at line 434
    and becomes the description of a status in the state [error]. The log
    line and the calls around these lines are not part of the function. *)
Definition statusOfLabels (labels : list string)
    (labelValues : list (list string)) (release : ReleaseOptions)
    : StatusMessage :=
  let releaseTag := List.find (fun l => String.eqb l "release") labels in
  let skipReleaseTag :=
    List.find (fun l => existsb (String.eqb l) (skipReleaseLabels release))
      labels in
  let semverTag :=
    List.find
      (fun l =>
         existsb (fun labelValue => existsb (String.eqb l) labelValue)
           labelValues &&
         negb (existsb (String.eqb l) (skipReleaseLabels release)) &&
         negb (String.eqb l "release"))
      labels in
  if negb (defined semverTag) && negb (JS.truthy skipReleaseTag)
  then {| msg_description := "No semver label!"; msg_state := "error" |}
  else
    let description :=
      if JS.truthy skipReleaseTag then "PR will not create a release"
      else if JS.truthy releaseTag
      then "PR will create release once merged - " +:+ JS.show semverTag
      else "CI - " +:+ JS.show semverTag in
    {| msg_description := description; msg_state := "success" |}.

(** ** Running the monad *)

Lemma run_eta {A} (r : Run A) : Build_Run (events r) (final r) (outcome r) = r.
Proof. destruct r; reflexivity. Qed.

Lemma prepend_nil {A} (r : Run A) : prepend [] r = r.
Proof. apply run_eta. Qed.

Lemma prepend_prepend {A} (xs ys : list Event) (r : Run A) :
  prepend xs (prepend ys r) = prepend (xs ++ ys) r.
Proof. unfold prepend; cbn. rewrite app_assoc. reflexivity. Qed.

Lemma bind_ret {A B} (a : A) (f : A -> M B) w st :
  bind (ret a) f w st = f a w st.
Proof. unfold bind, ret; cbn. apply run_eta. Qed.

Lemma bind_this {B} (f : Auto -> M B) w st :
  bind this f w st = f (auto st) w st.
Proof. unfold bind, this; cbn. apply run_eta. Qed.

Lemma bind_world {B} (f : World -> M B) w st :
  bind world f w st = f w w st.
Proof. unfold bind, world; cbn. apply run_eta. Qed.

Lemma bind_set_this {B} (a : Auto) (f : unit -> M B) w st :
  bind (set_this a) f w st = f tt w {| auto := a; platform := platform st |}.
Proof. unfold bind, set_this; cbn. apply run_eta. Qed.

Lemma bind_emit {B} (e : Event) (f : unit -> M B) w st :
  bind (emit e) f w st = prepend [e] (f tt w st).
Proof. reflexivity. Qed.

Lemma bind_log {B} (level : string) (args : list string) (f : unit -> M B)
    w st :
  bind (log level args) f w st = prepend [Logged level args] (f tt w st).
Proof. reflexivity. Qed.

Lemma bind_throw {A B} (e : string) (f : A -> M B) w st :
  bind (throw e) f w st = Build_Run [] st (Throws e).
Proof. reflexivity. Qed.

Lemma bind_exit {A B} (c : N) (f : A -> M B) w st :
  bind (process_exit c) f w st = Build_Run [] st (Exits c).
Proof. reflexivity. Qed.

Lemma bind_assoc {A B C} (m : M A) (f : A -> M B) (g : B -> M C) w st :
  bind (bind m f) g w st = bind m (fun x => bind (f x) g) w st.
Proof.
  unfold bind. destruct (m w st) as [evs st1 [a|e|c]]; cbn; try reflexivity.
  destruct (f a w st1) as [evs' st2 [b|e|c]]; cbn; try reflexivity.
  rewrite app_assoc. reflexivity.
Qed.

Lemma bind_call {A B} (c : Call) (answer : World -> A) (f : A -> M B) w st :
  bind (call c answer) f w st =
  match fails w c with
  | Some e => Build_Run [Called c] st (Throws e)
  | None => prepend [Called c] (f (answer w) w st)
  end.
Proof. unfold bind, call; cbn. destruct (fails w c); reflexivity. Qed.

Lemma call_resolves {A} (c : Call) (answer : World -> A) w st :
  fails w c = None ->
  call c answer w st = Build_Run [Called c] st (Returns (answer w)).
Proof. intros H. unfold call. rewrite H. reflexivity. Qed.

(** A bail hook is a function of its taps: it runs the handlers up to the
    first opinion and leaves the state alone. *)
Lemma bail_run {A R} (hook : string) (h : Hook.taps (A -> Bail R)) (a : A)
    w st :
  bail hook h a w st =
  Build_Run (map (Ran hook) (consulted h a)) st (settle (first_answer h a)).
Proof.
  induction h as [|[owner f] h IH]; [reflexivity|].
  cbn [bail consulted first_answer]. unfold bind at 1.
  cbn [emit outcome events final].
  destruct (f a) as [|r|e]; cbn [settle map app]; [rewrite IH|..];
    reflexivity.
Qed.

Lemma bind_bail {A R B} (hook : string) (h : Hook.taps (A -> Bail R)) (a : A)
    (f : option R -> M B) w st :
  bind (bail hook h a) f w st =
  match first_answer h a with
  | NoOpinion => prepend (map (Ran hook) (consulted h a)) (f None w st)
  | Answer r => prepend (map (Ran hook) (consulted h a)) (f (Some r) w st)
  | Rejects e => Build_Run (map (Ran hook) (consulted h a)) st (Throws e)
  end.
Proof.
  unfold bind. rewrite bail_run. cbn [outcome events final].
  destruct (first_answer h a); reflexivity.
Qed.

Lemma existsb_Ran (P : Event -> bool) (hook : string) (owners : list string) :
  (forall owner, P (Ran hook owner) = false) ->
  existsb P (map (Ran hook) owners) = false.
Proof.
  intros H. induction owners as [|o owners IH]; [reflexivity|].
  cbn. rewrite H, IH. reflexivity.
Qed.

Lemma bind_known {A B} (m : M A) (f : A -> M B) w st evs st' a :
  m w st = Build_Run evs st' (Returns a) ->
  bind m f w st = prepend evs (f a w st').
Proof. intros H. unfold bind. rewrite H. reflexivity. Qed.

(** One step of a run whose head is a primitive of the monad. *)
Ltac run_step :=
  first
    [ rewrite bind_assoc | rewrite bind_ret | rewrite bind_this
    | rewrite bind_world | rewrite bind_set_this | rewrite bind_emit
    | rewrite bind_log | rewrite bind_throw | rewrite bind_exit
    | rewrite prepend_prepend
    | progress cbv beta zeta ].

Ltac run := repeat run_step.

(** ** Callbacks *)

Lemma each_Forall {A} (Q : A -> Prop) (l : list A) : each Q l <-> Forall Q l.
Proof.
  induction l as [|x l IH]; cbn [each].
  - split; constructor.
  - rewrite IH. split.
    + intros [Hx Hl]. constructor; assumption.
    + intros H. inversion H; subst. split; assumption.
Qed.

Lemma each_map {A B} (Q : B -> Prop) (f : A -> B) (l : list A) :
  each Q (map f l) <-> each (fun x => Q (f x)) l.
Proof.
  induction l as [|x l IH]; cbn [each map]; [reflexivity|].
  rewrite IH. reflexivity.
Qed.

Lemma each_all {A} (Q : A -> Prop) (l : list A) :
  (forall x, Q x) -> each Q l.
Proof. intros H. induction l; cbn [each]; auto. Qed.

Lemma each_In {A} (Q : A -> Prop) (l : list A) :
  each Q l <-> forall x, In x l -> Q x.
Proof. rewrite each_Forall. apply List.Forall_forall. Qed.

(** Induction on a callback, through the callbacks of its own. *)
Lemma Task_induction (Q : Task -> Prop) :
  Q Return ->
  (forall X (m : M X) k, (forall x, Q (k x)) -> Q (Do m k)) ->
  (forall X (c : M X) k, (forall x, Q (k x)) -> Q (Await c k)) ->
  (forall callbacks k, each Q callbacks -> Q k -> Q (All callbacks k)) ->
  forall t, Q t.
Proof.
  intros HReturn HDo HAwait HAll. fix IH 1.
  intros [|X m k|X c k|callbacks k].
  - exact HReturn.
  - apply HDo. intros x. apply IH.
  - apply HAwait. intros x. apply IH.
  - apply HAll; [|apply IH].
    induction callbacks as [|t ts IHts]; cbn [each]; [exact I|].
    split; [apply IH|exact IHts].
Qed.

(** Induction on a started callback. *)
Lemma Thread_induction (Q : Thread -> Prop) :
  (forall rejection, Q (Settled rejection)) ->
  (forall continue, leaves Q continue -> Q (Suspended continue)) ->
  (forall rejected children continue,
     each Q children -> leaves Q continue ->
     Q (Waiting rejected children continue)) ->
  forall th, Q th.
Proof.
  intros HSettled HSuspended HWaiting. fix IH 1.
  assert (Hleaves : forall continue : M Thread, leaves Q continue).
  { intros continue w st. destruct (continue w st) as [evs st' [th'| |]];
      cbn [outcome]; [apply IH|exact I..]. }
  intros [rejection|continue|rejected children continue].
  - apply HSettled.
  - apply HSuspended, Hleaves.
  - apply HWaiting; [|apply Hleaves].
    induction children as [|th ths IHths]; cbn [each]; [exact I|].
    split; [apply IH|exact IHths].
Qed.

Lemma bind_ext {A B} (m : M A) (f g : A -> M B) w st :
  (forall a st', f a w st' = g a w st') -> bind m f w st = bind m g w st.
Proof.
  intros H. unfold bind. destruct (outcome (m w st)); [|reflexivity..].
  rewrite H. reflexivity.
Qed.

Lemma bind_cong {A B} (m m' : M A) (f g : A -> M B) w st :
  m w st = m' w st -> (forall a st', f a w st' = g a w st') ->
  bind m f w st = bind m' g w st.
Proof.
  intros Hm H. unfold bind. rewrite Hm.
  destruct (outcome (m' w st)); [|reflexivity..].
  rewrite H. reflexivity.
Qed.

(** [await t; k] on its own is [t] and then [k]. *)
Lemma alone_and_then (t k : Task) w st :
  alone (and_then t k) w st = bind (alone t) (fun _ => alone k) w st.
Proof.
  revert st. induction t as [|X m f IH|X c f IH|callbacks f _ IH]
    using Task_induction; intros st; cbn [and_then alone].
  - rewrite bind_ret. reflexivity.
  - rewrite bind_assoc. apply bind_ext. intros x st'. apply IH.
  - rewrite bind_assoc. apply bind_ext. intros x st'. apply IH.
  - rewrite bind_assoc. apply bind_ext. intros _ st'. apply IH.
Qed.

Lemma alone_atomic (m : M unit) w st : alone (atomic m) w st = m w st.
Proof.
  unfold atomic. cbn [alone]. unfold bind, ret.
  destruct (m w st) as [evs st' [[]|e|c]]; cbn [outcome events final];
    rewrite ?app_nil_r; reflexivity.
Qed.

(** *** Properties that compose hold of callbacks however they are
    scheduled *)

Section Obeys.

Variable R : Stretch.
Hypothesis HR : composes R.

Lemma obeys_ret {A} (a : A) : obeys R (ret a).
Proof. intros w st. apply (stretch_nil R HR). Qed.

Lemma obeys_throw {A} (e : string) : obeys R (@throw A e).
Proof. intros w st. apply (stretch_nil R HR). Qed.

Lemma obeys_world : obeys R world.
Proof. intros w st. apply (stretch_nil R HR). Qed.

Lemma obeys_bind {A B} (m : M A) (f : A -> M B) :
  obeys R m -> (forall a, obeys R (f a)) -> obeys R (bind m f).
Proof.
  intros Hm Hf w st. unfold bind. specialize (Hm w st).
  destruct (outcome (m w st)); cbn [events final]; try exact Hm.
  eapply (stretch_app R HR); [exact Hm|apply Hf].
Qed.

Lemma obeys_bind_with {A B} (Q : A -> Prop) (m : M A) (f : A -> M B) :
  obeys R m ->
  (forall w st, match outcome (m w st) with
                | Returns a => Q a
                | _ => True
                end) ->
  (forall a, Q a -> obeys R (f a)) -> obeys R (bind m f).
Proof.
  intros Hm HQ Hf w st. unfold bind. specialize (Hm w st).
  specialize (HQ w st).
  destruct (outcome (m w st)); cbn [events final]; try exact Hm.
  eapply (stretch_app R HR); [exact Hm|apply Hf, HQ].
Qed.

Lemma obeys_as_rejection (continue : M Thread) :
  obeys R continue -> obeys R (as_rejection continue).
Proof.
  intros H w st. unfold as_rejection. specialize (H w st).
  destruct (continue w st) as [evs st' [th| |]];
    cbn [outcome events final] in *; exact H.
Qed.

Lemma leaves_as_rejection (continue : M Thread) :
  leaves (thread_obeys R) continue ->
  leaves (thread_obeys R) (as_rejection continue).
Proof.
  intros H w st. unfold as_rejection. specialize (H w st).
  destruct (continue w st) as [evs st' [th| |]];
    cbn [outcome thread_obeys] in *; first [exact H | exact I].
Qed.

(** Starting a callback. *)
Lemma start_obeys (t : Task) :
  task_obeys R t ->
  obeys R (start t) /\ leaves (thread_obeys R) (start t).
Proof.
  induction t as [|X m k IH|X c k IH|callbacks k IHs IHk]
    using Task_induction; cbn [task_obeys start].
  - intros _. split; [apply obeys_ret|]. intros w st. exact I.
  - intros [Hm Hk]. split.
    + intros w st. specialize (Hm w st).
      destruct (outcome (m w st)) as [x| |]; cbn [events final];
        try exact Hm.
      eapply (stretch_app R HR); [exact Hm|apply (IH x), Hk].
    + intros w st. destruct (outcome (m w st)) as [x| |];
        cbn [outcome thread_obeys]; try exact I.
      apply (IH x), Hk.
  - intros [Hc Hk]. split.
    + intros w st. specialize (Hc w st).
      destruct (outcome (c w st)); exact Hc.
    + intros w st. destruct (outcome (c w st)) as [x| |];
        cbn [outcome thread_obeys]; try exact I.
      split; apply (IH x), Hk.
  - intros [Hs Hk].
    set (each_start :=
           fix each (ts : list Task) : M (list Thread) :=
             match ts with
             | [] => ret []
             | t :: ts' =>
                 th <- start t ;; ths <- each ts' ;; ret (th :: ths)
             end).
    assert (Heach :
      obeys R (each_start callbacks) /\
      forall w st,
        match outcome (each_start callbacks w st) with
        | Returns children => each (thread_obeys R) children
        | _ => True
        end).
    { clear Hk IHk. induction callbacks as [|t ts IHts];
        cbn [each_start].
      - split; [apply obeys_ret|]. intros w st. exact I.
      - cbn [each] in IHs, Hs. destruct IHs as [IHt IHs].
        destruct Hs as [Ht Hs]. destruct (IHt Ht) as [Hstart Hleaves].
        destruct (IHts IHs Hs) as [Hrest Hthreads]. split.
        + apply obeys_bind; [exact Hstart|intros th].
          apply obeys_bind; [exact Hrest|intros ths]. apply obeys_ret.
        + intros w st. unfold bind at 1. specialize (Hleaves w st).
          destruct (outcome (start t w st)) as [th| |];
            cbn [outcome]; try exact I.
          unfold bind at 1.
          specialize (Hthreads w (final (start t w st))).
          destruct (outcome (each_start ts w (final (start t w st))))
            as [ths| |]; cbn [outcome each]; try exact I.
          split; assumption. }
    destruct Heach as [Hobeys Hthreads]. destruct (IHk Hk) as [Hk1 Hk2].
    split.
    + apply obeys_bind; [exact Hobeys|intros children]. apply obeys_ret.
    + intros w st. unfold bind. specialize (Hthreads w st).
      destruct (outcome (each_start callbacks w st)) as [children| |];
        cbn [outcome thread_obeys]; try exact I.
      repeat split; assumption.
Qed.

(** Resuming one callback. *)
Lemma resume_obeys (th : Thread) :
  thread_obeys R th ->
  forall n,
    obeys R (resume n th) /\
    forall w st,
      match outcome (resume n th w st) with
      | Returns (Resumed th') => thread_obeys R th'
      | _ => True
      end.
Proof.
  induction th as [rejection|continue IH|rejected children continue IHs IH]
    using Thread_induction; cbn [thread_obeys resume].
  - intros _ n. split; [apply obeys_ret|]. intros w st. exact I.
  - intros [Hobeys Hleaves] [|n].
    + split.
      * apply obeys_bind; [apply obeys_as_rejection, Hobeys|intros th'].
        apply obeys_ret.
      * intros w st. unfold bind.
        pose proof (leaves_as_rejection continue Hleaves w st) as H.
        destruct (outcome (as_rejection continue w st)); cbn [outcome];
          first [exact H | exact I].
    + split; [apply obeys_ret|]. intros w st. exact I.
  - intros (Hchildren & Hobeys & Hleaves) n.
    destruct (forallb settled children).
    { destruct n as [|n]; [|split; [apply obeys_ret|intros w st; exact I]].
      destruct rejected as [e|].
      - split; [apply obeys_ret|]. intros w st. exact I.
      - split.
        + apply obeys_bind; [apply obeys_as_rejection, Hobeys|intros th'].
          apply obeys_ret.
        + intros w st. unfold bind.
          pose proof (leaves_as_rejection continue Hleaves w st) as H.
          destruct (outcome (as_rejection continue w st)); cbn [outcome];
            first [exact H | exact I]. }
    set (among :=
           fix among (n : nat) (ths : list Thread)
             : M (nat + list Thread) :=
             match ths with
             | [] => ret (inl n)
             | th :: ths' =>
                 sought <- resume n th ;;
                 match sought with
                 | Resumed th' => ret (inr (th' :: ths'))
                 | Passed n' =>
                     rest <- among n' ths' ;;
                     match rest with
                     | inl n'' => ret (inl n'')
                     | inr ths'' => ret (inr (th :: ths''))
                     end
                 end
             end).
    assert (Hamong :
      forall n,
        obeys R (among n children) /\
        forall w st,
          match outcome (among n children w st) with
          | Returns (inr children') => each (thread_obeys R) children'
          | _ => True
          end).
    { clear Hobeys Hleaves IH.
      induction children as [|th ths IHths]; intros m; cbn [among].
      - split; [apply obeys_ret|]. intros w st. exact I.
      - cbn [each] in IHs, Hchildren. destruct IHs as [IHth IHs].
        destruct Hchildren as [Hth Hths].
        destruct (IHth Hth m) as [Hresume Hresumed]. split.
        + apply obeys_bind; [exact Hresume|intros [m'|th']].
          * apply obeys_bind; [apply (IHths IHs Hths)|].
            intros [?|?]; apply obeys_ret.
          * apply obeys_ret.
        + intros w st. unfold bind at 1. specialize (Hresumed w st).
          destruct (outcome (resume m th w st)) as [[m'|th']| |];
            cbn [outcome]; try exact I.
          * unfold bind at 1.
            destruct (IHths IHs Hths m') as [_ H].
            specialize (H w (final (resume m th w st))).
            destruct (outcome (among m' ths w (final (resume m th w st))))
              as [[?|ths'']| |]; cbn [outcome each]; try exact I.
            split; assumption.
          * cbn [ret outcome each]. split; assumption. }
    destruct (Hamong n) as [Hfound Hthreads]. split.
    + apply obeys_bind; [exact Hfound|]. intros [?|?]; apply obeys_ret.
    + intros w st. unfold bind. specialize (Hthreads w st).
      destruct (outcome (among n children w st)) as [[?|children']| |];
        cbn [outcome ret thread_obeys]; try exact I.
      repeat split; assumption.
Qed.

Lemma resume_all_obeys (schedule : list nat) (th : Thread) :
  thread_obeys R th ->
  obeys R (resume_all schedule th) /\
  leaves (thread_obeys R) (resume_all schedule th).
Proof.
  revert th. induction schedule as [|n schedule IH]; intros th Hth;
    cbn [resume_all].
  - split; [apply obeys_ret|]. intros w st. exact Hth.
  - destruct (resume_obeys th Hth n) as [Hresume Hresumed]. split.
    + intros w st. unfold bind. specialize (Hresume w st).
      specialize (Hresumed w st).
      destruct (outcome (resume n th w st)) as [[n'|th']| |];
        cbn [events final]; try exact Hresume.
      * eapply (stretch_app R HR); [exact Hresume|apply (IH th Hth)].
      * eapply (stretch_app R HR); [exact Hresume|apply (IH th' Hresumed)].
    + intros w st. unfold bind. specialize (Hresumed w st).
      destruct (outcome (resume n th w st)) as [[n'|th']| |];
        cbn [outcome]; try exact I.
      * apply (IH th Hth).
      * apply (IH th' Hresumed).
Qed.

Lemma finish_obeys (th : Thread) :
  thread_obeys R th -> obeys R (finish th).
Proof.
  assert (Hcontinue :
    forall continue : M Thread,
      leaves (fun th => thread_obeys R th -> obeys R (finish th)) continue ->
      obeys R continue -> leaves (thread_obeys R) continue ->
      obeys R (fun w st =>
                 match continue w st with
                 | {| events := evs; final := st'; outcome := out |} =>
                     match out with
                     | Returns th' =>
                         let r := finish th' w st' in
                         Build_Run (evs ++ events r) (final r) (outcome r)
                     | Throws e => Build_Run evs st' (Returns (Some e))
                     | Exits c => Build_Run evs st' (Exits c)
                     end
                 end)).
  { intros continue IH Hobeys Hleaves w st.
    specialize (IH w st). specialize (Hobeys w st).
    specialize (Hleaves w st).
    destruct (continue w st) as [evs st' [th'| |]];
      cbn [outcome events final] in *; try exact Hobeys.
    eapply (stretch_app R HR); [exact Hobeys|apply (IH Hleaves)]. }
  induction th as [rejection|continue IH|rejected children continue IHs IH]
    using Thread_induction; cbn [thread_obeys finish].
  - intros _. apply obeys_ret.
  - intros [Hobeys Hleaves]. apply Hcontinue; assumption.
  - intros (Hchildren & Hobeys & Hleaves).
    apply obeys_bind.
    + clear IH Hobeys Hleaves. revert rejected.
      induction children as [|th ths IHths]; intros rejected.
      * apply obeys_ret.
      * cbn [each] in IHs, Hchildren. destruct IHs as [IHth IHs].
        destruct Hchildren as [Hth Hths].
        apply obeys_bind; [apply IHth, Hth|intros rejection].
        apply (IHths IHs Hths).
    + intros [e|]; [apply obeys_ret|]. apply Hcontinue; assumption.
Qed.

(** [Promise.all], whatever the schedule. *)
Theorem parallel_obeys (callbacks : list Task) :
  each (task_obeys R) callbacks -> obeys R (parallel callbacks).
Proof.
  intros Hcallbacks.
  destruct (start_obeys (All callbacks Return)) as [Hstart Hleaves].
  { cbn [task_obeys]. split; [exact Hcallbacks|exact I]. }
  unfold parallel.
  apply (obeys_bind_with (thread_obeys R)); [exact Hstart|exact Hleaves|].
  intros root Hroot. apply obeys_bind; [apply obeys_world|intros w].
  destruct (resume_all_obeys (schedule w) root Hroot) as [Hrun Hroot'].
  apply (obeys_bind_with (thread_obeys R)); [exact Hrun|exact Hroot'|].
  intros root' Hobeys. apply obeys_bind; [apply finish_obeys, Hobeys|].
  intros [e|]; [apply obeys_throw|apply obeys_ret].
Qed.

(** A callback on its own. *)
Theorem alone_obeys (t : Task) : task_obeys R t -> obeys R (alone t).
Proof.
  induction t as [|X m k IH|X c k IH|callbacks k _ IH]
    using Task_induction; cbn [task_obeys alone].
  - intros _. apply obeys_ret.
  - intros [Hm Hk]. apply obeys_bind; [exact Hm|]. intros x. apply IH, Hk.
  - intros [Hc Hk]. apply obeys_bind; [exact Hc|]. intros x. apply IH, Hk.
  - intros [Hs Hk]. apply obeys_bind; [apply parallel_obeys, Hs|].
    intros _. apply IH, Hk.
Qed.

Lemma and_then_obeys (t k : Task) :
  task_obeys R t -> task_obeys R k -> task_obeys R (and_then t k).
Proof.
  intros Ht Hk. induction t as [|X m f IH|X c f IH|callbacks f _ IH]
    using Task_induction; cbn [task_obeys and_then] in *.
  - exact Hk.
  - destruct Ht as [Hm Hf]. split; [exact Hm|]. intros x. apply IH, Hf.
  - destruct Ht as [Hc Hf]. split; [exact Hc|]. intros x. apply IH, Hf.
  - destruct Ht as [Hs Hf]. split; [exact Hs|]. apply IH, Hf.
Qed.

Lemma atomic_obeys (m : M unit) : obeys R m -> task_obeys R (atomic m).
Proof. intros H. cbn [atomic task_obeys]. split; [exact H|]. intros _. exact I. Qed.

End Obeys.

(** Decompose a goal about the pieces of a callback along its structure. *)
Ltac task_step :=
  lazymatch goal with
  | |- obeys _ _ /\ _ => split
  | |- forall _, task_obeys _ _ => intro
  | |- forall _, obeys _ _ /\ _ => intro
  | |- task_obeys _ Return => exact I
  | |- task_obeys _ (Do _ _) => cbn [task_obeys]; split; [|intro]
  | |- task_obeys _ (Await _ _) => cbn [task_obeys]; split; [|intro]
  | |- task_obeys _ (All (map _ _) _) =>
      cbn [task_obeys]; split; [apply each_map, each_all; intro|]
  | |- task_obeys _ (and_then _ _) => apply and_then_obeys
  | |- task_obeys _ (atomic _) => apply atomic_obeys
  | |- task_obeys _ (if ?b then _ else _) => destruct b
  | |- task_obeys _ (match ?x with _ => _ end) => destruct x
  | |- task_obeys _ (let _ := _ in _) => cbv zeta
  end.

(** *** Callbacks that leave the state alone

    When every piece of every callback returns and leaves the state as it
    is, a schedule only changes the order of the events: however the
    callbacks are resumed, the events are those of the program text, in
    another order. *)

Section Calm.

Variable w : World.
Variable st : St.

Lemma settled_remaining (ths : list Thread) :
  forallb settled ths = true ->
  concat (map (remaining w st) ths) = [].
Proof.
  induction ths as [|[rejection|continue|rejected children continue] ths IH];
    cbn [forallb settled andb map concat remaining app];
    [reflexivity|exact IH|discriminate..].
Qed.

Lemma calm_first_rejection (ths : list Thread) :
  each (thread_calm w st) ths -> first_rejection ths = None.
Proof.
  induction ths as [|[rejection|continue|rejected children continue] ths IH];
    cbn [each first_rejection thread_calm]; [reflexivity|..].
  - intros [-> Hths]. apply IH, Hths.
  - intros [_ Hths]. apply IH, Hths.
  - intros [_ Hths]. apply IH, Hths.
Qed.

(** A piece of a calm callback. *)
Lemma calm_piece (continue : M Thread) :
  final (continue w st) = st ->
  match outcome (continue w st) with
  | Returns th' => thread_calm w st th'
  | _ => False
  end ->
  exists th',
    continue w st = Build_Run (events (continue w st)) st (Returns th') /\
    thread_calm w st th'.
Proof.
  destruct (continue w st) as [evs st' [th'| |]]; cbn [final outcome events];
    intros -> H; [|destruct H..].
  exists th'. split; [reflexivity|exact H].
Qed.

Lemma finish_calm (th : Thread) :
  thread_calm w st th ->
  finish th w st = Build_Run (remaining w st th) st (Returns None).
Proof.
  induction th as [rejection|continue IH|rejected children continue IHs IH]
    using Thread_induction; cbn [thread_calm finish remaining].
  - intros ->. reflexivity.
  - intros [Hfinal Hcalm]. specialize (IH w st).
    destruct (continue w st) as [evs st' [th'| |]];
      cbn [final outcome events] in *; try destruct Hcalm.
    subst st'. rewrite (IH Hcalm). reflexivity.
  - intros (-> & Hchildren & Hfinal & Hcalm).
    set (each_finish :=
           fix each (ths : list Thread) (rejected : option string)
             : M (option string) :=
             match ths with
             | [] => ret rejected
             | th :: ths' =>
                 rejection <- finish th ;;
                 each ths' (or_rejection rejected rejection)
             end).
    assert (Heach :
      each_finish children None w st =
      Build_Run (concat (map (remaining w st) children)) st (Returns None)).
    { clear IH Hfinal Hcalm.
      induction children as [|th ths IHths]; [reflexivity|].
      cbn [each] in IHs, Hchildren. destruct IHs as [IHth IHs].
      destruct Hchildren as [Hth Hths]. cbn [each_finish map concat].
      fold each_finish. unfold bind. rewrite (IHth Hth). cbn [outcome events final or_rejection].
      rewrite (IHths IHs Hths). reflexivity. }
    unfold bind. rewrite Heach. cbn [outcome events final].
    specialize (IH w st).
    destruct (continue w st) as [evs st' [th'| |]];
      cbn [final outcome events] in *; try destruct Hcalm.
    subst st'. rewrite (IH Hcalm). reflexivity.
Qed.

(** Resuming a callback moves some of its events to the front. *)
Lemma resume_calm (th : Thread) :
  thread_calm w st th ->
  forall n,
    (exists n', resume n th w st = Build_Run [] st (Returns (Passed n'))) \/
    (exists evs th',
       resume n th w st = Build_Run evs st (Returns (Resumed th')) /\
       thread_calm w st th' /\
       Permutation (evs ++ remaining w st th') (remaining w st th)).
Proof.
  induction th as [rejection|continue _|rejected children continue IHs _]
    using Thread_induction; cbn [thread_calm resume remaining].
  - intros _ n. left. exists n. reflexivity.
  - intros [Hfinal Hcalm] [|n]; [|left; exists n; reflexivity].
    right. destruct (calm_piece continue Hfinal Hcalm) as (th' & E & Hth').
    exists (events (continue w st)), th'. split; [|split; [exact Hth'|]].
    + unfold bind, as_rejection. rewrite E. cbn [outcome events final ret].
      rewrite app_nil_r. reflexivity.
    + rewrite E. cbn [outcome events]. reflexivity.
  - intros (-> & Hchildren & Hfinal & Hcalm) n.
    destruct (forallb settled children) eqn:Hsettled.
    { destruct n as [|n]; [|left; exists n; reflexivity].
      right. destruct (calm_piece continue Hfinal Hcalm) as (th' & E & Hth').
      exists (events (continue w st)), th'. split; [|split; [exact Hth'|]].
      - unfold bind, as_rejection. rewrite E. cbn [outcome events final ret].
        rewrite app_nil_r. reflexivity.
      - rewrite (settled_remaining children Hsettled), E.
        cbn [outcome events app]. reflexivity. }
    set (among :=
           fix among (n : nat) (ths : list Thread)
             : M (nat + list Thread) :=
             match ths with
             | [] => ret (inl n)
             | th :: ths' =>
                 sought <- resume n th ;;
                 match sought with
                 | Resumed th' => ret (inr (th' :: ths'))
                 | Passed n' =>
                     rest <- among n' ths' ;;
                     match rest with
                     | inl n'' => ret (inl n'')
                     | inr ths'' => ret (inr (th :: ths''))
                     end
                 end
             end).
    assert (Hamong :
      forall n,
        (exists n', among n children w st =
                    Build_Run [] st (Returns (inl n'))) \/
        (exists evs children',
           among n children w st = Build_Run evs st (Returns (inr children'))
           /\ each (thread_calm w st) children' /\
           Permutation (evs ++ concat (map (remaining w st) children'))
             (concat (map (remaining w st) children)))).
    { clear Hfinal Hcalm Hsettled.
      induction children as [|th ths IHths]; intros m; cbn [among];
        fold among.
      - left. exists m. reflexivity.
      - cbn [each] in IHs, Hchildren. destruct IHs as [IHth IHs].
        destruct Hchildren as [Hth Hths].
        destruct (IHth Hth m) as [[m' E]|(evs & th' & E & Hth' & Hperm)].
        + rewrite !(bind_known _ _ _ _ _ _ _ E).
          destruct (IHths IHs Hths m')
            as [[m'' E']|(evs & ths' & E' & Hths' & Hperm)];
            rewrite !(bind_known _ _ _ _ _ _ _ E').
          * left. exists m''. reflexivity.
          * right. exists evs, (th :: ths').
            unfold prepend. cbn [outcome events final ret app].
            rewrite app_nil_r.
            split; [reflexivity|]. split; [split; assumption|].
            cbn [map concat]. rewrite Permutation_app_swap_app.
            apply Permutation_app_head, Hperm.
        + right. exists evs, (th' :: ths).
          rewrite !(bind_known _ _ _ _ _ _ _ E).
          unfold prepend. cbn [outcome events final ret].
          rewrite app_nil_r.
          split; [reflexivity|]. split; [split; assumption|].
          cbn [map concat]. rewrite app_assoc.
          apply Permutation_app_tail, Hperm. }
    destruct (Hamong n) as [[n' E]|(evs & children' & E & Hcalm' & Hperm)].
    + left. exists n'. unfold bind. rewrite E. reflexivity.
    + right.
      exists evs,
        (Waiting (or_rejection None (first_rejection children')) children'
           continue).
      unfold bind. rewrite E. cbn [outcome events final ret].
      rewrite app_nil_r. split; [reflexivity|].
      rewrite (calm_first_rejection children' Hcalm').
      cbn [or_rejection thread_calm remaining].
      split; [repeat split; assumption|].
      rewrite app_assoc. apply Permutation_app_tail, Hperm.
Qed.

Lemma resume_all_calm (order : list nat) (th : Thread) :
  thread_calm w st th ->
  exists evs th',
    resume_all order th w st = Build_Run evs st (Returns th') /\
    thread_calm w st th' /\
    Permutation (evs ++ remaining w st th') (remaining w st th).
Proof.
  revert th. induction order as [|n order IH]; intros th Hth;
    cbn [resume_all].
  - exists [], th. repeat split; [exact Hth|reflexivity].
  - destruct (resume_calm th Hth n)
      as [[n' E]|(evs & th' & E & Hth' & Hperm)].
    + unfold bind. rewrite E. cbn [outcome events final app].
      destruct (IH th Hth) as (evs & th' & E' & Hth' & Hperm).
      exists evs, th'. rewrite E'. repeat split; assumption.
    + unfold bind. rewrite E. cbn [outcome events final].
      destruct (IH th' Hth') as (evs' & th'' & E' & Hth'' & Hperm').
      exists (evs ++ evs'), th''. rewrite E'. cbn [events final outcome].
      split; [reflexivity|]. split; [exact Hth''|].
      rewrite <- app_assoc. rewrite <- Hperm.
      apply Permutation_app_head, Hperm'.
Qed.

(** Starting a calm callback. *)
Lemma start_calm (t : Task) :
  task_calm w st t ->
  exists evs th,
    start t w st = Build_Run evs st (Returns th) /\
    thread_calm w st th /\
    Permutation (evs ++ remaining w st th) (in_order w st t).
Proof.
  induction t as [|X m k IH|X c k IH|callbacks k IHs IHk]
    using Task_induction; cbn [task_calm start in_order].
  - intros _. exists [], (Settled None). repeat split. reflexivity.
  - intros [Hfinal Hcalm].
    destruct (m w st) as [evs st' [x| |]]; cbn [final outcome events] in *;
      try destruct Hcalm.
    subst st'. destruct (IH x Hcalm) as (evs' & th & E & Hth & Hperm).
    exists (evs ++ evs'), th. rewrite E. cbn [events final outcome].
    split; [reflexivity|]. split; [exact Hth|].
    rewrite <- app_assoc. apply Permutation_app_head, Hperm.
  - intros [Hfinal Hcalm].
    destruct (c w st) as [evs st' [x| |]]; cbn [final outcome events] in *;
      try destruct Hcalm.
    subst st'. destruct (IH x Hcalm) as (evs' & th & E & Hth & Hperm).
    exists evs, (Suspended (start (k x))). split; [reflexivity|].
    cbn [thread_calm remaining]. rewrite E. cbn [final outcome events].
    split; [split; [reflexivity|exact Hth]|].
    apply Permutation_app_head, Hperm.
  - intros [Hcallbacks Hk].
    set (each_start :=
           fix each (ts : list Task) : M (list Thread) :=
             match ts with
             | [] => ret []
             | t :: ts' =>
                 th <- start t ;; ths <- each ts' ;; ret (th :: ths)
             end).
    assert (Heach :
      exists evs children,
        each_start callbacks w st = Build_Run evs st (Returns children) /\
        each (thread_calm w st) children /\
        Permutation (evs ++ concat (map (remaining w st) children))
          (concat (map (in_order w st) callbacks))).
    { clear Hk IHk. induction callbacks as [|t ts IHts].
      - exists [], []. repeat split. reflexivity.
      - cbn [each] in IHs, Hcallbacks. destruct IHs as [IHt IHs].
        destruct Hcallbacks as [Ht Hts].
        destruct (IHt Ht) as (evs & th & E & Hth & Hperm).
        destruct (IHts IHs Hts) as (evs' & ths & E' & Hths & Hperm').
        exists (evs ++ evs'), (th :: ths). cbn [each_start].
        fold each_start. rewrite (bind_known _ _ _ _ _ _ _ E).
        rewrite (bind_known _ _ _ _ _ _ _ E').
        unfold prepend. cbn [outcome events final ret].
        rewrite app_nil_r. split; [reflexivity|].
        split; [split; assumption|]. cbn [map concat].
        rewrite <- Hperm, <- Hperm'. rewrite <- !app_assoc.
        apply Permutation_app_head. rewrite !app_assoc.
        apply Permutation_app_tail, Permutation_app_comm. }
    destruct Heach as (evs & children & E & Hchildren & Hperm).
    destruct (IHk Hk) as (evs' & th & E' & Hth & Hperm').
    exists evs,
      (Waiting (first_rejection children) children (start k)).
    rewrite (bind_known _ _ _ _ _ _ _ E).
    unfold prepend. cbn [outcome events final ret].
    rewrite app_nil_r. split; [reflexivity|].
    rewrite (calm_first_rejection children Hchildren).
    cbn [thread_calm remaining]. rewrite E'. cbn [final outcome events].
    split; [repeat split; assumption|].
    rewrite app_assoc. rewrite Hperm.
    apply Permutation_app_head, Hperm'.
Qed.

(** [Promise.all] over calm callbacks. *)
Theorem parallel_calm (callbacks : list Task) :
  each (task_calm w st) callbacks ->
  exists evs,
    parallel callbacks w st = Build_Run evs st (Returns tt) /\
    Permutation evs (concat (map (in_order w st) callbacks)).
Proof.
  intros Hcallbacks.
  destruct (start_calm (All callbacks Return))
    as (evs & root & E & Hroot & Hperm).
  { cbn [task_calm]. split; [exact Hcallbacks|exact I]. }
  destruct (resume_all_calm (schedule w) root Hroot)
    as (evs' & root' & E' & Hroot' & Hperm').
  exists (evs ++ evs' ++ remaining w st root').
  unfold parallel. rewrite (bind_known _ _ _ _ _ _ _ E), bind_world.
  rewrite (bind_known _ _ _ _ _ _ _ E').
  rewrite (bind_known _ _ _ _ _ _ _ (finish_calm root' Hroot')).
  unfold prepend. cbn [outcome events final ret].
  rewrite app_nil_r. split; [reflexivity|].
  cbn [in_order] in Hperm. rewrite app_nil_r in Hperm.
  rewrite <- Hperm. apply Permutation_app_head, Hperm'.
Qed.

(** A calm callback on its own. *)
Theorem alone_calm (t : Task) :
  task_calm w st t ->
  exists evs,
    alone t w st = Build_Run evs st (Returns tt) /\
    Permutation evs (in_order w st t).
Proof.
  induction t as [|X m k IH|X c k IH|callbacks k _ IH]
    using Task_induction; cbn [task_calm alone in_order].
  - intros _. exists []. split; reflexivity.
  - intros [Hfinal Hcalm]. unfold bind.
    destruct (m w st) as [evs st' [x| |]]; cbn [final outcome events] in *;
      try destruct Hcalm.
    subst st'. destruct (IH x Hcalm) as (evs' & E & Hperm).
    exists (evs ++ evs'). rewrite E. split; [reflexivity|].
    apply Permutation_app_head, Hperm.
  - intros [Hfinal Hcalm]. unfold bind.
    destruct (c w st) as [evs st' [x| |]]; cbn [final outcome events] in *;
      try destruct Hcalm.
    subst st'. destruct (IH x Hcalm) as (evs' & E & Hperm).
    exists (evs ++ evs'). rewrite E. split; [reflexivity|].
    apply Permutation_app_head, Hperm.
  - intros [Hcallbacks Hk].
    destruct (parallel_calm callbacks Hcallbacks) as (evs & E & Hperm).
    destruct (IH Hk) as (evs' & E' & Hperm').
    exists (evs ++ evs'). rewrite (bind_known _ _ _ _ _ _ _ E), E'.
    split; [reflexivity|]. apply Permutation_app; assumption.
Qed.

Lemma and_then_calm (t k : Task) :
  task_calm w st t -> task_calm w st k ->
  task_calm w st (and_then t k) /\
  in_order w st (and_then t k) = in_order w st t ++ in_order w st k.
Proof.
  intros Ht Hk. induction t as [|X m f IH|X c f IH|callbacks f _ IH]
    using Task_induction; cbn [task_calm and_then in_order] in *.
  - split; [exact Hk|reflexivity].
  - destruct Ht as [Hfinal Hcalm].
    destruct (outcome (m w st)) as [x| |]; try destruct Hcalm.
    destruct (IH x Hcalm) as [Hcalm' Horder].
    split; [split; assumption|]. rewrite Horder, app_assoc. reflexivity.
  - destruct Ht as [Hfinal Hcalm].
    destruct (outcome (c w st)) as [x| |]; try destruct Hcalm.
    destruct (IH x Hcalm) as [Hcalm' Horder].
    split; [split; assumption|]. rewrite Horder, app_assoc. reflexivity.
  - destruct Ht as [Hcallbacks Hf]. destruct (IH Hf) as [Hcalm' Horder].
    split; [split; assumption|]. rewrite Horder, app_assoc. reflexivity.
Qed.

End Calm.
(** ** The two ends of a run, compositionally *)

Section Relating.

Variable T : St -> St -> Prop.
Hypothesis T_refl : forall st, T st st.
Hypothesis T_trans : forall st st' st'', T st st' -> T st' st'' -> T st st''.
Hypothesis T_platform :
  forall st p, T st {| auto := auto st; platform := p |}.

Lemma relating_composes : composes (relating T).
Proof.
  split; [intros st; apply T_refl|].
  intros st evs st' evs' st'' H H'. exact (T_trans _ _ _ H H').
Qed.

Lemma relating_unchanged {A} (m : M A) :
  (forall w st, final (m w st) = st) -> obeys (relating T) m.
Proof. intros H w st. unfold relating. rewrite H. apply T_refl. Qed.

Lemma relating_ret {A} (a : A) : obeys (relating T) (ret a).
Proof. apply relating_unchanged. reflexivity. Qed.

Lemma relating_throw {A} (e : string) : obeys (relating T) (@throw A e).
Proof. apply relating_unchanged. reflexivity. Qed.

Lemma relating_exit {A} (c : N) : obeys (relating T) (@process_exit A c).
Proof. apply relating_unchanged. reflexivity. Qed.

Lemma relating_this : obeys (relating T) this.
Proof. apply relating_unchanged. reflexivity. Qed.

Lemma relating_world : obeys (relating T) world.
Proof. apply relating_unchanged. reflexivity. Qed.

Lemma relating_emit (e : Event) : obeys (relating T) (emit e).
Proof. apply relating_unchanged. reflexivity. Qed.

Lemma relating_log (level : string) (args : list string) :
  obeys (relating T) (log level args).
Proof. apply relating_unchanged. reflexivity. Qed.

Lemma relating_call {A} (c : Call) (answer : World -> A) :
  obeys (relating T) (call c answer).
Proof. apply relating_unchanged. reflexivity. Qed.

Lemma relating_getLabels (n : N) : obeys (relating T) (getLabels n).
Proof. apply relating_unchanged. reflexivity. Qed.

Lemma relating_addLabelToPr (n : N) (l : string) :
  obeys (relating T) (addLabelToPr n l).
Proof.
  intros w st. unfold relating, addLabelToPr.
  destruct (fails w (AddLabelToPr n l)); [apply T_refl|apply T_platform].
Qed.

Lemma relating_bail {A R} (hook : string) (h : Hook.taps (A -> Bail R))
    (a : A) :
  obeys (relating T) (bail hook h a).
Proof. apply relating_unchanged. intros w st. rewrite bail_run. reflexivity. Qed.

Lemma relating_bind {A B} (m : M A) (f : A -> M B) :
  obeys (relating T) m -> (forall a, obeys (relating T) (f a)) ->
  obeys (relating T) (bind m f).
Proof. apply (obeys_bind (relating T) relating_composes). Qed.

Lemma relating_try_catch {A} (m : M A) (handler : string -> M A) :
  obeys (relating T) m -> (forall e, obeys (relating T) (handler e)) ->
  obeys (relating T) (try_catch m handler).
Proof.
  intros Hm Hh w st. unfold relating, try_catch. specialize (Hm w st).
  destruct (outcome (m w st)); cbn [final]; try exact Hm.
  exact (T_trans _ _ _ Hm (Hh _ _ _)).
Qed.

Lemma relating_parallel (callbacks : list Task) :
  each (task_obeys (relating T)) callbacks ->
  obeys (relating T) (parallel callbacks).
Proof. apply (parallel_obeys (relating T) relating_composes). Qed.

End Relating.

(** ** The previous version *)

Lemma first_answer_snoc {A R} (h : Hook.taps (A -> Bail R)) owner
    (f : A -> Bail R) (a : A) :
  first_answer (h ++ [(owner, f)]) a =
  match first_answer h a with
  | NoOpinion => f a
  | r => r
  end.
Proof.
  induction h as [|[o g] h IH]; cbn.
  - destruct (f a); reflexivity.
  - destruct (g a); [exact IH|reflexivity|reflexivity].
Qed.

Lemma same_previous_version_refl st : same_previous_version st st.
Proof. split; [reflexivity|]. exists 0%nat. symmetry. apply app_nil_r. Qed.

Lemma same_previous_version_trans st st' st'' :
  same_previous_version st st' -> same_previous_version st' st'' ->
  same_previous_version st st''.
Proof.
  intros [Hr [k Hk]] [Hr' [k' Hk']]. split; [congruence|].
  exists (k + k')%nat. rewrite Hk', Hk, <- app_assoc, repeat_app. reflexivity.
Qed.

Lemma same_previous_version_platform st p :
  same_previous_version st {| auto := auto st; platform := p |}.
Proof. split; [reflexivity|]. exists 0%nat. symmetry. apply app_nil_r. Qed.

Ltac relating_side :=
  first [ assumption | exact same_previous_version_refl
        | exact same_previous_version_trans
        | exact same_previous_version_platform ].

(** Decompose a goal [obeys (relating T) m] along the structure of [m]. *)
Ltac relating_step :=
  lazymatch goal with
  | |- obeys (relating _) (bind _ _) =>
      apply relating_bind; [relating_side..| |intro]
  | |- obeys (relating _) (ret _) => apply relating_ret; relating_side
  | |- obeys (relating _) (throw _) => apply relating_throw; relating_side
  | |- obeys (relating _) (process_exit _) => apply relating_exit; relating_side
  | |- obeys (relating _) this => apply relating_this; relating_side
  | |- obeys (relating _) world => apply relating_world; relating_side
  | |- obeys (relating _) (emit _) => apply relating_emit; relating_side
  | |- obeys (relating _) (log _ _) => apply relating_log; relating_side
  | |- obeys (relating _) (call _ _) => apply relating_call; relating_side
  | |- obeys (relating _) (getLabels _) => apply relating_getLabels; relating_side
  | |- obeys (relating _) (addLabelToPr _ _) =>
      apply relating_addLabelToPr; relating_side
  | |- obeys (relating _) (bail _ _ _) => apply relating_bail; relating_side
  | |- obeys (relating _) (try_catch _ _) =>
      apply relating_try_catch; [relating_side..| |intro]
  | |- obeys (relating _) (if ?b then _ else _) => destruct b
  | |- obeys (relating _) (match ?x with _ => _ end) => destruct x
  | |- obeys (relating _) (let _ := _ in _) => cbv zeta
  end.

Ltac relating_auto := repeat first [task_step | relating_step]; auto.

(** The tap that [getCurrentVersion] adds always has an opinion, so the
    taps after the first copy of it are not consulted. *)
Lemma tapped_again (h : Hook.taps ((string -> option string) -> Bail string))
    (k : nat) (prefixRelease : string -> option string) :
  first_answer (h ++ repeat ("None", noPreviousVersion) (S k)) prefixRelease =
  first_answer (h ++ [("None", noPreviousVersion)]) prefixRelease /\
  consulted (h ++ repeat ("None", noPreviousVersion) (S k)) prefixRelease =
  consulted (h ++ [("None", noPreviousVersion)]) prefixRelease.
Proof.
  induction h as [|[o g] h [IHa IHc]];
    cbn [app repeat first_answer consulted].
  - unfold noPreviousVersion. destruct (prefixRelease "0.0.0"); split; reflexivity.
  - cbn [repeat] in IHa, IHc. rewrite IHa, IHc. split; reflexivity.
Qed.

(** What [getCurrentVersion] does: it adds its tap, asks the hook, and
    keeps the later of the answer and the last release. *)
Lemma getCurrentVersion_run (lastRelease : string) w st :
  let taps := Hook.getPreviousVersion (this_hooks (auto st)) ++
              [("None", noPreviousVersion)] in
  getCurrentVersion lastRelease w st =
  Build_Run
    (Fired "getPreviousVersion" NoArguments ::
     map (Ran "getPreviousVersion")
       (consulted taps (prefixRelease_of (auto st))))
    {| auto := set_hooks (auto st)
                 (Hook.tap_getPreviousVersion "None" noPreviousVersion
                    (this_hooks (auto st)));
       platform := platform st |}
    match first_answer taps (prefixRelease_of (auto st)) with
    | NoOpinion => Returns None
    | Answer previous =>
        Returns
          (if semver_parse w lastRelease && semver_parse w previous &&
              semver_gt w lastRelease previous
           then Some lastRelease else Some previous)
    | Rejects e => Throws e
    end.
Proof.
  cbv zeta. unfold getCurrentVersion. rewrite bind_this. cbv zeta.
  rewrite bind_set_this, bind_emit, bind_bail.
  cbn [Hook.tap_getPreviousVersion Hook.getPreviousVersion].
  destruct (first_answer _ _) as [|previous|e]; [| |reflexivity].
  - rewrite bind_world. cbn [parses]. rewrite andb_false_r.
    unfold prepend, ret; cbn [events final outcome app].
    rewrite app_nil_r. reflexivity.
  - rewrite bind_world. cbn [parses JS.show default from_option]. unfold id.
    destruct (_ && _ && _); unfold prepend, ret; cbn [events final outcome app];
      rewrite app_nil_r; reflexivity.
Qed.

Lemma getCurrentVersion_relating lastRelease :
  obeys (relating same_previous_version) (getCurrentVersion lastRelease).
Proof.
  intros w st. unfold relating. rewrite getCurrentVersion_run. cbn [final].
  split; [reflexivity|]. exists 1%nat. reflexivity.
Qed.

(** In a state that gives the same previous version, [getCurrentVersion]
    logs and answers the same. *)
Lemma getCurrentVersion_again lastRelease w st st' :
  same_previous_version st st' ->
  events (getCurrentVersion lastRelease w st') =
    events (getCurrentVersion lastRelease w st) /\
  outcome (getCurrentVersion lastRelease w st') =
    outcome (getCurrentVersion lastRelease w st).
Proof.
  intros [Hrelease [k Hk]]. rewrite !getCurrentVersion_run.
  cbn [events outcome].
  assert (Hprefix : prefixRelease_of (auto st') = prefixRelease_of (auto st))
    by (unfold prefixRelease_of; rewrite Hrelease; reflexivity).
  rewrite Hprefix, Hk, <- app_assoc.
  change (repeat ("None", noPreviousVersion) k ++ [("None", noPreviousVersion)])
    with (repeat ("None", noPreviousVersion) k ++
          repeat ("None", noPreviousVersion) 1).
  rewrite <- repeat_app, Nat.add_1_r.
  destruct (tapped_again (Hook.getPreviousVersion (this_hooks (auto st))) k
              (prefixRelease_of (auto st))) as [Ha Hc].
  rewrite Ha, Hc. split; reflexivity.
Qed.

Lemma getVersion_relating from :
  obeys (relating same_previous_version) (getVersion from).
Proof.
  intros w st. unfold relating, getVersion. rewrite bind_this.
  destruct (negb _); [apply same_previous_version_refl|].
  assert (Hrest :
            forall lastRelease,
              same_previous_version st
                (final
                   ((bump <- call (GetSemverBump lastRelease None)
                               (fun w => semverBump w lastRelease None) ;;
                     a <- this ;;
                     set_this (set_versionBump a bump) ;;; ret bump) w st))).
  { intros lastRelease. rewrite bind_call.
    destruct (fails w _); [apply same_previous_version_refl|].
    run. cbn [prepend final ret]. split; [reflexivity|].
    exists 0%nat. symmetry. apply app_nil_r. }
  destruct (JS.truthy from).
  - rewrite bind_ret. apply Hrest.
  - rewrite bind_call. destruct (fails w _);
      [apply same_previous_version_refl|]. apply Hrest.
Qed.

Lemma setGitUser_relating : obeys (relating same_previous_version) setGitUser.
Proof. unfold setGitUser. relating_auto. Qed.

Lemma makeChangelog_relating options :
  dryRun options = true ->
  obeys (relating same_previous_version) (makeChangelog options).
Proof.
  intros Hdry. unfold makeChangelog. rewrite Hdry.
  relating_auto. apply setGitUser_relating.
Qed.

Lemma prefixRelease_relating release :
  obeys (relating same_previous_version) (prefixRelease release).
Proof. unfold prefixRelease. relating_auto. Qed.

Section Announcing.

Variable T : St -> St -> Prop.
Hypothesis T_refl : forall st, T st st.
Hypothesis T_trans : forall st st' st'', T st st' -> T st' st'' -> T st st''.
Hypothesis T_platform :
  forall st p, T st {| auto := auto st; platform := p |}.

Lemma comment_relating options : task_obeys (relating T) (comment options).
Proof. unfold comment, getPrNumber. relating_auto. Qed.

Lemma addCommentAndLabel_relating options version n isIssue :
  task_obeys (relating T)
    (ReleasedLabelPlugin.addCommentAndLabel options version n isIssue).
Proof.
  unfold ReleasedLabelPlugin.addCommentAndLabel,
    ReleasedLabelPlugin.ensureLabel.
  relating_auto. apply comment_relating.
Qed.

Lemma releaseIssues_relating options version messages :
  task_obeys (relating T)
    (ReleasedLabelPlugin.releaseIssues options version messages).
Proof.
  unfold ReleasedLabelPlugin.releaseIssues.
  relating_auto; apply addCommentAndLabel_relating.
Qed.

Lemma addReleased_relating options commit version :
  task_obeys (relating T)
    (ReleasedLabelPlugin.addReleased options commit version).
Proof.
  unfold ReleasedLabelPlugin.addReleased.
  relating_auto;
    first [apply addCommentAndLabel_relating | apply releaseIssues_relating].
Qed.

Lemma plugin_afterRelease_relating options payload :
  task_obeys (relating T)
    (ReleasedLabelPlugin.afterRelease options payload).
Proof.
  unfold ReleasedLabelPlugin.afterRelease. relating_auto.
  all: apply addReleased_relating.
Qed.

End Announcing.

Lemma call_afterRelease_relating h payload :
  obeys (relating same_previous_version) (call_afterRelease h payload).
Proof.
  unfold call_afterRelease. relating_auto.
  apply relating_parallel; [relating_side..|]. apply each_map, each_all.
  intros [owner handler]. unfold run_afterRelease. cbn [fst snd].
  relating_auto. apply plugin_afterRelease_relating; relating_side.
Qed.

Lemma createRelease_relating options lastRelease commits notes newVersion :
  obeys (relating same_previous_version)
    (createRelease options lastRelease commits notes newVersion).
Proof.
  unfold createRelease. relating_auto. all: apply call_afterRelease_relating.
Qed.

Lemma makeRelease_relating options :
  obeys (relating same_previous_version) (makeRelease options).
Proof.
  unfold makeRelease.
  relating_auto;
    first [apply prefixRelease_relating | apply getCurrentVersion_relating
          | apply createRelease_relating].
Qed.

(** ** Events of a run, compositionally *)

Section Emits.

Variable P : Event -> Prop.

Lemma emits_ret {A} (a : A) : emits P (ret a).
Proof. intros w st. constructor. Qed.

Lemma emits_throw {A} (e : string) : emits P (@throw A e).
Proof. intros w st. constructor. Qed.

Lemma emits_exit {A} (c : N) : emits P (@process_exit A c).
Proof. intros w st. constructor. Qed.

Lemma emits_this : emits P this.
Proof. intros w st. constructor. Qed.

Lemma emits_world : emits P world.
Proof. intros w st. constructor. Qed.

Lemma emits_set_this (a : Auto) : emits P (set_this a).
Proof. intros w st. constructor. Qed.

Lemma emits_emit (e : Event) : P e -> emits P (emit e).
Proof. intros H w st. repeat constructor. exact H. Qed.

Lemma emits_log (level : string) (args : list string) :
  P (Logged level args) -> emits P (log level args).
Proof. apply emits_emit. Qed.

Lemma emits_call {A} (c : Call) (answer : World -> A) :
  P (Called c) -> emits P (call c answer).
Proof. intros H w st. repeat constructor. exact H. Qed.

Lemma emits_getLabels (n : N) : P (Called (GetLabels n)) -> emits P (getLabels n).
Proof. intros H w st. repeat constructor. exact H. Qed.

Lemma emits_addLabelToPr (n : N) (l : string) :
  P (Called (AddLabelToPr n l)) -> emits P (addLabelToPr n l).
Proof.
  intros H w st. unfold addLabelToPr.
  destruct (fails w (AddLabelToPr n l)); repeat constructor; exact H.
Qed.

Lemma emits_bind {A B} (m : M A) (f : A -> M B) :
  emits P m -> (forall a, emits P (f a)) -> emits P (bind m f).
Proof.
  intros Hm Hf w st. unfold bind. specialize (Hm w st).
  destruct (outcome (m w st)); cbn [events]; try exact Hm.
  apply Forall_app. split; [exact Hm|apply Hf].
Qed.

Lemma emits_try_catch {A} (m : M A) (handler : string -> M A) :
  emits P m -> (forall e, emits P (handler e)) -> emits P (try_catch m handler).
Proof.
  intros Hm Hh w st. unfold try_catch. specialize (Hm w st).
  destruct (outcome (m w st)); cbn [events]; try exact Hm.
  apply Forall_app. split; [exact Hm|apply Hh].
Qed.

Lemma emitting_composes : composes (emitting P).
Proof.
  split; [intros st; constructor|].
  intros st evs st' evs' st'' H H'. apply Forall_app. split; assumption.
Qed.

Lemma emits_parallel (callbacks : list Task) :
  each (task_obeys (emitting P)) callbacks -> emits P (parallel callbacks).
Proof. apply (parallel_obeys (emitting P) emitting_composes). Qed.

Lemma emits_alone (t : Task) :
  task_obeys (emitting P) t -> emits P (alone t).
Proof. apply (alone_obeys (emitting P) emitting_composes). Qed.

Lemma emitting_and_then (t k : Task) :
  task_obeys (emitting P) t -> task_obeys (emitting P) k ->
  task_obeys (emitting P) (and_then t k).
Proof. apply (and_then_obeys (emitting P)). Qed.

Lemma emitting_atomic (m : M unit) :
  emits P m -> task_obeys (emitting P) (atomic m).
Proof. apply (atomic_obeys (emitting P)). Qed.

Lemma emits_series (ms : list (M unit)) :
  Forall (emits P) ms -> emits P (series ms).
Proof.
  induction 1 as [|m ms Hm _ IH]; [apply emits_ret|].
  cbn [series]. apply emits_bind; [exact Hm|intros _; exact IH].
Qed.

Lemma emits_bail {A R} (hook : string) (h : Hook.taps (A -> Bail R)) (a : A) :
  (forall owner, P (Ran hook owner)) -> emits P (bail hook h a).
Proof.
  intros H w st. rewrite bail_run. cbn [events].
  apply List.Forall_forall. intros e [owner [<- _]]%in_map_iff. apply H.
Qed.

Lemma emits_waterfall {A} (hook : string) (h : Hook.taps (A -> A)) (a : A) :
  (forall owner, P (Ran hook owner)) -> emits P (waterfall hook h a).
Proof.
  intros H. revert a. induction h as [|[owner f] h IH]; intros a.
  - apply emits_ret.
  - cbn [waterfall]. apply emits_bind; [apply emits_emit, H|intros _; apply IH].
Qed.

Lemma emits_run_observer {A} (hook owner : string) (f : Observer A) (a : A) :
  P (Ran hook owner) -> emits P (run_observer hook owner f a).
Proof.
  intros H. unfold run_observer. apply emits_bind; [apply emits_emit, H|].
  intros _. destruct (f a); [apply emits_throw|apply emits_ret].
Qed.

Lemma emits_call_series {A} (hook : string) (payload : Payload)
    (h : Hook.taps (Observer A)) (a : A) :
  P (Fired hook payload) -> (forall owner, P (Ran hook owner)) ->
  emits P (call_series hook payload h a).
Proof.
  intros Hf Hr. unfold call_series.
  apply emits_bind; [apply emits_emit, Hf|intros _].
  apply emits_series, List.Forall_forall. intros m [t [<- _]]%in_map_iff.
  apply emits_run_observer, Hr.
Qed.

Lemma emits_call_parallel {A} (hook : string) (payload : Payload)
    (h : Hook.taps (Observer A)) (a : A) :
  P (Fired hook payload) -> (forall owner, P (Ran hook owner)) ->
  emits P (call_parallel hook payload h a).
Proof.
  intros Hf Hr. unfold call_parallel.
  apply emits_bind; [apply emits_emit, Hf|intros _].
  apply emits_parallel, each_map, each_all. intros t.
  apply emitting_atomic, emits_run_observer, Hr.
Qed.

End Emits.

(** Decompose a goal [emits P m] along the structure of [m]; what is left
    are the events themselves, and the branches of the tests. *)
Ltac emits_step :=
  lazymatch goal with
  | |- emits _ (alone _) => apply emits_alone
  | |- obeys (emitting ?P) ?m => change (emits P m)
  | |- emits _ (bind _ _) => apply emits_bind; [|intro]
  | |- emits _ (ret _) => apply emits_ret
  | |- emits _ (throw _) => apply emits_throw
  | |- emits _ (process_exit _) => apply emits_exit
  | |- emits _ this => apply emits_this
  | |- emits _ world => apply emits_world
  | |- emits _ (set_this _) => apply emits_set_this
  | |- emits _ (emit _) => apply emits_emit
  | |- emits _ (log _ _) => apply emits_log
  | |- emits _ (call _ _) => apply emits_call
  | |- emits _ (getLabels _) => apply emits_getLabels
  | |- emits _ (addLabelToPr _ _) => apply emits_addLabelToPr
  | |- emits _ (try_catch _ _) => apply emits_try_catch; [|intro]
  | |- emits _ (bail _ _ _) => apply emits_bail; intro
  | |- emits _ (waterfall _ _ _) => apply emits_waterfall; intro
  | |- emits _ (call_series _ _ _ _) => apply emits_call_series; [|intro]
  | |- emits _ (call_parallel _ _ _ _) => apply emits_call_parallel; [|intro]
  | |- emits _ (if ?b then _ else _) => destruct b
  | |- emits _ (match ?x with _ => _ end) => destruct x
  | |- emits _ (let _ := _ in _) => cbv zeta
  end.

Ltac emits_auto :=
  repeat first [task_step | emits_step]; try reflexivity; eauto.
(** ** The canary suffix (C4) *)

(** C4. For every request number, build id and short commit sha, the suffix
    that lines 631 to 643 of [canary] compute is the one the specification
    describes: [.pr.build] when both are known, the known one followed by
    the short sha when exactly one is, and the short sha alone when neither
    is. *)
Theorem canary_suffix_by_cases (pr build : option string) (w : World)
    (st : St) :
  fails w (GetSha true) = None ->
  outcome (canarySuffix pr build (call (GetSha true) (fun w => sha w true))
             w st)
  = Returns (buildCanarySuffix pr build (sha w true)).
Proof.
  intros Hsha. unfold canarySuffix, buildCanarySuffix.
  destruct (JS.truthy pr), (JS.truthy build); cbn [negb orb];
    try reflexivity; unfold bind; rewrite call_resolves by assumption;
    reflexivity.
Qed.

Lemma canary_suffix_by_cases_witness :
  outcome (canarySuffix (Some "42") None
             (call (GetSha true) (fun w => sha w true))
             (Scenario.collaborators Scenario.ci Scenario.nothing_fails "")
             (Scenario.start (Scenario.loaded Scenario.no_api_options
                                Hook.makeHooks)))
  = Returns ".42.1a2b3c4".
Proof.
  exact (canary_suffix_by_cases (Some "42") None
           (Scenario.collaborators Scenario.ci Scenario.nothing_fails "")
           (Scenario.start (Scenario.loaded Scenario.no_api_options
                              Hook.makeHooks))
           eq_refl).
Defined.


(** ** Issues closed by a released request (C1) *)

(** C1, at the input where the code departs from it. A release of version
    v1.1.0 contains the commit of request 5, whose description ends with
    the line [Fixes #10, #11]. The plugin collects issue 10 only: request 5
    and issue 10 receive the comment and the label, and nothing is written
    to issue 11. *)
Theorem released_reaches_first_issue_only :
  let w := Scenario.collaborators Scenario.ci Scenario.nothing_fails "minor" in
  let st := Scenario.start (Scenario.loaded Scenario.no_api_options
                              Scenario.released_hooks) in
  let r := ReleasedLabelPlugin.addReleased ReleasedLabelPlugin.defaultOptions
             Scenario.feature "v1.1.0" w st in
  ReleasedLabelPlugin.issues_of ["Fixes #10, #11"] = [10%N] /\
  outcome r = Returns tt /\
  filter (fun e => bool_decide (is_Some (written e))) (events r) =
    [Called (CreateComment ":rocket: PR was released in v1.1.0 :rocket:" 5
               "released");
     Called (AddLabelToPr 5 "released");
     Called (CreateComment ":rocket: Issue was released in v1.1.0 :rocket:"
               10 "released");
     Called (AddLabelToPr 10 "released")] /\
  labels_of (platform (final r)) 10 = ["released"] /\
  labels_of (platform (final r)) 11 = [].
Proof. vm_compute. repeat split. Qed.

(** ** Plugins and the configuration hook (C3) *)

(** C3, at the input where the code departs from it. The configuration
    names the "released" plugin and the engine is fresh. [loadConfig] calls
    [modifyConfig] before it loads the plugins: the handler of the plugin is
    tapped, but too late to run, and the configuration that [beforeRun]
    receives has no [released] label. *)
Theorem plugin_taps_modifyConfig_too_late :
  let w := Scenario.collaborators Scenario.ci Scenario.nothing_fails "minor" in
  let r := loadConfig w (Scenario.start (new_Auto Scenario.no_api_options)) in
  outcome r = Returns tt /\
  map fst (Hook.modifyConfig (this_hooks (auto (final r)))) =
    [ReleasedLabelPlugin.name] /\
  existsb (is_ran "modifyConfig" ReleasedLabelPlugin.name) (events r) = false /\
  firstn 3 (events r) =
    [Called ConfigLoad;
     Fired "modifyConfig" (Config (set_baseBranch Scenario.autorc "master"));
     Fired "beforeRun" (Config (set_baseBranch Scenario.autorc "master"))] /\
  (cfg_labels <$> this_config (auto (final r))) = Some ∅.
Proof. vm_compute. repeat split. Qed.

(** ** The configuration hook on a fresh engine *)

Lemma loadPlugins_other config : emits other_hook (loadPlugins config).
Proof. unfold loadPlugins. emits_auto. Qed.

Lemma getRepo_other config : emits other_hook (getRepo config).
Proof. unfold getRepo. emits_auto; cbn; congruence. Qed.

(** Whatever the collaborators answer, [loadConfig] on a fresh engine runs
    no handler of [modifyConfig]: the hook is called while it has no tap. *)
Lemma fresh_engine_runs_no_config_handler (options : ApiOptions) (w : World)
    (p : Platform) :
  Forall other_hook
    (events (loadConfig w {| auto := new_Auto options; platform := p |})).
Proof.
  unfold loadConfig. rewrite bind_this, bind_call.
  destruct (fails w ConfigLoad); [repeat constructor|].
  cbv beta. rewrite bind_emit.
  cbn [auto new_Auto this_hooks Hook.modifyConfig Hook.tap_onCreateRelease
       Hook.makeHooks waterfall].
  rewrite bind_ret.
  match goal with
  | |- Forall _ (events (prepend _ (prepend _ (?m _ _)))) =>
      assert (Hrest : emits other_hook m)
  end.
  { unfold startGit.
    emits_auto;
      first [apply loadPlugins_other | apply getRepo_other
            | cbn; congruence]. }
  cbn [prepend events app]. repeat constructor. apply Hrest.
Qed.

(** ** One issue for each keyword *)

Lemma fold_left_app_concat {A} (ls : list (list A)) (acc : list A) :
  fold_left (fun all arr => all ++ arr) ls acc = acc ++ concat ls.
Proof.
  revert acc. induction ls as [|l ls IH]; intros acc; cbn.
  - rewrite app_nil_r. reflexivity.
  - rewrite IH, app_assoc. reflexivity.
Qed.

Lemma length_omap_le {A B} (f : A -> option B) (l : list A) :
  length (omap f l) <= length l.
Proof.
  induction l as [|x l IH]; cbn; [lia|]. destruct (f x); cbn; lia.
Qed.

(** However many references follow a keyword, the text it matches yields at
    most one issue number. *)
Lemma one_issue_per_keyword (messages : list string) :
  length (ReleasedLabelPlugin.issues_of messages) <=
  length (keyword_matches messages).
Proof.
  unfold ReleasedLabelPlugin.issues_of, keyword_matches. cbv zeta.
  rewrite fold_left_app_concat. cbn [app].
  rewrite length_map. etransitivity; [apply length_omap_le|].
  rewrite length_map. reflexivity.
Qed.

(** ** A release of the version that is already out (C2) *)

(** C2 as stated fails on the code. With the new version and the last
    release both [v1.0.0], as [makeRelease] computes them in the scenario,
    no release is created, but [afterRelease] is not fired either. With
    both equal to [nightly], which is not a semantic version, the release
    is created. *)
Lemma same_version_counterexample :
  let w := Scenario.collaborators Scenario.ci Scenario.nothing_fails "minor" in
  let st := Scenario.start (Scenario.loaded Scenario.no_api_options
                              Scenario.released_hooks) in
  ~ skips_and_notifies (makeRelease default_options w st) /\
  ~ skips_and_notifies
      (createRelease default_options "v1.0.0" [Scenario.feature]
         "#### Enhancement" "v1.0.0" w st) /\
  ~ skips_and_notifies
      (createRelease default_options "nightly" [Scenario.feature]
         "#### Enhancement" "nightly" w st).
Proof.
  repeat split; intros [Hskip Hfired]; vm_compute in Hskip, Hfired;
    discriminate.
Qed.

(** C2, amended. In a run that is not a dry run, when the new version and
    the last release both parse as semantic versions and are equal as such,
    lines 964 to 995 of [makeRelease] log a warning and return nothing: no
    release is created on the hosting platform and [afterRelease] is not
    fired. *)
Theorem same_version_is_not_released (options : CommandOptions)
    (lastRelease : string) (commitsInRelease : list IExtendedCommit)
    (releaseNotes newVersion : string) (w : World) (st : St) :
  dryRun options = false ->
  semver_parse w newVersion = true ->
  semver_parse w lastRelease = true ->
  semver_eq w newVersion lastRelease = true ->
  createRelease options lastRelease commitsInRelease releaseNotes newVersion
    w st =
  Build_Run
    [Logged "warn"
       ["Nothing released to Github. Version to be released is the same as the latest release on Github: " +:+
        newVersion]]
    st (Returns None).
Proof.
  intros Hdry Hnew Hlast Heq. unfold createRelease.
  unfold bind at 1. unfold world at 1. cbn [outcome final events].
  rewrite Hdry, Hnew, Hlast, Heq. reflexivity.
Qed.

Lemma same_version_is_not_released_witness :
  createRelease default_options "v1.0.0" [Scenario.feature]
    "#### Enhancement" "1.0.0"
    (Scenario.collaborators Scenario.ci Scenario.nothing_fails "minor")
    (Scenario.start (Scenario.loaded Scenario.no_api_options
                       Scenario.released_hooks)) =
  Build_Run
    [Logged "warn"
       ["Nothing released to Github. Version to be released is the same as the latest release on Github: 1.0.0"]]
    (Scenario.start (Scenario.loaded Scenario.no_api_options
                       Scenario.released_hooks))
    (Returns None).
Proof.
  apply (same_version_is_not_released default_options "v1.0.0"
           [Scenario.feature] "#### Enhancement" "1.0.0"); reflexivity.
Defined.

(** ** The steps of [canary] *)

Lemma bind_canarySuffix {B} (pr build : option string) (f : string -> M B)
    w st :
  bind (canarySuffix pr build (call (GetSha true) (fun w => sha w true))) f
    w st =
  if JS.truthy pr && JS.truthy build
  then f (buildCanarySuffix pr build (sha w true)) w st
  else match fails w (GetSha true) with
       | Some e => Build_Run [Called (GetSha true)] st (Throws e)
       | None =>
           prepend [Called (GetSha true)]
             (f (buildCanarySuffix pr build (sha w true)) w st)
       end.
Proof.
  unfold canarySuffix, buildCanarySuffix.
  destruct (JS.truthy pr), (JS.truthy build); cbn [negb orb andb];
    run; try reflexivity; rewrite bind_call;
    destruct (fails w (GetSha true)); run; reflexivity.
Qed.

(** Up to its publishing step, [canary] asks for the commits since
    [HEAD^] and, when the request number or the build is missing, for the
    short sha. *)
Lemma canary_run (options : CommandOptions) (w : World) (st : St) :
  let pr := fst (canaryInfo (env w) options) in
  let build := snd (canaryInfo (env w) options) in
  initialized (auto st) = true ->
  Hook.isUsed (Hook.canary (this_hooks (auto st))) = true ->
  canary options w st =
  match fails w (GetCommitsInRelease "HEAD^" None) with
  | Some e =>
      Build_Run [Called (GetCommitsInRelease "HEAD^" None)] st (Throws e)
  | None =>
      match (if JS.truthy pr && JS.truthy build then None
             else fails w (GetSha true)) with
      | Some e =>
          Build_Run [Called (GetCommitsInRelease "HEAD^" None);
                     Called (GetSha true)] st (Throws e)
      | None =>
          prepend (Called (GetCommitsInRelease "HEAD^" None) ::
                   sha_events pr build)
            (publishCanary options pr
               (JS.or_string (canaryBump w (auto st)) SEMVER.patch)
               (buildCanarySuffix pr build (sha w true)) w st)
      end
  end.
Proof.
  intros pr build Hinit Hused. unfold canary. run.
  rewrite Hinit, Hused. cbn [negb]. run. rewrite bind_call.
  destruct (fails w (GetCommitsInRelease "HEAD^" None)); [reflexivity|].
  run. rewrite bind_canarySuffix. fold pr build. unfold sha_events.
  destruct (JS.truthy pr && JS.truthy build); [reflexivity|].
  destruct (fails w (GetSha true)); [reflexivity|].
  run. reflexivity.
Qed.

(** The publishing step of a run that is not a dry run. *)
Lemma publishCanary_run (options : CommandOptions) (pr : option string)
    (version suffix : string) (w : World) (st : St) :
  dryRun options = false ->
  exists r,
    publishCanary options pr version suffix w st =
    prepend (Fired "canary" (Strings [version; suffix]) ::
             map (Ran "canary")
               (consulted (Hook.canary (this_hooks (auto st)))
                  (version, suffix))) r /\
    (forall error,
       first_answer (Hook.canary (this_hooks (auto st))) (version, suffix) =
         Answer (Failed error) ->
       r = Build_Run [Logged "warn" [error]] st (Returns None)).
Proof.
  intros Hdry. unfold publishCanary. rewrite Hdry. run.
  rewrite bind_bail.
  destruct (first_answer (Hook.canary (this_hooks (auto st)))
              (version, suffix)) as [|[identifier|failure]|e] eqn:Hanswer.
  all: run.
  - eexists; split; [reflexivity|discriminate].
  - eexists; split; [reflexivity|discriminate].
  - exists (Build_Run [Logged "warn" [failure]] st (Returns None)); split.
    + unfold prepend, ret. cbn [events final outcome].
      rewrite app_nil_r, <- app_assoc. reflexivity.
    + intros error [= <-]. reflexivity.
  - exists (Build_Run [] st (Throws e)); split; [|discriminate].
    unfold prepend. cbn [events final outcome]. rewrite app_nil_r.
    reflexivity.
Qed.

Lemma canary_unused_run (options : CommandOptions) (w : World) (st : St) :
  initialized (auto st) = true ->
  Hook.isUsed (Hook.canary (this_hooks (auto st))) = false ->
  canary options w st =
  Build_Run [Logged "error" [noCanaryPlugin]] st (Exits 1).
Proof.
  intros Hinit Hunused. unfold canary. run.
  rewrite Hinit, Hunused. cbn [negb]. run. reflexivity.
Qed.

Lemma canary_uninitialized_run (options : CommandOptions) (w : World)
    (st : St) :
  initialized (auto st) = false ->
  canary options w st = Build_Run [] st (Throws createErrorMessage).
Proof.
  intros Hinit. unfold canary. run. rewrite Hinit. reflexivity.
Qed.

(** ** No plugin implements [canary] (C5) *)

(** C5. When no handler is tapped on the [canary] hook, every run of the
    canary command is refused before anything happens: it ends in
    [process.exit(1)] or in the error of an engine that is not initialised,
    the state is unchanged, and no collaborator or hook is called, so that
    no commit range is computed and nothing is done on the platform. On an
    initialised engine the run is exactly the error line that says that no
    plugin implements canary releases, followed by [process.exit(1)]. *)
Theorem canary_without_plugin_exits (options : CommandOptions) (w : World)
    (st : St) :
  Hook.isUsed (Hook.canary (this_hooks (auto st))) = false ->
  (outcome (canary options w st) = Exits 1 \/
   outcome (canary options w st) = Throws createErrorMessage) /\
  final (canary options w st) = st /\
  existsb reaches_out (events (canary options w st)) = false /\
  (initialized (auto st) = true ->
   canary options w st =
   Build_Run [Logged "error" [noCanaryPlugin]] st (Exits 1)).
Proof.
  intros Hunused. destruct (initialized (auto st)) eqn:Hinit.
  - rewrite canary_unused_run by assumption.
    repeat split; left; reflexivity.
  - rewrite canary_uninitialized_run by assumption.
    repeat split; [right; reflexivity|discriminate].
Qed.

Lemma canary_without_plugin_exits_witness :
  canary default_options
    (Scenario.collaborators Scenario.ci_pr Scenario.nothing_fails "minor")
    (Scenario.start (Scenario.loaded Scenario.no_api_options
                       Scenario.released_hooks))
  = Build_Run [Logged "error" [noCanaryPlugin]]
      (Scenario.start (Scenario.loaded Scenario.no_api_options
                         Scenario.released_hooks))
      (Exits 1).
Proof.
  apply canary_without_plugin_exits; reflexivity.
Defined.

(** ** The canary hook reports a failure (C6) *)

(** C6. In a run of the canary command that is not a dry run, when the
    [canary] hook is called with a version and a suffix for which its
    handlers answer with an object that carries an error message, the
    command returns nothing and does not throw, the state is unchanged, the
    error message is the last thing logged, as a warning, and neither the
    body of the request is updated nor a success reported. *)
Theorem canary_failure_is_reported (options : CommandOptions) (w : World)
    (st : St) (version suffix error : string) :
  dryRun options = false ->
  payload_of "canary" (events (canary options w st)) =
    Some (Strings [version; suffix]) ->
  first_answer (Hook.canary (this_hooks (auto st))) (version, suffix) =
    Answer (Failed error) ->
  outcome (canary options w st) = Returns None /\
  final (canary options w st) = st /\
  exists before,
    events (canary options w st) = before ++ [Logged "warn" [error]] /\
    existsb reports_canary before = false.
Proof.
  intros Hdry Hfired Hanswer.
  destruct (initialized (auto st)) eqn:Hinit.
  2:{ rewrite canary_uninitialized_run in Hfired by assumption.
      discriminate. }
  destruct (Hook.isUsed (Hook.canary (this_hooks (auto st)))) eqn:Hused.
  2:{ rewrite canary_unused_run in Hfired by assumption. discriminate. }
  rewrite canary_run in * by assumption.
  destruct (fails w (GetCommitsInRelease "HEAD^" None)); [discriminate|].
  set (pr := fst (canaryInfo (env w) options)) in *.
  set (build := snd (canaryInfo (env w) options)) in *.
  unfold sha_events in *.
  destruct (publishCanary_run options pr
              (JS.or_string (canaryBump w (auto st)) SEMVER.patch)
              (buildCanarySuffix pr build (sha w true)) w st Hdry)
    as (r & Hrun & Hfailed).
  rewrite Hrun in *. clear Hrun.
  destruct (JS.truthy pr && JS.truthy build).
  - cbn in Hfired. injection Hfired as <- <-.
    rewrite (Hfailed error Hanswer). cbn [prepend events final outcome].
    repeat split. eexists. split.
    + rewrite !app_assoc. reflexivity.
    + cbn [app existsb reports_canary orb]. apply existsb_Ran. reflexivity.
  - destruct (fails w (GetSha true)); [discriminate|].
    cbn in Hfired. injection Hfired as <- <-.
    rewrite (Hfailed error Hanswer). cbn [prepend events final outcome].
    repeat split. eexists. split.
    + rewrite !app_assoc. reflexivity.
    + cbn [app existsb reports_canary orb]. apply existsb_Ran. reflexivity.
Qed.

Lemma canary_failure_is_reported_witness :
  let w := Scenario.collaborators Scenario.ci_pr Scenario.nothing_fails "" in
  let st := Scenario.start (Scenario.loaded Scenario.no_api_options
                              Scenario.npm_fails) in
  outcome (canary default_options w st) = Returns None /\
  final (canary default_options w st) = st /\
  exists before,
    events (canary default_options w st) =
      before ++ [Logged "warn" ["No packages to publish"]] /\
    existsb reports_canary before = false.
Proof.
  apply (canary_failure_is_reported default_options
           (Scenario.collaborators Scenario.ci_pr Scenario.nothing_fails "")
           (Scenario.start (Scenario.loaded Scenario.no_api_options
                              Scenario.npm_fails))
           "patch" ".42.7" "No packages to publish"); reflexivity.
Defined.

(** ** No release warranted, in a canary (C10) *)

(** C10. When the bump that the version engine computes for the commits
    since [HEAD^] is the empty "no release" value, the canary command of
    an initialised engine with a canary plugin goes on with a patch bump,
    provided the commits and the short sha can be read: after these calls
    a dry run logs the identifier it would publish, and any other run calls
    the [canary] hook with [patch] and the suffix. *)
Theorem canary_defaults_to_patch (options : CommandOptions) (w : World)
    (st : St) :
  let pr := fst (canaryInfo (env w) options) in
  let build := snd (canaryInfo (env w) options) in
  let suffix := buildCanarySuffix pr build (sha w true) in
  initialized (auto st) = true ->
  Hook.isUsed (Hook.canary (this_hooks (auto st))) = true ->
  canaryBump w (auto st) = SEMVER.noVersion ->
  fails w (GetCommitsInRelease "HEAD^" None) = None ->
  fails w (GetSha true) = None ->
  exists after,
    events (canary options w st) =
    (Called (GetCommitsInRelease "HEAD^" None) :: sha_events pr build) ++
    (if dryRun options
     then Logged "warn" ["Published canary identifier would be: " +:+ dq +:+
                         "-canary" +:+ suffix +:+ dq]
     else Fired "canary" (Strings [SEMVER.patch; suffix])) :: after.
Proof.
  intros pr build suffix Hinit Hused Hbump Hhead Hsha.
  rewrite canary_run by assumption. rewrite Hhead, Hsha. fold pr build.
  replace (if JS.truthy pr && JS.truthy build then None else None)
    with (@None string) by (destruct (JS.truthy pr && JS.truthy build);
                            reflexivity).
  rewrite Hbump. fold suffix.
  change (JS.or_string SEMVER.noVersion SEMVER.patch) with SEMVER.patch.
  unfold publishCanary. destruct (dryRun options); run.
  - cbn [prepend events]. eexists. rewrite <- app_assoc. reflexivity.
  - cbn [prepend events]. eexists. rewrite <- app_assoc. reflexivity.
Qed.

Lemma canary_defaults_to_patch_witness :
  exists after,
    events (canary default_options
              (Scenario.collaborators Scenario.ci Scenario.nothing_fails "")
              (Scenario.start (Scenario.loaded Scenario.no_api_options
                                 Scenario.npm_publishes))) =
    [Called (GetCommitsInRelease "HEAD^" None); Called (GetSha true);
     Fired "canary" (Strings ["patch"; ".1a2b3c4"])] ++ after.
Proof.
  exact (canary_defaults_to_patch default_options
           (Scenario.collaborators Scenario.ci Scenario.nothing_fails "")
           (Scenario.start (Scenario.loaded Scenario.no_api_options
                              Scenario.npm_publishes))
           eq_refl eq_refl eq_refl eq_refl eq_refl).
Defined.

(** ** Dry runs (C7) *)

Lemma getPrNumber_quiet command pr : emits quiet (getPrNumber command pr).
Proof. unfold getPrNumber. emits_auto. Qed.

Lemma comment_quiet options : task_obeys (emitting quiet) (comment options).
Proof. unfold comment. emits_auto; apply getPrNumber_quiet. Qed.

Lemma addCommentAndLabel_quiet options version n isIssue :
  task_obeys (emitting quiet)
    (ReleasedLabelPlugin.addCommentAndLabel options version n isIssue).
Proof.
  unfold ReleasedLabelPlugin.addCommentAndLabel,
    ReleasedLabelPlugin.ensureLabel.
  emits_auto. apply comment_quiet.
Qed.

Lemma releaseIssues_quiet options version messages :
  task_obeys (emitting quiet)
    (ReleasedLabelPlugin.releaseIssues options version messages).
Proof.
  unfold ReleasedLabelPlugin.releaseIssues.
  emits_auto; apply addCommentAndLabel_quiet.
Qed.

Lemma addReleased_quiet options commit version :
  task_obeys (emitting quiet)
    (ReleasedLabelPlugin.addReleased options commit version).
Proof.
  unfold ReleasedLabelPlugin.addReleased.
  emits_auto;
    first [apply addCommentAndLabel_quiet | apply releaseIssues_quiet].
Qed.

Lemma plugin_afterRelease_quiet options payload :
  task_obeys (emitting quiet)
    (ReleasedLabelPlugin.afterRelease options payload).
Proof.
  unfold ReleasedLabelPlugin.afterRelease. emits_auto.
  all: apply addReleased_quiet.
Qed.

Lemma call_afterRelease_quiet h payload :
  emits quiet (call_afterRelease h payload).
Proof.
  unfold call_afterRelease. apply emits_bind; [apply emits_emit; reflexivity|].
  intros _. apply emits_parallel, each_map, each_all.
  intros [owner handler]. unfold run_afterRelease.
  cbn [fst snd]. emits_auto. apply plugin_afterRelease_quiet.
Qed.

Lemma prefixRelease_quiet release : emits quiet (prefixRelease release).
Proof. unfold prefixRelease. emits_auto. Qed.

Lemma getCurrentVersion_quiet lastRelease :
  emits quiet (getCurrentVersion lastRelease).
Proof. unfold getCurrentVersion. emits_auto. Qed.

Lemma getVersion_quiet from : emits quiet (getVersion from).
Proof. unfold getVersion. emits_auto. Qed.

Lemma setGitUser_quiet : emits quiet setGitUser.
Proof. unfold setGitUser. emits_auto. Qed.

Lemma makeChangelog_quiet options :
  dryRun options = true -> emits quiet (makeChangelog options).
Proof.
  intros Hdry. unfold makeChangelog. rewrite Hdry.
  emits_auto. apply setGitUser_quiet.
Qed.

Lemma createRelease_quiet options lastRelease commits notes newVersion :
  dryRun options = true ->
  emits quiet (createRelease options lastRelease commits notes newVersion).
Proof.
  intros Hdry. unfold createRelease. rewrite Hdry.
  emits_auto. all: apply call_afterRelease_quiet.
Qed.

Lemma makeRelease_quiet options :
  dryRun options = true -> emits quiet (makeRelease options).
Proof.
  intros Hdry. unfold makeRelease.
  emits_auto;
    first [apply prefixRelease_quiet | apply getCurrentVersion_quiet
          | apply createRelease_quiet; assumption].
Qed.

Lemma reportDryRun_quiet lastRelease version :
  emits quiet (reportDryRun lastRelease version).
Proof. unfold reportDryRun. emits_auto. apply getCurrentVersion_quiet. Qed.

Lemma publishLatest_quiet options :
  dryRun options = true -> emits quiet (publishLatest options).
Proof.
  intros Hdry. unfold publishLatest. rewrite Hdry. cbn [negb].
  emits_auto;
    first [apply getVersion_quiet | apply makeChangelog_quiet; assumption
          | apply makeRelease_quiet; assumption | apply reportDryRun_quiet].
Qed.

Lemma canarySuffix_quiet pr build :
  emits quiet (canarySuffix pr build (call (GetSha true) (fun w => sha w true))).
Proof. unfold canarySuffix. emits_auto. Qed.

Lemma publishCanary_quiet options pr version suffix :
  dryRun options = true ->
  emits quiet (publishCanary options pr version suffix).
Proof. intros Hdry. unfold publishCanary. rewrite Hdry. emits_auto. Qed.

Lemma canary_quiet options :
  dryRun options = true -> emits quiet (canary options).
Proof.
  intros Hdry. unfold canary.
  emits_auto;
    first [apply canarySuffix_quiet | apply publishCanary_quiet; assumption].
Qed.

Lemma shipit_quiet options :
  dryRun options = true -> emits quiet (shipit options).
Proof.
  intros Hdry. unfold shipit.
  emits_auto;
    first [apply publishLatest_quiet; assumption
          | apply canary_quiet; assumption].
Qed.

Lemma bind_returns_inv {A B} (m : M A) (f : A -> M B) w st b :
  outcome (bind m f w st) = Returns b ->
  exists a,
    outcome (m w st) = Returns a /\
    outcome (f a w (final (m w st))) = Returns b /\
    events (bind m f w st) =
      events (m w st) ++ events (f a w (final (m w st))).
Proof.
  unfold bind. destruct (outcome (m w st)) as [a|e|c]; cbn; try discriminate.
  intros H. exists a. repeat split. exact H.
Qed.

Lemma call_returns_inv {A} (c : Call) (answer : World -> A) w st a :
  outcome (call c answer w st) = Returns a ->
  a = answer w /\ final (call c answer w st) = st.
Proof.
  unfold call. cbn. destruct (fails w c); [discriminate|].
  intros [= <-]. split; reflexivity.
Qed.

Lemma getVersion_returns w st version :
  outcome (getVersion None w st) = Returns version ->
  version = semverBump w (latestRelease w) None.
Proof.
  unfold getVersion. rewrite bind_this.
  destruct (initialized (auto st)); cbn [negb]; [|discriminate].
  cbn [JS.truthy]. cbv iota.
  intros (last & Hlast & H & _)%bind_returns_inv.
  apply call_returns_inv in Hlast as [-> Hst]. rewrite Hst in H.
  apply bind_returns_inv in H as (bump & Hbump & H & _).
  apply call_returns_inv in Hbump as [-> Hst']. rewrite Hst' in H.
  revert H. run. cbn. intros [= <-]. reflexivity.
Qed.

Lemma same_previous_version_after {A} (m : M A) w st st' :
  obeys (relating same_previous_version) m ->
  same_previous_version st st' ->
  same_previous_version st (final (m w st')).
Proof.
  intros Hm H. exact (same_previous_version_trans _ _ _ H (Hm w st')).
Qed.

(** A dry run of the trunk path that returns ends with its report, in a
    state that gives the same previous version as the one it started in. *)
Lemma publishLatest_dry_ends_with_report options w st info :
  dryRun options = true ->
  outcome (publishLatest options w st) = Returns (Some info) ->
  exists before st',
    same_previous_version st st' /\
    events (publishLatest options w st) =
    before ++
    events (reportDryRun (latestRelease w)
              (semverBump w (latestRelease w) None) w st') /\
    exists u, outcome (reportDryRun (latestRelease w)
                         (semverBump w (latestRelease w) None) w st')
              = Returns u.
Proof.
  intros Hdry. unfold publishLatest. rewrite bind_this, Hdry.
  destruct (initialized (auto st)); cbn [negb]; [|discriminate].
  intros H. apply bind_returns_inv in H as (version & Hversion & H & ->).
  apply getVersion_returns in Hversion as Hv. subst version.
  destruct (String.eqb _ ""); [revert H; run; discriminate|].
  apply bind_returns_inv in H as (last & Hlast & H & ->).
  apply call_returns_inv in Hlast as [-> _].
  apply bind_returns_inv in H as (commits & _ & H & ->).
  apply bind_returns_inv in H as (? & _ & H & ->).
  apply bind_returns_inv in H as (? & _ & H & ->).
  apply bind_returns_inv in H as (newVersion & _ & H & ->).
  apply bind_returns_inv in H as (u & Hreport & H & ->).
  eexists. eexists. split; [|split].
  2: { rewrite !app_assoc. cbn [ret events]. rewrite app_nil_r. reflexivity. }
  2: { exists u. exact Hreport. }
  repeat (apply same_previous_version_after;
          [first [ apply makeRelease_relating
                 | apply makeChangelog_relating, Hdry
                 | apply getVersion_relating
                 | relating_auto ]|]).
  apply same_previous_version_refl.
Qed.

(** The report of a dry run: when the current version can be read and
    parses, the version that would be published is the last line. *)
Lemma reportDryRun_run lastRelease version w st u :
  outcome (reportDryRun lastRelease version w st) = Returns u ->
  exists current,
    outcome (getCurrentVersion lastRelease w st) = Returns current /\
    events (reportDryRun lastRelease version w st) =
    Logged "warn"
      ["The version reported in the line above hasn't been incremented during `dry-run`"]
    :: events (getCurrentVersion lastRelease w st) ++
    (if parses w current then [wouldBePublished w current version] else []).
Proof.
  unfold reportDryRun. rewrite bind_log. cbn [prepend outcome events app].
  intros (current & Hcurrent & H & ->)%bind_returns_inv.
  exists current. split; [exact Hcurrent|]. f_equal. f_equal.
  rewrite bind_world. destruct (parses w current); reflexivity.
Qed.
(** C7 as stated fails on the code, in both of its halves. A dry run of
    [shipit], started from the command line on the base branch of a CI
    build where no git identity is configured, writes the identity of the
    release options to the git configuration. And a dry run does not
    always report the incremented version: a dry run of [release] returns
    without such a line, and so does a dry run of [shipit] when the
    previous version that a plugin gives is not a semantic version. *)
Lemma dry_run_counterexample :
  let w := Scenario.collaborators Scenario.ci Scenario.no_git_identity
             "minor" in
  let st := Scenario.start (Scenario.loaded Scenario.cli_dry
                              Scenario.released_hooks) in
  let nightly := Scenario.start (Scenario.loaded Scenario.cli_dry
                                   Scenario.nightly_hooks) in
  dryRun Scenario.dry = true /\
  ~ Forall (fun e => mutating e = false) (events (shipit Scenario.dry w st)) /\
  outcome (runRelease Scenario.dry w st) = Returns tt /\
  existsb reports_increment (events (runRelease Scenario.dry w st)) = false /\
  outcome (shipit Scenario.dry w nightly) = Returns tt /\
  existsb reports_increment (events (shipit Scenario.dry w nightly)) = false.
Proof.
  cbv zeta. split; [reflexivity|]. split.
  { intros H. rewrite List.Forall_forall in H.
    specialize (H (Called (Exec "git" ["config"; "user.email";
                                      dq +:+ "bot@example.com" +:+ dq]))).
    assert (Hin : In (Called (Exec "git" ["config"; "user.email";
                                         dq +:+ "bot@example.com" +:+ dq]))
                    (events (shipit Scenario.dry
                               (Scenario.collaborators Scenario.ci
                                  Scenario.no_git_identity "minor")
                               (Scenario.start
                                  (Scenario.loaded Scenario.cli_dry
                                     Scenario.released_hooks))))).
    { vm_compute. repeat (first [left; reflexivity | right]). }
    specialize (H Hin). vm_compute in H. discriminate. }
  repeat split; vm_compute; reflexivity.
Qed.

(** C7, amended. In a dry run the [version], [afterVersion], [publish] and
    [afterPublish] hook points and the [canary] hook are not called, the
    changelog is neither written nor committed and no release is created on
    the hosting platform: this holds of [shipit], [changelog], [release]
    and [canary]. A dry run of the trunk path that finds a version bump
    and returns ends with its report: the warning that the version above
    has not been incremented, what reading the current version logs (the
    engine reads it as it would have at the start of the run), and then,
    exactly when the current version parses, the version that would be
    published, as the last line. *)
Theorem dry_run_holds_back (options : CommandOptions) (w : World) (st : St) :
  dryRun options = true ->
  Forall quiet (events (shipit options w st)) /\
  Forall quiet (events (changelog options w st)) /\
  Forall quiet (events (runRelease options w st)) /\
  Forall quiet (events (canary options w st)) /\
  forall info,
    outcome (publishLatest options w st) = Returns (Some info) ->
    exists before current,
      outcome (getCurrentVersion (latestRelease w) w st) = Returns current /\
      events (publishLatest options w st) =
        before ++
        Logged "warn"
          ["The version reported in the line above hasn't been incremented during `dry-run`"]
        :: events (getCurrentVersion (latestRelease w) w st) ++
        (if parses w current
         then [wouldBePublished w current (semverBump w (latestRelease w) None)]
         else []).
Proof.
  intros Hdry. repeat split.
  - apply shipit_quiet, Hdry.
  - apply makeChangelog_quiet, Hdry.
  - unfold runRelease. apply emits_bind; [apply makeRelease_quiet, Hdry|].
    intros _. apply emits_ret.
  - apply canary_quiet, Hdry.
  - intros info Hreturns.
    destruct (publishLatest_dry_ends_with_report options w st info Hdry
                Hreturns) as (before & st' & Hsame & Hevents & u & Hreport).
    destruct (reportDryRun_run _ _ _ _ _ Hreport) as (current & Hcurrent & Hrun).
    destruct (getCurrentVersion_again (latestRelease w) w st st' Hsame)
      as [Hevs Hout].
    exists before, current. split; [rewrite <- Hout; exact Hcurrent|].
    rewrite Hevents, Hrun, Hevs. reflexivity.
Qed.

Lemma dry_run_holds_back_witness :
  Forall quiet
    (events (shipit Scenario.dry
               (Scenario.collaborators Scenario.ci Scenario.no_git_identity
                  "minor")
               (Scenario.start (Scenario.loaded Scenario.cli_dry
                                  Scenario.released_hooks)))).
Proof.
  exact (proj1 (dry_run_holds_back Scenario.dry
                  (Scenario.collaborators Scenario.ci
                     Scenario.no_git_identity "minor")
                  (Scenario.start (Scenario.loaded Scenario.cli_dry
                                     Scenario.released_hooks))
                  eq_refl)).
Defined.

(** The end of a dry run of the trunk path: the last release is [v1.0.0]
    and the bump is [minor]. *)
Example dry_run_report :
  let r := publishLatest Scenario.dry
             (Scenario.collaborators Scenario.ci Scenario.nothing_fails
                "minor")
             (Scenario.start (Scenario.loaded Scenario.cli_dry
                                Scenario.released_hooks)) in
  last (events r) =
    Some (Logged "warn" ["Published version would be: 1.1.0"]).
Proof. vm_compute. reflexivity. Qed.

(** ** The label store of a run, compositionally *)

Section Keeps.

Variable I : Platform -> Prop.

Lemma keeps_ret {A} (a : A) : keeps I (ret a).
Proof. intros w st H. exact H. Qed.

Lemma keeps_throw {A} (e : string) : keeps I (@throw A e).
Proof. intros w st H. exact H. Qed.

Lemma keeps_this : keeps I this.
Proof. intros w st H. exact H. Qed.

Lemma keeps_world : keeps I world.
Proof. intros w st H. exact H. Qed.

Lemma keeps_emit (e : Event) : keeps I (emit e).
Proof. intros w st H. exact H. Qed.

Lemma keeps_log (level : string) (args : list string) : keeps I (log level args).
Proof. intros w st H. exact H. Qed.

Lemma keeps_call {A} (c : Call) (answer : World -> A) : keeps I (call c answer).
Proof. intros w st H. exact H. Qed.

Lemma keeps_getLabels (n : N) : keeps I (getLabels n).
Proof. intros w st H. exact H. Qed.

Lemma keeps_bind {A B} (m : M A) (f : A -> M B) :
  keeps I m -> (forall a, keeps I (f a)) -> keeps I (bind m f).
Proof.
  intros Hm Hf w st H. unfold bind. specialize (Hm w st H).
  destruct (outcome (m w st)); cbn [final]; try exact Hm.
  apply Hf, Hm.
Qed.

Lemma keeping_composes : composes (keeping I).
Proof.
  split; [intros st H; exact H|].
  intros st evs st' evs' st'' H H' Hst. apply H', H, Hst.
Qed.

Lemma keeps_parallel (callbacks : list Task) :
  each (task_obeys (keeping I)) callbacks -> keeps I (parallel callbacks).
Proof. apply (parallel_obeys (keeping I) keeping_composes). Qed.

Lemma keeps_alone (t : Task) : task_obeys (keeping I) t -> keeps I (alone t).
Proof. apply (alone_obeys (keeping I) keeping_composes). Qed.

End Keeps.

Ltac keeps_step :=
  lazymatch goal with
  | |- keeps _ (alone _) => apply keeps_alone
  | |- obeys (keeping ?I) ?m => change (keeps I m)
  | |- keeps _ (bind _ _) => apply keeps_bind; [|intro]
  | |- keeps _ (ret _) => apply keeps_ret
  | |- keeps _ (throw _) => apply keeps_throw
  | |- keeps _ this => apply keeps_this
  | |- keeps _ world => apply keeps_world
  | |- keeps _ (emit _) => apply keeps_emit
  | |- keeps _ (log _ _) => apply keeps_log
  | |- keeps _ (call _ _) => apply keeps_call
  | |- keeps _ (getLabels _) => apply keeps_getLabels
  | |- keeps _ (if ?b then _ else _) => destruct b
  | |- keeps _ (match ?x with _ => _ end) => destruct x
  | |- keeps _ (let _ := _ in _) => cbv zeta
  end.

Ltac keeps_auto := repeat first [task_step | keeps_step]; eauto.

Lemma comment_keeps I options : task_obeys (keeping I) (comment options).
Proof. unfold comment, getPrNumber. keeps_auto. Qed.

(** ** Ensuring the label (C9) *)

Lemma existsb_eqb_false (l : string) (ls : list string) :
  existsb (String.eqb l) ls = false -> l ∉ ls.
Proof.
  induction ls as [|x ls IH]; cbn; [intros _; apply not_elem_of_nil|].
  intros [Hx Hls]%orb_false_iff. apply not_elem_of_cons. split.
  - apply String.eqb_neq, Hx.
  - apply IH, Hls.
Qed.

Lemma add_label_no_duplicates (p : Platform) (n : N) (l : string) :
  no_duplicates p -> l ∉ labels_of p n -> no_duplicates (add_label p n l).
Proof.
  intros Hp Hl m. unfold labels_of at 1. unfold add_label.
  destruct (decide (n = m)) as [->|Hne].
  - rewrite lookup_insert_eq. cbn. apply NoDup_app. repeat split.
    + apply Hp.
    + intros x Hx ->%list_elem_of_singleton. exact (Hl Hx).
    + apply NoDup_singleton.
  - rewrite lookup_insert_ne by exact Hne. apply Hp.
Qed.

(** What [ensureLabel] does when nothing else runs in between: it reads
    the labels, and adds the label when the read succeeds and the label is
    not among them. *)
Lemma ensureLabel_run options n w st :
  ReleasedLabelPlugin.ensureLabel options n w st =
  match fails w (GetLabels n) with
  | Some e => Build_Run [Called (GetLabels n)] st (Throws e)
  | None =>
      if existsb (String.eqb (label options)) (labels_of (platform st) n)
      then Build_Run [Called (GetLabels n)] st (Returns tt)
      else
        match fails w (AddLabelToPr n (label options)) with
        | Some e =>
            Build_Run [Called (GetLabels n);
                       Called (AddLabelToPr n (label options))] st (Throws e)
        | None =>
            Build_Run [Called (GetLabels n);
                       Called (AddLabelToPr n (label options))]
              {| auto := auto st;
                 platform := add_label (platform st) n (label options) |}
              (Returns tt)
        end
  end.
Proof.
  unfold ReleasedLabelPlugin.ensureLabel. cbn [alone].
  unfold bind, getLabels. cbn [outcome events final].
  destruct (fails w (GetLabels n)); [reflexivity|]. cbn [outcome events final].
  destruct (existsb _ _); cbn [negb alone]; [reflexivity|].
  unfold bind, addLabelToPr.
  destruct (fails w (AddLabelToPr n (label options))); reflexivity.
Qed.

Lemma ensureLabel_keeps options n :
  keeps no_duplicates (alone (ReleasedLabelPlugin.ensureLabel options n)).
Proof.
  intros w st H. rewrite ensureLabel_run.
  destruct (fails w (GetLabels n)); [exact H|].
  destruct (existsb _ _) eqn:Habsent; [exact H|].
  destruct (fails w (AddLabelToPr n (label options))); [exact H|].
  cbn [final platform]. apply add_label_no_duplicates; [exact H|].
  apply existsb_eqb_false, Habsent.
Qed.

Lemma addCommentAndLabel_keeps options version n isIssue :
  keeps no_duplicates
    (alone (ReleasedLabelPlugin.addCommentAndLabel options version n isIssue)).
Proof.
  unfold ReleasedLabelPlugin.addCommentAndLabel. cbv zeta.
  intros w st. rewrite alone_and_then. revert w st.
  apply keeps_bind; [apply keeps_alone, comment_keeps|]. intros _.
  destruct (ReleasedLabelPlugin.isCanary version);
    [apply keeps_ret|apply ensureLabel_keeps].
Qed.

Lemma after_calls_keeps {A} (I : Platform -> Prop) (m : M A) k w st :
  keeps I m -> I (platform st) -> I (platform (after_calls k m w st)).
Proof.
  intros Hm Hst. induction k as [|k IH]; [exact Hst|].
  cbn [after_calls Nat.iter]. apply Hm, IH.
Qed.

(** Calls of the label step that are made one after the other, each one
    complete before the next one starts, never leave a label twice. *)
Lemma one_after_the_other (options : IReleasedLabelPluginOptions)
    (version : string) (n : N) (isIssue : bool) (k : nat) (w : World)
    (st : St) :
  no_duplicates (platform st) ->
  no_duplicates
    (platform
       (after_calls k (alone (ReleasedLabelPlugin.ensureLabel options n)) w st))
  /\
  no_duplicates
    (platform
       (after_calls k
          (alone (ReleasedLabelPlugin.addCommentAndLabel options version n
                    isIssue))
          w st)).
Proof.
  intros Hst. split.
  - apply after_calls_keeps; [apply ensureLabel_keeps|exact Hst].
  - apply after_calls_keeps; [apply addCommentAndLabel_keeps|exact Hst].
Qed.

(** C9. The label step reads the labels of its target and adds the label
    when it is absent, but the calls of the release announcement are not
    made one after the other: [Promise.all] starts one callback for every
    mention of an issue. Request 5 closes issue 10 in its description and
    in the message of its commit, so two callbacks are started for issue
    10; when both have read the labels before either adds the label, both
    add it, and the issue carries the label twice. *)
Theorem ensure_label_adds_twice :
  let w := Scenario.resumed [0; 1; 0; 1]%nat
             (Scenario.closing_twice
                (Scenario.collaborators Scenario.ci Scenario.nothing_fails
                   "minor")) in
  let st := Scenario.start (Scenario.loaded Scenario.no_api_options
                              Scenario.released_hooks) in
  let r := ReleasedLabelPlugin.addReleased ReleasedLabelPlugin.defaultOptions
             Scenario.feature "v1.1.0" w st in
  ReleasedLabelPlugin.issues_of (messages_of w Scenario.feature)
    = [10%N; 10%N] /\
  no_duplicates (platform st) /\
  outcome r = Returns tt /\
  label_calls (events r) =
    [Called (GetLabels 5); Called (AddLabelToPr 5 "released");
     Called (GetLabels 10); Called (GetLabels 10);
     Called (AddLabelToPr 10 "released");
     Called (AddLabelToPr 10 "released")] /\
  labels_of (platform (final r)) 10 = ["released"; "released"] /\
  ~ no_duplicates (platform (final r)).
Proof.
  cbv zeta. split; [vm_compute; reflexivity|].
  split; [intros n; vm_compute; constructor|].
  split; [vm_compute; reflexivity|].
  split; [vm_compute; reflexivity|].
  assert (Htwice :
            labels_of
              (platform
                 (final
                    (ReleasedLabelPlugin.addReleased
                       ReleasedLabelPlugin.defaultOptions Scenario.feature
                       "v1.1.0"
                       (Scenario.resumed [0; 1; 0; 1]%nat
                          (Scenario.closing_twice
                             (Scenario.collaborators Scenario.ci
                                Scenario.nothing_fails "minor")))
                       (Scenario.start
                          (Scenario.loaded Scenario.no_api_options
                             Scenario.released_hooks))))) 10
            = ["released"; "released"])
    by (vm_compute; reflexivity).
  split; [exact Htwice|].
  intros Hno. specialize (Hno 10%N). rewrite Htwice in Hno.
  apply NoDup_cons in Hno as [Hnot _]. apply Hnot, list_elem_of_here.
Qed.

(** The same release when every callback completes before the next one
    is resumed: issue 10 carries the label once. *)
Example in_turn_one_label :
  labels_of
    (platform
       (final
          (ReleasedLabelPlugin.addReleased ReleasedLabelPlugin.defaultOptions
             Scenario.feature "v1.1.0"
             (Scenario.closing_twice
                (Scenario.collaborators Scenario.ci Scenario.nothing_fails
                   "minor"))
             (Scenario.start (Scenario.loaded Scenario.no_api_options
                                Scenario.released_hooks))))) 10
  = ["released"].
Proof. vm_compute. reflexivity. Qed.
(** ** Canary releases (C8) *)

Lemma comment_unlabelled options :
  task_obeys (emitting unlabelled) (comment options).
Proof. unfold comment, getPrNumber. emits_auto. Qed.

Lemma addCommentAndLabel_canary_unlabelled options version n isIssue :
  ReleasedLabelPlugin.isCanary version = true ->
  task_obeys (emitting unlabelled)
    (ReleasedLabelPlugin.addCommentAndLabel options version n isIssue).
Proof.
  intros Hcanary. unfold ReleasedLabelPlugin.addCommentAndLabel.
  rewrite Hcanary. emits_auto. apply comment_unlabelled.
Qed.

Lemma addCommentAndLabel_canary_keeps I options version n isIssue :
  ReleasedLabelPlugin.isCanary version = true ->
  task_obeys (keeping I)
    (ReleasedLabelPlugin.addCommentAndLabel options version n isIssue).
Proof.
  intros Hcanary. unfold ReleasedLabelPlugin.addCommentAndLabel.
  rewrite Hcanary. keeps_auto. apply comment_keeps.
Qed.

Lemma releaseIssues_canary_unlabelled options version messages :
  ReleasedLabelPlugin.isCanary version = true ->
  task_obeys (emitting unlabelled)
    (ReleasedLabelPlugin.releaseIssues options version messages).
Proof.
  intros Hcanary. unfold ReleasedLabelPlugin.releaseIssues.
  rewrite Hcanary, andb_false_r. emits_auto.
  apply addCommentAndLabel_canary_unlabelled, Hcanary.
Qed.

Lemma releaseIssues_canary_keeps I options version messages :
  ReleasedLabelPlugin.isCanary version = true ->
  task_obeys (keeping I)
    (ReleasedLabelPlugin.releaseIssues options version messages).
Proof.
  intros Hcanary. unfold ReleasedLabelPlugin.releaseIssues.
  rewrite Hcanary, andb_false_r. keeps_auto.
  apply addCommentAndLabel_canary_keeps, Hcanary.
Qed.

Lemma addReleased_canary_unlabelled options commit version :
  ReleasedLabelPlugin.isCanary version = true ->
  task_obeys (emitting unlabelled)
    (ReleasedLabelPlugin.addReleased options commit version).
Proof.
  intros Hcanary. unfold ReleasedLabelPlugin.addReleased. emits_auto.
  - apply addCommentAndLabel_canary_unlabelled, Hcanary.
  - apply releaseIssues_canary_unlabelled, Hcanary.
  - apply releaseIssues_canary_unlabelled, Hcanary.
Qed.

Lemma addReleased_canary_keeps I options commit version :
  ReleasedLabelPlugin.isCanary version = true ->
  task_obeys (keeping I)
    (ReleasedLabelPlugin.addReleased options commit version).
Proof.
  intros Hcanary. unfold ReleasedLabelPlugin.addReleased. keeps_auto.
  - apply addCommentAndLabel_canary_keeps, Hcanary.
  - apply releaseIssues_canary_keeps, Hcanary.
  - apply releaseIssues_canary_keeps, Hcanary.
Qed.

Lemma plugin_afterRelease_canary_unlabelled options payload version :
  ar_newVersion payload = Some version ->
  ReleasedLabelPlugin.isCanary version = true ->
  task_obeys (emitting unlabelled)
    (ReleasedLabelPlugin.afterRelease options payload).
Proof.
  intros Hversion Hcanary. unfold ReleasedLabelPlugin.afterRelease.
  rewrite Hversion. cbn [JS.show default from_option]. unfold id.
  emits_auto.
  all: apply addReleased_canary_unlabelled, Hcanary.
Qed.

Lemma plugin_afterRelease_canary_keeps I options payload version :
  ar_newVersion payload = Some version ->
  ReleasedLabelPlugin.isCanary version = true ->
  task_obeys (keeping I) (ReleasedLabelPlugin.afterRelease options payload).
Proof.
  intros Hversion Hcanary. unfold ReleasedLabelPlugin.afterRelease.
  rewrite Hversion. cbn [JS.show default from_option]. unfold id.
  keeps_auto.
  all: apply addReleased_canary_keeps, Hcanary.
Qed.

Lemma getPrNumber_given (command : string) (n : N) w st :
  n <> 0%N ->
  getPrNumber command (Some n) w st = Build_Run [] st (Returns n).
Proof.
  intros Hn. apply N.eqb_neq in Hn.
  unfold getPrNumber, getPrNumberFromEnv, bind, world.
  cbn [outcome events final JS.truthy_number]. rewrite Hn.
  cbn [negb JS.truthy_number]. rewrite Hn. reflexivity.
Qed.

(** A comment on a target that exists, with a text that is not empty: the
    callback is calm, and these are its events. *)
Lemma comment_posts (text context : string) (n : N) w st :
  defined (this_git (auto st)) = true ->
  n <> 0%N ->
  JS.truthy_string text = true ->
  fails w (CreateComment text n context) = None ->
  let t := comment {| co_message := Some text; co_pr := Some n;
                      co_context := Some context; co_dryRun := false;
                      co_delete := false; co_edit := false |} in
  task_calm w st t /\
  in_order w st t =
    [Called (CreateComment text n context);
     Logged "success" ["Commented on PR #" +:+ JS.String_of_N n]].
Proof.
  intros Hgit Hn Htext Hcall. cbv zeta. unfold comment.
  cbn [co_message co_pr co_context co_dryRun co_delete co_edit].
  cbn [task_calm in_order this outcome events final]. rewrite Hgit.
  cbn [negb task_calm in_order]. rewrite (getPrNumber_given _ _ _ _ Hn).
  cbn [outcome events final andb JS.truthy and_then]. rewrite Htext.
  cbn [task_calm in_order atomic call log emit outcome events final
       JS.show default from_option]. unfold id. rewrite Hcall.
  cbn [task_calm in_order atomic call log emit outcome events final].
  repeat split.
Qed.

Lemma addCommentAndLabel_canary_posts options version n isIssue w st :
  ReleasedLabelPlugin.isCanary version = true ->
  defined (this_git (auto st)) = true ->
  n <> 0%N ->
  JS.truthy_string
    (ReleasedLabelPlugin.createReleasedComment options isIssue version) = true ->
  fails w (CreateComment
             (ReleasedLabelPlugin.createReleasedComment options isIssue version)
             n "released") = None ->
  let t := ReleasedLabelPlugin.addCommentAndLabel options version n isIssue in
  task_calm w st t /\
  in_order w st t = announcement options version n isIssue.
Proof.
  intros Hcanary Hgit Hn Htext Hcall. cbv zeta.
  unfold ReleasedLabelPlugin.addCommentAndLabel. cbv zeta. rewrite Hcanary.
  destruct (comment_posts _ "released" n w st Hgit Hn Htext Hcall)
    as [Hcalm Horder].
  destruct (and_then_calm w st _ Return Hcalm I) as [Hcalm' Horder'].
  split; [exact Hcalm'|].
  rewrite Horder', Horder. cbn [in_order]. apply app_nil_r.
Qed.

Lemma calm_map {X} (f : X -> Task) (g : X -> list Event) (xs : list X) w st :
  (forall x, In x xs -> task_calm w st (f x) /\ in_order w st (f x) = g x) ->
  each (task_calm w st) (map f xs) /\
  concat (map (in_order w st) (map f xs)) = concat (map g xs).
Proof.
  induction xs as [|x xs IH]; intros H; [split; reflexivity|].
  destruct (H x (or_introl eq_refl)) as [Hcalm Horder].
  destruct IH as [Hcalms Horders]; [intros y Hy; apply H; right; exact Hy|].
  cbn [map each concat]. rewrite Horder, Horders. repeat split; assumption.
Qed.

Lemma find_absent {A} (f : A -> bool) (l : list A) :
  existsb f l = false -> List.find f l = None.
Proof.
  induction l as [|x l IH]; cbn; [reflexivity|].
  intros [-> Hl]%orb_false_iff. apply IH, Hl.
Qed.

Lemma canary_truthy (version : string) :
  ReleasedLabelPlugin.isCanary version = true ->
  JS.truthy (Some version) = true.
Proof. destruct version; [discriminate|reflexivity]. Qed.

Section Announced.

Variables (options : IReleasedLabelPluginOptions) (version : string).
Variables (w : World) (st : St).
Hypothesis canary : ReleasedLabelPlugin.isCanary version = true.
Hypothesis git : defined (this_git (auto st)) = true.
Hypothesis answers : forall c, fails w c = None.
Hypothesis text :
  forall isIssue,
    JS.truthy_string
      (ReleasedLabelPlugin.createReleasedComment options isIssue version)
    = true.

Lemma releaseIssues_canary_posts (messages : list string) :
  Forall (fun n => n <> 0%N) (ReleasedLabelPlugin.issues_of messages) ->
  let t := ReleasedLabelPlugin.releaseIssues options version messages in
  task_calm w st t /\
  in_order w st t =
    concat (map (fun issue => announcement options version issue true)
              (ReleasedLabelPlugin.issues_of messages)).
Proof.
  intros Hnumbered. cbv zeta. unfold ReleasedLabelPlugin.releaseIssues.
  rewrite canary, andb_false_r. cbn [task_calm in_order].
  rewrite List.Forall_forall in Hnumbered.
  destruct (calm_map
              (fun issue =>
                 and_then
                   (ReleasedLabelPlugin.addCommentAndLabel options version
                      issue true) Return)
              (fun issue => announcement options version issue true)
              (ReleasedLabelPlugin.issues_of messages) w st)
    as [Hcalm Horder].
  { intros issue Hin.
    destruct (addCommentAndLabel_canary_posts options version issue true
                w st canary git (Hnumbered issue Hin) (text true)
                (answers _)) as [Hcalm Horder].
    destruct (and_then_calm w st _ Return Hcalm I) as [Hcalm' Horder'].
    split; [exact Hcalm'|].
    rewrite Horder', Horder. cbn [in_order]. apply app_nil_r. }
  split; [split; [exact Hcalm|exact I]|].
  rewrite Horder. apply app_nil_r.
Qed.

Lemma addReleased_canary_posts (commit : IExtendedCommit) :
  targets_numbered w commit ->
  let t := ReleasedLabelPlugin.addReleased options commit version in
  task_calm w st t /\
  in_order w st t = announcements options version w commit.
Proof.
  intros [Hpr Hissues]. cbv zeta.
  unfold ReleasedLabelPlugin.addReleased, announcements, messages_of in *.
  destruct (pullRequest commit) as [number|].
  - destruct (addCommentAndLabel_canary_posts options version number false
                w st canary git) as [Hcalm Horder];
      [congruence|apply text|apply answers|].
    destruct (releaseIssues_canary_posts _ Hissues) as [Hcalm' Horder'].
    match goal with
    | |- task_calm _ _ (and_then _ ?k) /\ _ =>
        destruct (and_then_calm w st _ k Hcalm) as [Hcalm'' Horder'']
    end.
    { cbn [task_calm call outcome final]. rewrite !answers.
      split; [reflexivity|]. split; [reflexivity|]. exact Hcalm'. }
    split; [exact Hcalm''|].
    rewrite Horder'', Horder. cbn [in_order call outcome events].
    rewrite !answers.
    change (in_order w st (All ?cs ?k)) with
      (in_order w st
         (ReleasedLabelPlugin.releaseIssues options version
            ([subject commit] ++
             JS.split_on "010" (pr_body (pullRequests w number)) ++
             commitsForPR w number))).
    rewrite Horder'. rewrite <- !app_assoc. reflexivity.
  - apply releaseIssues_canary_posts, Hissues.
Qed.

Lemma plugin_afterRelease_canary_posts (payload : AfterRelease)
    (release : ReleaseOptions) :
  ar_newVersion payload = Some version ->
  default false (api_dryRun (this_options (auto st))) = false ->
  this_release (auto st) = Some release ->
  (forall head rest,
     ar_commits payload = head :: rest ->
     carries_skip_label release head = false) ->
  Forall (targets_numbered w) (ar_commits payload) ->
  let t := ReleasedLabelPlugin.afterRelease options payload in
  task_calm w st t /\
  in_order w st t =
    concat (map (announcements options version w) (ar_commits payload)).
Proof.
  intros Hversion Hlive Hrelease Hhead Hnumbered. cbv zeta.
  unfold ReleasedLabelPlugin.afterRelease. rewrite Hversion.
  rewrite (canary_truthy _ canary).
  change (JS.show (Some version)) with version.
  cbn [negb task_calm in_order this outcome events final]. rewrite Hlive.
  destruct (ar_commits payload) as [|head rest] eqn:Hcommits;
    [repeat split|].
  assert (Hskipped :
            match labels head with
            | [] => ret None
            | _ :: _ =>
                match this_release (auto st) with
                | Some release0 =>
                    ret (List.find
                           (fun label =>
                              existsb (String.eqb label)
                                (skipReleaseLabels release0))
                           (labels head))
                | None =>
                    throw
                      "TypeError: Cannot read property 'options' of undefined"
                end
            end w st = Build_Run [] st (Returns (@None string))).
  { specialize (Hhead head rest eq_refl). unfold carries_skip_label in Hhead.
    rewrite Hrelease. destruct (labels head); [reflexivity|].
    rewrite (find_absent _ _ Hhead). reflexivity. }
  cbn [task_calm in_order]. rewrite Hskipped.
  cbn [outcome events final JS.truthy task_calm in_order].
  rewrite <- Hcommits.
  destruct (calm_map
              (fun commit =>
                 ReleasedLabelPlugin.addReleased options commit version)
              (announcements options version w) (ar_commits payload) w st)
    as [Hcalm Horder].
  { intros commit Hin. apply addReleased_canary_posts.
    rewrite List.Forall_forall in Hnumbered. apply Hnumbered.
    rewrite <- Hcommits. exact Hin. }
  split; [repeat split; exact Hcalm|].
  rewrite Horder. cbn [app]. apply app_nil_r.
Qed.

End Announced.

(** C8. For a release whose version is a canary version, the handler that
    the plugin taps on [afterRelease] never adds a label and never locks
    an issue, whatever [lockIssues] says and in whatever order the
    callbacks of [Promise.all] are resumed, and it leaves the label store
    as it is; so does the release announcement of every single commit.
    When the engine is not in dry-run mode, the head commit carries no
    skip label, the hosting client answers every call, the comment is not
    empty and the targets are numbers of requests and issues (not 0), the
    handler resolves, and what it does is exactly, up to the order in which
    the callbacks are resumed: for every commit the comment on the request
    of the commit, the two reads of that request, and the comment on every
    issue collected from its messages. *)
Theorem canary_release_is_announced_only
    (options : IReleasedLabelPluginOptions) (payload : AfterRelease)
    (version : string) (w : World) (st : St) :
  ar_newVersion payload = Some version ->
  ReleasedLabelPlugin.isCanary version = true ->
  let r := ReleasedLabelPlugin.afterRelease options payload w st in
  Forall unlabelled (events r) /\
  platform (final r) = platform st /\
  (forall commit,
     let r := ReleasedLabelPlugin.addReleased options commit version w st in
     Forall unlabelled (events r) /\ platform (final r) = platform st) /\
  (forall release,
     defined (this_git (auto st)) = true ->
     default false (api_dryRun (this_options (auto st))) = false ->
     this_release (auto st) = Some release ->
     (forall head rest,
        ar_commits payload = head :: rest ->
        carries_skip_label release head = false) ->
     (forall c, fails w c = None) ->
     (forall isIssue,
        JS.truthy_string
          (ReleasedLabelPlugin.createReleasedComment options isIssue version)
        = true) ->
     Forall (targets_numbered w) (ar_commits payload) ->
     outcome r = Returns tt /\
     final r = st /\
     Permutation (events r)
       (concat (map (announcements options version w) (ar_commits payload)))).
Proof.
  intros Hversion Hcanary r. split; [|split; [|split]].
  - apply emits_alone.
    apply (plugin_afterRelease_canary_unlabelled options payload version);
      assumption.
  - apply (keeps_alone (fun p => p = platform st)); [|reflexivity].
    apply (plugin_afterRelease_canary_keeps _ options payload version);
      assumption.
  - intros commit r'. split.
    + apply emits_alone, addReleased_canary_unlabelled, Hcanary.
    + apply (keeps_alone (fun p => p = platform st)); [|reflexivity].
      apply addReleased_canary_keeps, Hcanary.
  - intros release Hgit Hlive Hrelease Hhead Hcalls Htext Hnumbered.
    destruct (plugin_afterRelease_canary_posts options version w st Hcanary
                Hgit Hcalls Htext payload release Hversion Hlive Hrelease
                Hhead Hnumbered) as [Hcalm Horder].
    destruct (alone_calm w st _ Hcalm) as (evs & Hrun & Hevs).
    subst r. rewrite Hrun. cbn [outcome final events].
    rewrite <- Horder. repeat split. exact Hevs.
Qed.

Lemma canary_release_is_announced_only_witness :
  let w := Scenario.resumed [0; 3; 1; 0; 2]%nat
             (Scenario.collaborators Scenario.ci Scenario.nothing_fails
                "minor") in
  let st := Scenario.start (Scenario.loaded Scenario.no_api_options
                              Scenario.released_hooks) in
  let options := ReleasedLabelPlugin.constructor
                   {| given_message := None; given_label := None;
                      given_lockIssues := Some true |} in
  let payload := Scenario.canary_released in
  let r := ReleasedLabelPlugin.afterRelease options payload w st in
  Forall unlabelled (events r) /\
  outcome r = Returns tt /\
  Permutation (events r)
    ((announcement options "1.0.1-canary.5.7" 5 false ++
      [Called (GetPullRequest 5); Called (GetCommitsForPR 5)] ++
      announcement options "1.0.1-canary.5.7" 10 true) ++
     announcement options "1.0.1-canary.5.7" 12 true ++
     announcement options "1.0.1-canary.5.7" 10 true).
Proof.
  intros w st options payload r.
  pose proof (canary_release_is_announced_only options payload
                "1.0.1-canary.5.7" w st eq_refl eq_refl)
    as (Hsafe & _ & _ & Hlive).
  split; [exact Hsafe|].
  destruct (Hlive Scenario.options_of_release eq_refl eq_refl eq_refl)
    as (Hreturns & _ & Hevents).
  - intros head rest [= <- _]. reflexivity.
  - intros c. reflexivity.
  - intros []; reflexivity.
  - repeat constructor; try discriminate.
    all: vm_compute; repeat constructor; discriminate.
  - split; [exact Hreturns|]. exact Hevents.
Defined.

(** The canary release of request 5 and of a commit without a request,
    when every callback that waits is left to the end: the comments of the
    two commits are sent before any of them is answered. *)
Example canary_announcement :
  events
    (ReleasedLabelPlugin.afterRelease
       (ReleasedLabelPlugin.constructor
          {| given_message := None; given_label := None;
             given_lockIssues := Some true |})
       Scenario.canary_released
       (Scenario.collaborators Scenario.ci Scenario.nothing_fails "minor")
       (Scenario.start (Scenario.loaded Scenario.no_api_options
                          Scenario.released_hooks)))
  = [Called (CreateComment
               ":rocket: PR was released in 1.0.1-canary.5.7 :rocket:" 5
               "released");
     Called (CreateComment
               ":rocket: Issue was released in 1.0.1-canary.5.7 :rocket:" 12
               "released");
     Called (CreateComment
               ":rocket: Issue was released in 1.0.1-canary.5.7 :rocket:" 10
               "released");
     Logged "success" ["Commented on PR #5"];
     Called (GetPullRequest 5); Called (GetCommitsForPR 5);
     Called (CreateComment
               ":rocket: Issue was released in 1.0.1-canary.5.7 :rocket:" 10
               "released");
     Logged "success" ["Commented on PR #10"];
     Logged "success" ["Commented on PR #12"];
     Logged "success" ["Commented on PR #10"]].
Proof. vm_compute. reflexivity. Qed.

(** ** The number of the request *)

(** X1. [getPrNumber] calls nothing and changes nothing; what it returns is
    never 0, and a number given by the user, if it is not 0, is returned
    whatever the CI environment says. *)
Theorem getPrNumber_explicit_or_env (command : string) (pr : option N)
    (w : World) (st : St) :
  events (getPrNumber command pr w st) = [] /\
  final (getPrNumber command pr w st) = st /\
  (forall n, outcome (getPrNumber command pr w st) = Returns n -> n <> 0%N) /\
  (forall n, pr = Some n -> n <> 0%N ->
             outcome (getPrNumber command pr w st) = Returns n).
Proof.
  unfold getPrNumber. rewrite bind_world.
  destruct (JS.truthy_number (getPrNumberFromEnv (env w) pr)) eqn:Htruthy;
    cbn [negb].
  - repeat split.
    + intros n [= <-]. destruct (getPrNumberFromEnv (env w) pr) as [m|];
        [|discriminate]. cbn in Htruthy |- *.
      apply negb_true_iff, N.eqb_neq in Htruthy. exact Htruthy.
    + intros n -> Hn. unfold getPrNumberFromEnv. cbn [JS.truthy_number].
      apply N.eqb_neq in Hn. rewrite Hn. reflexivity.
  - repeat split; [discriminate|].
    intros n -> Hn. exfalso. unfold getPrNumberFromEnv in Htruthy.
    cbn [JS.truthy_number] in Htruthy. apply N.eqb_neq in Hn.
    rewrite Hn in Htruthy. cbn in Htruthy. rewrite Hn in Htruthy.
    discriminate.
Qed.

Lemma getPrNumber_explicit_or_env_witness :
  outcome (getPrNumber "comment" (Some 5%N)
             (Scenario.collaborators Scenario.ci_pr Scenario.nothing_fails
                "minor")
             (Scenario.start (new_Auto Scenario.no_api_options)))
  = Returns 5%N.
Proof.
  destruct (getPrNumber_explicit_or_env "comment" (Some 5%N)
              (Scenario.collaborators Scenario.ci_pr Scenario.nothing_fails
                 "minor")
              (Scenario.start (new_Auto Scenario.no_api_options)))
    as (_ & _ & _ & Hgiven).
  apply Hgiven; [reflexivity|discriminate].
Defined.

Lemma getPrNumber_run (command : string) (pr : option N) w st :
  getPrNumber command pr w st =
  Build_Run [] st
    (if JS.truthy_number (getPrNumberFromEnv (env w) pr)
     then Returns (default 0%N (getPrNumberFromEnv (env w) pr))
     else Throws ("Could not detect PR number. " +:+ command +:+
                  " must be run from either a PR or have the PR number supplied via the --pr flag.")).
Proof.
  unfold getPrNumber. rewrite bind_world.
  destruct (JS.truthy_number _); reflexivity.
Qed.

Lemma bind_getPrNumber {B} (command : string) (pr : option N)
    (f : N -> M B) w st :
  bind (getPrNumber command pr) f w st =
  if JS.truthy_number (getPrNumberFromEnv (env w) pr)
  then f (default 0%N (getPrNumberFromEnv (env w) pr)) w st
  else Build_Run [] st
         (Throws ("Could not detect PR number. " +:+ command +:+
                  " must be run from either a PR or have the PR number supplied via the --pr flag.")).
Proof.
  unfold bind. rewrite getPrNumber_run. cbn [outcome events final].
  destruct (JS.truthy_number _); [|reflexivity].
  cbn [app]. apply run_eta.
Qed.

(** ** Comments and request bodies *)

(** [comment] on its own, as one computation: nothing runs while it waits
    for the hosting client. *)
Lemma comment_alone (options : ICommentOptions) w st :
  comment options w st =
  (let message := co_message options in
   let context := default "default" (co_context options) in
   a <- this ;;
   if negb (defined (this_git a)) then throw createErrorMessage
   else
     prNumber <- getPrNumber "comment" (co_pr options) ;;
     let n := JS.String_of_N prNumber in
     if co_dryRun options then
       if co_delete options then
         log "info" ["Would have deleted comment on " +:+ n +:+ " under " +:+
                     dq +:+ context +:+ dq +:+ " context"]
       else if co_edit options then
         log "info" ["Would have edited the comment on " +:+ n +:+
                     " under " +:+ dq +:+ context +:+ dq +:+ " context." +:+
                     nl +:+ nl +:+ "New message: " +:+ JS.show message]
       else
         log "info" ["Would have commented on " +:+ n +:+ " under " +:+
                     dq +:+ context +:+ dq +:+ " context:" +:+ nl +:+ nl +:+
                     JS.show message]
     else if co_edit options && JS.truthy message then
       call (EditComment (JS.show message) prNumber context) (fun _ => tt) ;;;
       log "success" ["Edited comment on PR #" +:+ n +:+ " under context " +:+
                      dq +:+ context +:+ dq]
     else
       (if co_delete options then
          call (DeleteComment prNumber context) (fun _ => tt) ;;;
          log "success" ["Deleted comment on PR #" +:+ n +:+
                         " under context " +:+ dq +:+ context +:+ dq]
        else ret tt) ;;;
       (if JS.truthy message then
          call (CreateComment (JS.show message) prNumber context)
            (fun _ => tt) ;;;
          log "success" ["Commented on PR #" +:+ n]
        else ret tt)) w st.
Proof.
  unfold comment. cbv zeta. cbn [alone]. apply bind_ext. intros a st1.
  destruct (negb _); [apply alone_atomic|]. cbn [alone].
  apply bind_ext. intros prNumber st2.
  destruct (co_dryRun options).
  { destruct (co_delete options); [apply alone_atomic|].
    destruct (co_edit options); apply alone_atomic. }
  destruct (co_edit options && JS.truthy (co_message options)).
  { cbn [alone]. apply bind_ext. intros _ st3. apply alone_atomic. }
  rewrite alone_and_then.
  assert (Hfirst :
            forall s,
              alone
                (if co_delete options
                 then
                   (call (DeleteComment prNumber
                            (default "default" (co_context options)))
                      (fun _ => tt) ~;;
                    atomic
                      (log "success"
                         ["Deleted comment on PR #" +:+
                          JS.String_of_N prNumber +:+ " under context " +:+
                          dq +:+ default "default" (co_context options) +:+
                          dq]))%task
                 else Return) w s =
              (if co_delete options
               then
                 call (DeleteComment prNumber
                         (default "default" (co_context options)))
                   (fun _ => tt) ;;;
                 log "success"
                   ["Deleted comment on PR #" +:+ JS.String_of_N prNumber +:+
                    " under context " +:+ dq +:+
                    default "default" (co_context options) +:+ dq]
               else ret tt) w s).
  { intros s. destruct (co_delete options); [|reflexivity].
    cbn [alone]. apply bind_ext. intros _ s'. apply alone_atomic. }
  apply bind_cong; [apply Hfirst|]. intros _ st3.
  destruct (JS.truthy (co_message options)); [|reflexivity].
  cbn [alone]. apply bind_ext. intros _ s'. apply alone_atomic.
Qed.

(** X2. In a dry run, [comment] and [prBody] call neither the hosting
    client nor any hook, and leave the state as it is: at most one line is
    logged. *)
Theorem dry_comment_calls_nothing (options : ICommentOptions) (w : World)
    (st : St) :
  co_dryRun options = true ->
  existsb reaches_out (events (comment options w st)) = false /\
  final (comment options w st) = st /\
  length (events (comment options w st)) <= 1 /\
  existsb reaches_out (events (prBody options w st)) = false /\
  final (prBody options w st) = st /\
  length (events (prBody options w st)) <= 1.
Proof.
  intros Hdry. rewrite !comment_alone. unfold prBody. cbv zeta.
  rewrite !bind_this.
  destruct (defined (this_git (auto st))); cbn [negb].
  2:{ cbn. repeat split; lia. }
  rewrite !bind_getPrNumber.
  destruct (JS.truthy_number _).
  2:{ cbn. repeat split; lia. }
  rewrite Hdry.
  destruct (co_delete options), (co_edit options); cbn; repeat split; lia.
Qed.

Lemma dry_comment_calls_nothing_witness :
  events (comment {| co_message := Some "Thanks!"; co_pr := Some 5%N;
                     co_context := None; co_dryRun := true;
                     co_delete := false; co_edit := false |}
            (Scenario.collaborators Scenario.ci Scenario.nothing_fails "minor")
            (Scenario.start (Scenario.loaded Scenario.no_api_options
                               Scenario.released_hooks)))
  = [Logged "info"
       ["Would have commented on 5 under " +:+ dq +:+ "default" +:+ dq +:+
        " context:" +:+ nl +:+ nl +:+ "Thanks!"]] /\
  existsb reaches_out
    (events (comment {| co_message := Some "Thanks!"; co_pr := Some 5%N;
                        co_context := None; co_dryRun := true;
                        co_delete := false; co_edit := false |}
               (Scenario.collaborators Scenario.ci Scenario.nothing_fails
                  "minor")
               (Scenario.start (Scenario.loaded Scenario.no_api_options
                                  Scenario.released_hooks)))) = false.
Proof.
  split; [reflexivity|].
  apply (dry_comment_calls_nothing
           {| co_message := Some "Thanks!"; co_pr := Some 5%N;
              co_context := None; co_dryRun := true;
              co_delete := false; co_edit := false |}).
  reflexivity.
Defined.

(** X3. With the edit flag and a message, [comment] edits the comment in
    place: it never creates and never deletes a comment, even when the
    delete flag is given too. *)
Theorem comment_edit_keeps_the_comment (options : ICommentOptions)
    (w : World) (st : St) :
  co_dryRun options = false ->
  co_edit options = true ->
  JS.truthy (co_message options) = true ->
  existsb creates_or_deletes (events (comment options w st)) = false /\
  (defined (this_git (auto st)) = true ->
   forall n, co_pr options = Some n -> n <> 0%N ->
   events (comment options w st) =
   Called (EditComment (JS.show (co_message options)) n
             (default "default" (co_context options))) ::
   match fails w (EditComment (JS.show (co_message options)) n
                    (default "default" (co_context options))) with
   | Some _ => []
   | None =>
       [Logged "success"
          ["Edited comment on PR #" +:+ JS.String_of_N n +:+
           " under context " +:+ dq +:+
           default "default" (co_context options) +:+ dq]]
   end).
Proof.
  intros Hdry Hedit Hmessage. rewrite !comment_alone. cbv zeta.
  rewrite bind_this.
  destruct (defined (this_git (auto st))); cbn [negb].
  2:{ split; [reflexivity|discriminate]. }
  rewrite bind_getPrNumber. rewrite Hdry, Hedit, Hmessage. cbn [andb].
  split.
  - destruct (JS.truthy_number _); [|reflexivity].
    rewrite bind_call. destruct (fails w _); reflexivity.
  - intros _ n Hpr Hn. rewrite Hpr. unfold getPrNumberFromEnv.
    cbn [JS.truthy_number]. apply N.eqb_neq in Hn. rewrite Hn.
    cbn [negb JS.truthy_number]. rewrite Hn. cbn [negb].
    rewrite bind_call. cbn [default from_option]. unfold id.
    destruct (fails w _); reflexivity.
Qed.

Lemma comment_edit_keeps_the_comment_witness :
  existsb creates_or_deletes
    (events (comment {| co_message := Some "Updated"; co_pr := Some 5%N;
                        co_context := Some "released"; co_dryRun := false;
                        co_delete := true; co_edit := true |}
               (Scenario.collaborators Scenario.ci Scenario.nothing_fails
                  "minor")
               (Scenario.start (Scenario.loaded Scenario.no_api_options
                                  Scenario.released_hooks)))) = false.
Proof.
  apply (comment_edit_keeps_the_comment
           {| co_message := Some "Updated"; co_pr := Some 5%N;
              co_context := Some "released"; co_dryRun := false;
              co_delete := true; co_edit := true |}); reflexivity.
Defined.

(** X4. Without the edit flag, with the delete flag and a message,
    [comment] first deletes the comment of the context and then creates the
    new one; when the deletion fails nothing is created. *)
Theorem comment_deletes_before_it_creates (text : string) (n : N)
    (context : option string) (w : World) (st : St) :
  defined (this_git (auto st)) = true ->
  n <> 0%N ->
  JS.truthy_string text = true ->
  let ctx := default "default" context in
  let options :=
    {| co_message := Some text; co_pr := Some n; co_context := context;
       co_dryRun := false; co_delete := true; co_edit := false |} in
  (fails w (DeleteComment n ctx) = None ->
   fails w (CreateComment text n ctx) = None ->
   comment options w st =
   Build_Run
     [Called (DeleteComment n ctx);
      Logged "success" ["Deleted comment on PR #" +:+ JS.String_of_N n +:+
                        " under context " +:+ dq +:+ ctx +:+ dq];
      Called (CreateComment text n ctx);
      Logged "success" ["Commented on PR #" +:+ JS.String_of_N n]]
     st (Returns tt)) /\
  (forall e, fails w (DeleteComment n ctx) = Some e ->
   comment options w st =
   Build_Run [Called (DeleteComment n ctx)] st (Throws e)).
Proof.
  intros Hgit Hn Htext ctx options. rewrite !comment_alone. cbv zeta.
  cbn [co_message co_pr co_context co_dryRun co_delete co_edit options].
  fold ctx. clearbody ctx.
  rewrite bind_this, Hgit. cbn [negb]. rewrite bind_getPrNumber.
  unfold getPrNumberFromEnv. cbn [JS.truthy_number].
  apply N.eqb_neq in Hn. rewrite Hn. cbn [negb JS.truthy_number].
  rewrite Hn. cbn [negb andb default from_option JS.truthy]. unfold id.
  rewrite Htext. split.
  - intros Hdelete Hcreate. run. rewrite bind_call, Hdelete. run.
    rewrite bind_call. cbn [JS.show default from_option]. unfold id.
    rewrite Hcreate. unfold log, emit, prepend. cbn. reflexivity.
  - intros e Hdelete. run. rewrite bind_call, Hdelete. reflexivity.
Qed.

Lemma comment_deletes_before_it_creates_witness :
  comment {| co_message := Some "Again"; co_pr := Some 5%N;
             co_context := None; co_dryRun := false;
             co_delete := true; co_edit := false |}
    (Scenario.collaborators Scenario.ci Scenario.nothing_fails "minor")
    (Scenario.start (Scenario.loaded Scenario.no_api_options
                       Scenario.released_hooks))
  = Build_Run
      [Called (DeleteComment 5 "default");
       Logged "success" ["Deleted comment on PR #5 under context " +:+ dq +:+
                         "default" +:+ dq];
       Called (CreateComment "Again" 5 "default");
       Logged "success" ["Commented on PR #5"]]
      (Scenario.start (Scenario.loaded Scenario.no_api_options
                         Scenario.released_hooks))
      (Returns tt).
Proof.
  exact (proj1 (comment_deletes_before_it_creates "Again" 5 None
                  (Scenario.collaborators Scenario.ci
                     Scenario.nothing_fails "minor")
                  (Scenario.start (Scenario.loaded Scenario.no_api_options
                                     Scenario.released_hooks))
                  eq_refl ltac:(discriminate) eq_refl) eq_refl eq_refl).
Defined.

(** ** Versions *)

(** X5. Prefixing a release is idempotent; without the [noVersionPrefix]
    option the result starts with [v], and with it the release is left as
    it is. *)
Theorem prefix_with_idempotent (options : ReleaseOptions) (release : string) :
  prefix_with options (prefix_with options release) =
    prefix_with options release /\
  (noVersionPrefix options = false ->
   String.prefix "v" (prefix_with options release) = true) /\
  (noVersionPrefix options = true -> prefix_with options release = release).
Proof.
  unfold prefix_with.
  destruct (noVersionPrefix options); cbn [orb].
  - split; [reflexivity|]. split; [discriminate|reflexivity].
  - destruct (String.prefix "v" release) eqn:Hv.
    + rewrite Hv. split; [reflexivity|]. split; [reflexivity|discriminate].
    + assert (Hprefixed : String.prefix "v" ("v" +:+ release) = true).
      { cbn. destruct release; reflexivity. }
      rewrite Hprefixed. split; [reflexivity|].
      split; [intros _; reflexivity|discriminate].
Qed.

Lemma prefix_with_idempotent_witness :
  String.prefix "v" (prefix_with Scenario.options_of_release "1.0.0") = true.
Proof.
  destruct (prefix_with_idempotent Scenario.options_of_release "1.0.0")
    as (_ & Hprefixed & _).
  apply Hprefixed. reflexivity.
Defined.


(** X6. [getCurrentVersion] adds one tap, named [None], at the end of
    [getPreviousVersion] at every call, and changes nothing else: the other
    hooks and fields of the engine and the label store are as they were.
    It calls the hook once. Its result is the answer of the first plugin
    that gives a previous version; when none does, the tap that it added
    answers the prefixed [0.0.0], and throws on an engine without a
    release helper. The answer is replaced by the last release when that
    is a later semantic version. It throws only when a plugin rejects or
    the release helper is missing. *)
Theorem getCurrentVersion_adds_a_tap (lastRelease : string) (w : World)
    (st : St) :
  let r := getCurrentVersion lastRelease w st in
  final r =
    {| auto := set_hooks (auto st)
                 (Hook.tap_getPreviousVersion "None" noPreviousVersion
                    (this_hooks (auto st)));
       platform := platform st |} /\
  Hook.getPreviousVersion (this_hooks (auto (final r))) =
    Hook.getPreviousVersion (this_hooks (auto st)) ++
    [("None", noPreviousVersion)] /\
  List.filter (is_fired "getPreviousVersion") (events r) =
    [Fired "getPreviousVersion" NoArguments] /\
  outcome r =
    match first_answer (Hook.getPreviousVersion (this_hooks (auto st)))
            (prefixRelease_of (auto st)) with
    | NoOpinion =>
        match this_release (auto st) with
        | Some options =>
            Returns (Some (later_version w lastRelease
                             (prefix_with options "0.0.0")))
        | None => Throws createErrorMessage
        end
    | Answer previous =>
        Returns (Some (later_version w lastRelease previous))
    | Rejects e => Throws e
    end.
Proof.
  cbv zeta. rewrite getCurrentVersion_run. cbn [final outcome events].
  split; [reflexivity|]. split; [reflexivity|]. split.
  { cbn [List.filter is_fired String.eqb Ascii.eqb Bool.eqb].
    f_equal. induction (consulted _ _) as [|owner owners IH];
      [reflexivity|exact IH]. }
  rewrite first_answer_snoc. unfold later_version.
  destruct (first_answer _ _) as [|previous|e]; [| |reflexivity].
  - unfold noPreviousVersion, prefixRelease_of.
    destruct (this_release (auto st)) as [options|]; cbn [option_map];
      [|reflexivity].
    destruct (_ && _ && _); reflexivity.
  - destruct (_ && _ && _); reflexivity.
Qed.

Lemma getCurrentVersion_adds_a_tap_witness :
  let w := Scenario.collaborators Scenario.ci Scenario.nothing_fails "minor" in
  let st := Scenario.start (Scenario.loaded Scenario.no_api_options
                              Scenario.released_hooks) in
  outcome (getCurrentVersion "v1.0.0" w st) = Returns (Some "v1.0.0") /\
  outcome (getCurrentVersion "first-commit" w st) = Returns (Some "v0.0.0") /\
  outcome (getCurrentVersion "v1.0.0" w
             (Scenario.start (new_Auto Scenario.no_api_options)))
  = Throws createErrorMessage /\
  map fst (Hook.getPreviousVersion
             (this_hooks (auto (final (getCurrentVersion "v1.0.0" w st)))))
  = ["None"].
Proof.
  intros w st.
  pose proof (getCurrentVersion_adds_a_tap "v1.0.0" w st)
    as (_ & Htaps & _ & Hout).
  pose proof (getCurrentVersion_adds_a_tap "first-commit" w st)
    as (_ & _ & _ & Hout').
  pose proof (getCurrentVersion_adds_a_tap "v1.0.0" w
                (Scenario.start (new_Auto Scenario.no_api_options)))
    as (_ & _ & _ & Hout'').
  split; [exact Hout|]. split; [exact Hout'|]. split; [exact Hout''|].
  rewrite Htaps. reflexivity.
Defined.

(** X7. [getVersion] on an initialised engine: the bump it returns is the
    one the release helper computes from the [from] option when it is given
    and from the latest release otherwise (asked for only then); it is
    recorded as the version bump of the engine. A run that fails leaves the
    engine as it was. *)
Theorem getVersion_records_the_bump (from : option string) (w : World)
    (st : St) :
  initialized (auto st) = true ->
  let lastRelease :=
    if JS.truthy from then JS.show from else latestRelease w in
  let r := getVersion from w st in
  (forall bump,
     outcome r = Returns bump ->
     bump = semverBump w lastRelease None /\
     this_versionBump (auto (final r)) = Some bump /\
     events r =
       (if JS.truthy from then [] else [Called GetLatestRelease]) ++
       [Called (GetSemverBump lastRelease None)]) /\
  ((forall bump, outcome r <> Returns bump) -> final r = st) /\
  (JS.truthy from = true ->
   existsb (fun e => match e with
                     | Called GetLatestRelease => true
                     | _ => false
                     end) (events r) = false).
Proof.
  intros Hinit lastRelease r. subst r lastRelease. unfold getVersion.
  rewrite bind_this, Hinit. cbn [negb].
  destruct (JS.truthy from).
  - rewrite bind_ret, bind_call.
    destruct (fails w (GetSemverBump (JS.show from) None)).
    + split; [discriminate|]. split; reflexivity.
    + run. cbn. split; [|split; [|reflexivity]].
      * intros bump [= <-]. repeat split.
      * intros H. exfalso. exact (H _ eq_refl).
  - rewrite bind_call. destruct (fails w GetLatestRelease).
    + split; [discriminate|]. split; [reflexivity|discriminate].
    + rewrite bind_call.
      destruct (fails w (GetSemverBump (latestRelease w) None)).
      * split; [discriminate|]. split; [reflexivity|discriminate].
      * run. cbn. split; [|split; [|discriminate]].
        -- intros bump [= <-]. repeat split.
        -- intros H. exfalso. exact (H _ eq_refl).
Qed.

Lemma getVersion_records_the_bump_witness :
  let w := Scenario.collaborators Scenario.ci Scenario.nothing_fails "minor" in
  let st := Scenario.start (Scenario.loaded Scenario.no_api_options
                              Scenario.released_hooks) in
  this_versionBump (auto (final (getVersion None w st))) = Some "minor".
Proof.
  intros w st.
  exact (proj1 (proj2 (proj1 (getVersion_records_the_bump None w st eq_refl)
                         "minor" eq_refl))).
Defined.

(** ** The git identity *)

Lemma try_catch_throws {A} (m : M A) (handler : string -> M A) w st evs st'
    e :
  m w st = Build_Run evs st' (Throws e) ->
  try_catch m handler w st = prepend evs (handler e w st').
Proof. intros H. unfold try_catch. rewrite H. reflexivity. Qed.

Lemma try_catch_returns {A} (m : M A) (handler : string -> M A) w st evs st'
    a :
  m w st = Build_Run evs st' (Returns a) ->
  try_catch m handler w st = Build_Run evs st' (Returns a).
Proof. intros H. unfold try_catch. rewrite H. reflexivity. Qed.

(** The two reads of the identity. *)
Lemma identity_reads_run (w : World) (st : St) :
  (call (Exec "git" ["config"; "user.email"]) (fun _ => tt) ;;;
   call (Exec "git" ["config"; "user.name"]) (fun _ => tt)) w st =
  match fails w (Exec "git" ["config"; "user.email"]) with
  | Some e =>
      Build_Run [Called (Exec "git" ["config"; "user.email"])] st (Throws e)
  | None =>
      Build_Run [Called (Exec "git" ["config"; "user.email"]);
                 Called (Exec "git" ["config"; "user.name"])] st
        match fails w (Exec "git" ["config"; "user.name"]) with
        | Some e => Throws e
        | None => Returns tt
        end
  end.
Proof.
  rewrite bind_call.
  destruct (fails w (Exec "git" ["config"; "user.email"])); reflexivity.
Qed.

Lemma setGitUser_reads (w : World) (st : St) :
  fails w (Exec "git" ["config"; "user.email"]) = None ->
  fails w (Exec "git" ["config"; "user.name"]) = None ->
  setGitUser w st =
  Build_Run [Called (Exec "git" ["config"; "user.email"]);
             Called (Exec "git" ["config"; "user.name"])] st (Returns tt).
Proof.
  intros Hemail Hname. unfold setGitUser.
  erewrite try_catch_returns; [reflexivity|].
  rewrite identity_reads_run, Hemail, Hname. reflexivity.
Qed.

(** When a read of the identity fails, [setGitUser] goes on with its
    handler after the reads made so far. *)
Lemma setGitUser_handles (w : World) (st : St) :
  fails w (Exec "git" ["config"; "user.email"]) <> None \/
  fails w (Exec "git" ["config"; "user.name"]) <> None ->
  exists reads e,
    Forall (fun ev => exists key, ev = Called (Exec "git" ["config"; key]))
      reads /\
    forall handler,
      try_catch
        (call (Exec "git" ["config"; "user.email"]) (fun _ => tt) ;;;
         call (Exec "git" ["config"; "user.name"]) (fun _ => tt))
        handler w st =
      prepend reads (handler e w st).
Proof.
  intros Hfails.
  destruct (fails w (Exec "git" ["config"; "user.email"])) as [e|] eqn:Hemail.
  - exists [Called (Exec "git" ["config"; "user.email"])], e. split.
    + repeat constructor. eexists. reflexivity.
    + intros handler. apply try_catch_throws.
      rewrite identity_reads_run, Hemail. reflexivity.
  - destruct (fails w (Exec "git" ["config"; "user.name"])) as [e|] eqn:Hname.
    + exists [Called (Exec "git" ["config"; "user.email"]);
              Called (Exec "git" ["config"; "user.name"])], e. split.
      * repeat constructor; eexists; reflexivity.
      * intros handler. apply try_catch_throws.
        rewrite identity_reads_run, Hemail, Hname. reflexivity.
    + exfalso. destruct Hfails as [H|H]; apply H; reflexivity.
Qed.

(** X8. [setGitUser] is best effort. When the identity can be read it only
    reads it. Outside of CI it never throws, never writes the git
    configuration and never calls a hook: when a read fails it logs a
    note. *)
Theorem setGitUser_is_best_effort (w : World) (st : St) :
  (fails w (Exec "git" ["config"; "user.email"]) = None ->
   fails w (Exec "git" ["config"; "user.name"]) = None ->
   setGitUser w st =
   Build_Run [Called (Exec "git" ["config"; "user.email"]);
              Called (Exec "git" ["config"; "user.name"])] st (Returns tt)) /\
  (env_isCi (env w) = false ->
   outcome (setGitUser w st) = Returns tt /\
   final (setGitUser w st) = st /\
   existsb writes_git_config (events (setGitUser w st)) = false /\
   existsb (fun e => match e with Fired _ _ | Ran _ _ => true | _ => false end)
     (events (setGitUser w st)) = false).
Proof.
  split; [apply setGitUser_reads|]. intros Hlocal.
  destruct (fails w (Exec "git" ["config"; "user.email"])) as [e|] eqn:Hemail;
    [|destruct (fails w (Exec "git" ["config"; "user.name"])) as [e|]
        eqn:Hname].
  3:{ rewrite setGitUser_reads by assumption. repeat split. }
  all: destruct (setGitUser_handles w st) as (reads & e' & Hreads & Hrun);
    [first [left; congruence | right; congruence]|].
  all: unfold setGitUser; rewrite Hrun, bind_world, Hlocal.
  all: cbn [negb prepend log emit events final outcome].
  all: rewrite !existsb_app; cbn [existsb orb].
  all: assert (Hquiet :
                 existsb writes_git_config reads = false /\
                 existsb (fun e => match e with
                                   | Fired _ _ | Ran _ _ => true
                                   | _ => false
                                   end) reads = false)
    by (clear -Hreads; induction Hreads as [|ev reads [key ->] _ [IH1 IH2]];
        [split; reflexivity|cbn; rewrite IH1, IH2; split; reflexivity]).
  all: destruct Hquiet as [-> ->]; repeat split.
Qed.

Lemma setGitUser_is_best_effort_witness :
  outcome (setGitUser
             (Scenario.collaborators
                {| env_pr := None; env_build := None; env_commit := None;
                   env_branch := None; env_isPr := None; env_isCi := false |}
                Scenario.no_git_identity "minor")
             (Scenario.start (Scenario.loaded Scenario.no_api_options
                                Hook.makeHooks)))
  = Returns tt.
Proof.
  destruct (setGitUser_is_best_effort
              (Scenario.collaborators
                 {| env_pr := None; env_build := None; env_commit := None;
                    env_branch := None; env_isPr := None;
                    env_isCi := false |}
                 Scenario.no_git_identity "minor")
              (Scenario.start (Scenario.loaded Scenario.no_api_options
                                 Hook.makeHooks)))
    as (_ & Hlocal).
  apply Hlocal. reflexivity.
Defined.
(** X9. In CI, when a read of the git identity fails, [setGitUser] asks the
    [getAuthor] hook and then writes the identity, the email before the
    name. The email is the one of the release options, or when the options
    give none, the one of the author that the hook answers; so is the
    name. What is empty or undefined is not written. When a handler of the
    hook rejects, nothing is written and [setGitUser] throws. *)
Theorem setGitUser_prefers_the_options (w : World) (st : St)
    (options : ReleaseOptions) :
  fails w (Exec "git" ["config"; "user.email"]) <> None \/
  fails w (Exec "git" ["config"; "user.name"]) <> None ->
  env_isCi (env w) = true ->
  this_release (auto st) = Some options ->
  (forall key value, fails w (Exec "git" ["config"; key; value]) = None) ->
  let answer := first_answer (Hook.getAuthor (this_hooks (auto st))) tt in
  setGitUser w st =
  Build_Run
    (Called (Exec "git" ["config"; "user.email"]) ::
     match fails w (Exec "git" ["config"; "user.email"]) with
     | Some _ => []
     | None => [Called (Exec "git" ["config"; "user.name"])]
     end ++
     Fired "getAuthor" NoArguments ::
     map (Ran "getAuthor")
       (consulted (Hook.getAuthor (this_hooks (auto st))) tt) ++
     match answer with
     | Rejects _ => []
     | _ =>
         written_identity "user.email"
           (identity_of (email options) answer author_email) ++
         written_identity "user.name"
           (identity_of (name options) answer author_name)
     end)
    st
    match answer with
    | Rejects x => Throws x
    | _ => Returns tt
    end.
Proof.
  intros Hread Hci Hrelease Hwrites answer. unfold setGitUser.
  assert (Hreads :
            exists e,
              (call (Exec "git" ["config"; "user.email"]) (fun _ => tt) ;;;
               call (Exec "git" ["config"; "user.name"]) (fun _ => tt)) w st =
              Build_Run
                (Called (Exec "git" ["config"; "user.email"]) ::
                 match fails w (Exec "git" ["config"; "user.email"]) with
                 | Some _ => []
                 | None => [Called (Exec "git" ["config"; "user.name"])]
                 end) st (Throws e)).
  { rewrite identity_reads_run.
    destruct (fails w (Exec "git" ["config"; "user.email"])) as [e|];
      [exists e; reflexivity|].
    destruct (fails w (Exec "git" ["config"; "user.name"])) as [e|];
      [exists e; reflexivity|].
    exfalso. destruct Hread as [H|H]; apply H; reflexivity. }
  destruct Hreads as [e Hreads].
  erewrite try_catch_throws by exact Hreads.
  rewrite bind_world, Hci. cbn [negb]. rewrite bind_this, Hrelease.
  rewrite bind_emit, bind_bail. fold answer.
  assert (Hwrite :
            forall key value (k : unit -> M unit) s,
              bind (if JS.truthy value
                    then call (Exec "git" ["config"; key;
                                           dq +:+ JS.show value +:+ dq])
                           (fun _ => tt)
                    else ret tt) k w s =
              prepend (written_identity key value) (k tt w s)).
  { intros key value k s. unfold written_identity.
    destruct (JS.truthy value).
    - rewrite bind_call, Hwrites. reflexivity.
    - rewrite bind_ret, prepend_nil. reflexivity. }
  assert (Hlast :
            forall key value s,
              (if JS.truthy value
               then call (Exec "git" ["config"; key;
                                      dq +:+ JS.show value +:+ dq])
                      (fun _ => tt)
               else ret tt) w s =
              Build_Run (written_identity key value) s (Returns tt)).
  { intros key value s. unfold written_identity.
    destruct (JS.truthy value); [|reflexivity].
    unfold call. rewrite Hwrites. reflexivity. }
  unfold identity_of.
  destruct answer as [|author|x]; cbv beta zeta.
  - rewrite Hwrite, Hlast. unfold prepend. cbn [events final outcome].
    destruct (JS.truthy (email options)), (JS.truthy (name options));
      rewrite <- ?app_assoc; reflexivity.
  - rewrite Hwrite, Hlast. unfold prepend. cbn [events final outcome].
    destruct (JS.truthy (email options)), (JS.truthy (name options));
      cbn [negb]; rewrite <- ?app_assoc; reflexivity.
  - unfold prepend. cbn [events final outcome app].
    rewrite ?app_nil_r, <- ?app_assoc. reflexivity.
Qed.

Lemma setGitUser_prefers_the_options_witness :
  setGitUser
    (Scenario.collaborators Scenario.ci
       Scenario.no_git_name "minor")
    (Scenario.start
       (set_release (Scenario.loaded Scenario.cli_dry Scenario.npm_author)
          Scenario.email_only))
  = Build_Run
      [Called (Exec "git" ["config"; "user.email"]);
       Called (Exec "git" ["config"; "user.name"]);
       Fired "getAuthor" NoArguments;
       Ran "getAuthor" "npm";
       Called (Exec "git" ["config"; "user.email";
                           dq +:+ "bot@example.com" +:+ dq]);
       Called (Exec "git" ["config"; "user.name"; dq +:+ "Me" +:+ dq])]
      (Scenario.start
         (set_release (Scenario.loaded Scenario.cli_dry Scenario.npm_author)
            Scenario.email_only))
      (Returns tt).
Proof.
  refine (setGitUser_prefers_the_options
            (Scenario.collaborators Scenario.ci
               Scenario.no_git_name "minor")
            (Scenario.start
               (set_release
                  (Scenario.loaded Scenario.cli_dry Scenario.npm_author)
                  Scenario.email_only))
            Scenario.email_only _ eq_refl eq_refl _).
  - right. discriminate.
  - intros key value. reflexivity.
Defined.

(** ** Creating the release *)

(** X10. A dry run of the release step creates no release but still calls
    [afterRelease], with the new version and without a response: a handler
    that must not act in a dry run has to check for itself. *)
Theorem dry_release_still_notifies (options : CommandOptions)
    (lastRelease : string) (commitsInRelease : list IExtendedCommit)
    (releaseNotes newVersion : string) (w : World) (st : St) :
  dryRun options = true ->
  existsb is_publish
    (events (createRelease options lastRelease commitsInRelease releaseNotes
               newVersion w st)) = false /\
  exists after,
    events (createRelease options lastRelease commitsInRelease releaseNotes
              newVersion w st) =
    Logged "info" ["Would have released (unless ran with " +:+ dq +:+
                   "shipit" +:+ dq +:+ "): " +:+ newVersion] ::
    Fired "afterRelease"
      (Released {| ar_lastRelease := lastRelease;
                   ar_newVersion := Some newVersion;
                   ar_commits := commitsInRelease;
                   ar_releaseNotes := releaseNotes;
                   ar_response := None |}) :: after.
Proof.
  intros Hdry. split.
  - pose proof (createRelease_quiet options lastRelease commitsInRelease
                  releaseNotes newVersion Hdry w st) as Hquiet.
    induction Hquiet as [|e evs He _ IH]; [reflexivity|].
    cbn [existsb]. rewrite IH, orb_false_r.
    destruct e as [| | | |[]]; try reflexivity. discriminate He.
  - unfold createRelease. rewrite bind_world, Hdry. cbn [negb andb].
    run. unfold call_afterRelease. run.
    cbn [prepend events app]. eexists. reflexivity.
Qed.

Lemma dry_release_still_notifies_witness :
  payload_of "afterRelease"
    (events (createRelease Scenario.dry "v1.0.0" [Scenario.feature]
               "#### Enhancement" "v1.1.0"
               (Scenario.collaborators Scenario.ci Scenario.nothing_fails
                  "minor")
               (Scenario.start (Scenario.loaded Scenario.cli_dry
                                  Scenario.released_hooks))))
  = Some (Released {| ar_lastRelease := "v1.0.0";
                      ar_newVersion := Some "v1.1.0";
                      ar_commits := [Scenario.feature];
                      ar_releaseNotes := "#### Enhancement";
                      ar_response := None |}).
Proof.
  destruct (proj2 (dry_release_still_notifies Scenario.dry "v1.0.0"
                     [Scenario.feature] "#### Enhancement" "v1.1.0"
                     (Scenario.collaborators Scenario.ci
                        Scenario.nothing_fails "minor")
                     (Scenario.start (Scenario.loaded Scenario.cli_dry
                                        Scenario.released_hooks))
                     eq_refl)) as [after ->].
  reflexivity.
Defined.

(** X11. In a run that is not a dry run, for a version that is not the last
    release, the release step logs, creates the release and only then calls
    [afterRelease], with the response of the hosting platform. When the
    creation fails the step throws and [afterRelease] is not called. *)
Theorem release_is_created_before_afterRelease (options : CommandOptions)
    (lastRelease : string) (commitsInRelease : list IExtendedCommit)
    (releaseNotes newVersion : string) (w : World) (st : St) :
  dryRun options = false ->
  semver_parse w newVersion && semver_parse w lastRelease &&
    semver_eq w newVersion lastRelease = false ->
  let r := createRelease options lastRelease commitsInRelease releaseNotes
             newVersion w st in
  match fails w (Publish releaseNotes newVersion) with
  | Some e =>
      r = Build_Run [Logged "info" ["Releasing " +:+ newVersion +:+
                                    " to GitHub."];
                     Called (Publish releaseNotes newVersion)] st (Throws e)
  | None =>
      exists after,
        events r =
        Logged "info" ["Releasing " +:+ newVersion +:+ " to GitHub."] ::
        Called (Publish releaseNotes newVersion) ::
        Fired "afterRelease"
          (Released {| ar_lastRelease := lastRelease;
                       ar_newVersion := Some newVersion;
                       ar_commits := commitsInRelease;
                       ar_releaseNotes := releaseNotes;
                       ar_response :=
                         Some (published w releaseNotes newVersion) |})
        :: after
  end.
Proof.
  intros Hdry Hguard r. subst r. unfold createRelease.
  rewrite bind_world, Hdry. cbn [negb andb].
  rewrite <- !andb_assoc in Hguard.
  replace (semver_parse w newVersion && semver_parse w lastRelease &&
           semver_eq w newVersion lastRelease) with false
    by (rewrite <- !andb_assoc; symmetry; exact Hguard).
  run. rewrite bind_call.
  destruct (fails w (Publish releaseNotes newVersion)); [reflexivity|].
  run. unfold call_afterRelease. run.
  cbn [prepend events app]. eexists. reflexivity.
Qed.

Lemma release_is_created_before_afterRelease_witness :
  exists after,
    events (createRelease default_options "v1.0.0" [Scenario.feature]
              "#### Enhancement" "v1.1.0"
              (Scenario.collaborators Scenario.ci Scenario.nothing_fails
                 "minor")
              (Scenario.start (Scenario.loaded Scenario.no_api_options
                                 Hook.makeHooks)))
    = Logged "info" ["Releasing v1.1.0 to GitHub."] ::
      Called (Publish "#### Enhancement" "v1.1.0") ::
      Fired "afterRelease"
        (Released {| ar_lastRelease := "v1.0.0";
                     ar_newVersion := Some "v1.1.0";
                     ar_commits := [Scenario.feature];
                     ar_releaseNotes := "#### Enhancement";
                     ar_response := Some "release v1.1.0" |}) :: after.
Proof.
  exact (release_is_created_before_afterRelease default_options "v1.0.0"
           [Scenario.feature] "#### Enhancement" "v1.1.0"
           (Scenario.collaborators Scenario.ci Scenario.nothing_fails "minor")
           (Scenario.start (Scenario.loaded Scenario.no_api_options
                              Hook.makeHooks))
           eq_refl eq_refl).
Defined.

(** ** The handlers of the plugin *)

(** X12. The [afterRelease] handler of the plugin does nothing at all (no
    event, same state, no error) when the new version is undefined or
    empty, when the engine was started with the dry-run option, when the
    release has no commit, or when the first commit carries a label (not
    empty) that is one of the skip-release labels. *)
Theorem announcement_is_gated (options : IReleasedLabelPluginOptions)
    (payload : AfterRelease) (w : World) (st : St) :
  JS.truthy (ar_newVersion payload) = false \/
  api_dryRun (this_options (auto st)) = Some true \/
  ar_commits payload = [] \/
  (exists head rest release skipped,
     ar_commits payload = head :: rest /\
     this_release (auto st) = Some release /\
     List.find (fun label =>
                  existsb (String.eqb label) (skipReleaseLabels release))
       (labels head) = Some skipped /\
     skipped <> "") ->
  ReleasedLabelPlugin.afterRelease options payload w st =
  Build_Run [] st (Returns tt).
Proof.
  intros Hgate. unfold ReleasedLabelPlugin.afterRelease.
  destruct (JS.truthy (ar_newVersion payload)) eqn:Hversion; cbn [negb];
    [|reflexivity].
  cbn [alone]. rewrite bind_this.
  destruct (api_dryRun (this_options (auto st))) as [[|]|] eqn:Hdry;
    cbn [default from_option]; unfold id; [reflexivity| |].
  all: destruct (ar_commits payload) as [|head rest] eqn:Hcommits;
    [reflexivity|].
  all: cbn [alone].
  all: destruct Hgate as [H|[H|[H|(head' & rest' & release & skipped & Heq &
                                   Hrelease & Hfind & Hskipped)]]];
    try discriminate.
  all: injection Heq as <- <-.
  all: destruct (labels head) as [|l ls] eqn:Hlabels; [discriminate|].
  all: rewrite Hrelease, bind_ret, Hfind; cbn [JS.truthy].
  all: unfold JS.truthy_string.
  all: apply String.eqb_neq in Hskipped; rewrite Hskipped; reflexivity.
Qed.

Lemma announcement_is_gated_witness :
  ReleasedLabelPlugin.afterRelease ReleasedLabelPlugin.defaultOptions
    {| ar_lastRelease := "v1.0.0"; ar_newVersion := Some "v1.1.0";
       ar_commits :=
         [{| hash := "9f8e7d6"; subject := "Update the docs";
             labels := ["documentation"; "skip-release"];
             pullRequest := Some 8%N |};
          Scenario.feature];
       ar_releaseNotes := ""; ar_response := None |}
    (Scenario.collaborators Scenario.ci Scenario.nothing_fails "minor")
    (Scenario.start (Scenario.loaded Scenario.no_api_options
                       Scenario.released_hooks))
  = Build_Run []
      (Scenario.start (Scenario.loaded Scenario.no_api_options
                         Scenario.released_hooks))
      (Returns tt).
Proof.
  apply announcement_is_gated. right. right. right.
  eexists _, _, _, "skip-release". repeat split; try reflexivity.
  discriminate.
Defined.

(** X13. The [modifyConfig] handler of the plugin defines the [released]
    label when the configuration has none and keeps the one it has
    otherwise; it leaves every other label and every other field of the
    configuration as they are, and running it twice is the same as running
    it once. *)
Theorem modifyConfig_defines_released_once (config : IAutoConfig) :
  let config' := ReleasedLabelPlugin.modifyConfig config in
  cfg_labels config' !! "released" =
    Some (default {| label_name := "released";
                     label_description :=
                       "This issue/pull request has been released." |}
            (cfg_labels config !! "released")) /\
  (forall key, key <> "released" ->
               cfg_labels config' !! key = cfg_labels config !! key) /\
  (cfg_plugins config' = cfg_plugins config /\
   cfg_owner config' = cfg_owner config /\
   cfg_repo config' = cfg_repo config /\
   cfg_token config' = cfg_token config /\
   cfg_githubApi config' = cfg_githubApi config /\
   cfg_githubGraphqlApi config' = cfg_githubGraphqlApi config /\
   cfg_baseBranch config' = cfg_baseBranch config) /\
  ReleasedLabelPlugin.modifyConfig config' = config'.
Proof.
  unfold ReleasedLabelPlugin.modifyConfig.
  destruct (cfg_labels config !! "released") as [definition|] eqn:Hreleased;
    cbn [cfg_labels set_labels default from_option].
  - rewrite Hreleased. split; [reflexivity|].
    split; [intros key _; reflexivity|]. split; [repeat split|reflexivity].
  - rewrite lookup_insert_eq. split; [reflexivity|]. split.
    + intros key Hkey. apply lookup_insert_ne. congruence.
    + split; [repeat split|reflexivity].
Qed.

(** ** Canary releases: identifiers, report and commits *)

(** X14. The request number and the build of a canary: a number given in
    the options, when it is not 0, is used whatever the CI environment says;
    and when the environment has no [pr] property, its [build] and [commit]
    are not used at all. *)
Theorem canaryInfo_sources (e : Env) (options : CommandOptions) :
  (forall n, opt_pr options = Some n -> n <> 0%N ->
             fst (canaryInfo e options) = Some (JS.String_of_N n)) /\
  (forall n, opt_build options = Some n -> n <> 0%N ->
             snd (canaryInfo e options) = Some (JS.String_of_N n)) /\
  (has (env_pr e) = false ->
   JS.truthy_number (opt_pr options) = false ->
   JS.truthy_number (opt_build options) = false ->
   canaryInfo e options = (None, None)) /\
  (has (env_pr e) = true -> has (env_build e) = false ->
   has (env_commit e) = true ->
   JS.truthy_number (opt_build options) = false ->
   snd (canaryInfo e options) = value_of (env_commit e)).
Proof.
  unfold canaryInfo. repeat split.
  - intros n Hpr Hn. rewrite Hpr. cbn [JS.truthy_number].
    apply N.eqb_neq in Hn. rewrite Hn.
    destruct (has (env_pr e) && has (env_build e));
      [|destruct (has (env_pr e) && has (env_commit e))]; reflexivity.
  - intros n Hbuild Hn. rewrite Hbuild. cbn [JS.truthy_number].
    apply N.eqb_neq in Hn. rewrite Hn.
    destruct (has (env_pr e) && has (env_build e));
      [|destruct (has (env_pr e) && has (env_commit e))]; reflexivity.
  - intros Hpr Hopr Hobuild. rewrite Hpr, Hopr, Hobuild. reflexivity.
  - intros Hpr Hbuild Hcommit Hobuild.
    rewrite Hpr, Hbuild, Hcommit, Hobuild. reflexivity.
Qed.

Lemma canaryInfo_sources_witness :
  fst (canaryInfo Scenario.ci_pr
         {| dryRun := false; opt_pr := Some 7%N; opt_build := None;
            opt_message := None; opt_from := None; opt_to := None;
            opt_useVersion := None |}) = Some "7".
Proof.
  destruct (canaryInfo_sources Scenario.ci_pr
              {| dryRun := false; opt_pr := Some 7%N; opt_build := None;
                 opt_message := None; opt_from := None; opt_to := None;
                 opt_useVersion := None |})
    as (Hpr & _).
  apply (Hpr 7%N); [reflexivity|discriminate].
Defined.



Lemma publishCanary_no_body (options : CommandOptions) (pr : option string)
    (version suffix : string) w st :
  opt_message options = Some "false" \/ JS.truthy pr = false ->
  existsb updates_body (events (publishCanary options pr version suffix w st))
  = false.
Proof.
  intros Hsilent.
  assert (Hno : negb (String.eqb
                        (JS.or_else (opt_message options)
                           "Published PR with canary version: %v") "false")
                && JS.truthy pr = false).
  { destruct Hsilent as [-> | ->]; [reflexivity|apply andb_false_r]. }
  assert (Hemits :
            emits (fun e => updates_body e = false)
              (publishCanary options pr version suffix)).
  { unfold publishCanary. cbv zeta. rewrite Hno. emits_auto. }
  specialize (Hemits w st).
  induction Hemits as [|e evs He _ IH]; [reflexivity|].
  cbn [existsb]. rewrite He, IH. reflexivity.
Qed.

(** X15. The canary command never updates the body of a request when the
    message option is the text [false], nor when no request number is
    known. *)
Theorem canary_message_false_is_silent (options : CommandOptions) (w : World)
    (st : St) :
  opt_message options = Some "false" \/
  JS.truthy (fst (canaryInfo (env w) options)) = false ->
  existsb updates_body (events (canary options w st)) = false.
Proof.
  intros Hsilent.
  destruct (initialized (auto st)) eqn:Hinit.
  2:{ rewrite canary_uninitialized_run by assumption. reflexivity. }
  destruct (Hook.isUsed (Hook.canary (this_hooks (auto st)))) eqn:Hused.
  2:{ rewrite canary_unused_run by assumption. reflexivity. }
  rewrite canary_run by assumption.
  destruct (fails w (GetCommitsInRelease "HEAD^" None)); [reflexivity|].
  destruct (if JS.truthy (fst (canaryInfo (env w) options)) &&
               JS.truthy (snd (canaryInfo (env w) options))
            then None else fails w (GetSha true)); [reflexivity|].
  cbn [prepend events]. rewrite existsb_app.
  rewrite publishCanary_no_body by assumption.
  unfold sha_events. destruct (_ && _); reflexivity.
Qed.

Lemma canary_message_false_is_silent_witness :
  existsb updates_body
    (events (canary {| dryRun := false; opt_pr := None; opt_build := None;
                       opt_message := Some "false"; opt_from := None;
                       opt_to := None; opt_useVersion := None |}
               (Scenario.collaborators Scenario.ci_pr Scenario.nothing_fails
                  "")
               (Scenario.start (Scenario.loaded Scenario.no_api_options
                                  Scenario.npm_publishes)))) = false.
Proof.
  apply canary_message_false_is_silent. left. reflexivity.
Defined.

(** The end of [publishCanary]: the read of the latest tag of the branch,
    of the first commit when there is no tag, and of the commits since. *)
Lemma commits_since_run (newVersion : option string) w st :
  let since :=
    match fails w GetLatestTagInBranch with
    | None => latestTagInBranch w
    | Some _ => firstCommit w
    end in
  (latestTag <-
     try_catch (call GetLatestTagInBranch latestTagInBranch)
       (fun _ => call GetFirstCommit firstCommit) ;;
   commitsInRelease <- call (GetCommits latestTag)
                         (fun w => commits w latestTag) ;;
   ret (Some (newVersion, commitsInRelease))) w st =
  match fails w GetLatestTagInBranch, fails w GetFirstCommit with
  | Some _, Some e =>
      Build_Run [Called GetLatestTagInBranch; Called GetFirstCommit] st
        (Throws e)
  | _, _ =>
      Build_Run
        (Called GetLatestTagInBranch ::
         match fails w GetLatestTagInBranch with
         | None => []
         | Some _ => [Called GetFirstCommit]
         end ++ [Called (GetCommits since)])
        st
        match fails w (GetCommits since) with
        | Some e => Throws e
        | None => Returns (Some (newVersion, commits w since))
        end
  end.
Proof.
  cbv zeta.
  destruct (fails w GetLatestTagInBranch) as [e|] eqn:Htag.
  - destruct (fails w GetFirstCommit) as [e'|] eqn:Hfirst.
    + unfold bind at 1.
      erewrite try_catch_throws by (unfold call; rewrite Htag; reflexivity).
      unfold call. rewrite Hfirst. reflexivity.
    + erewrite bind_known
        by (erewrite try_catch_throws
              by (unfold call; rewrite Htag; reflexivity);
            unfold call, prepend; rewrite Hfirst; reflexivity).
      rewrite bind_call.
      destruct (fails w (GetCommits (firstCommit w))); reflexivity.
  - erewrite bind_known
      by (apply try_catch_returns; unfold call; rewrite Htag; reflexivity).
    rewrite bind_call.
    destruct (fails w (GetCommits (latestTagInBranch w)));
      destruct (fails w GetFirstCommit); reflexivity.
Qed.

(** X16. The commits that a canary returns are those since the latest tag
    of the branch; when there is no such tag (the call fails) they are
    those since the first commit. Whenever [publishCanary] returns a
    version, in a dry run or not, it ends with the read of the tag, then
    of the first commit when there is no tag, then of the commits since,
    and these are the commits that it returns. In a dry run it returns
    when these reads succeed: the canary hook is not called, the
    identifier that would be published is logged and the version returned
    is empty. *)
Theorem canary_falls_back_to_first_commit (options : CommandOptions)
    (pr : option string) (version suffix : string) (w : World) (st : St) :
  let since :=
    match fails w GetLatestTagInBranch with
    | None => latestTagInBranch w
    | Some _ => firstCommit w
    end in
  let reads :=
    Called GetLatestTagInBranch ::
    match fails w GetLatestTagInBranch with
    | None => []
    | Some _ => [Called GetFirstCommit]
    end ++ [Called (GetCommits since)] in
  (forall newVersion commitsInRelease,
     outcome (publishCanary options pr version suffix w st) =
       Returns (Some (newVersion, commitsInRelease)) ->
     commitsInRelease = commits w since /\
     exists before,
       events (publishCanary options pr version suffix w st) =
       before ++ reads) /\
  (dryRun options = true ->
   (fails w GetLatestTagInBranch = None \/ fails w GetFirstCommit = None) ->
   fails w (GetCommits since) = None ->
   publishCanary options pr version suffix w st =
   Build_Run
     (Logged "warn" ["Published canary identifier would be: " +:+ dq +:+
                     "-canary" +:+ suffix +:+ dq] :: reads)
     st (Returns (Some (Some "", commits w since)))).
Proof.
  cbv zeta. split.
  - intros newVersion commitsInRelease. unfold publishCanary.
    intros (published & _ & H & ->)%bind_returns_inv.
    destruct published as [v|]; [|discriminate H].
    revert H. rewrite commits_since_run.
    set (st' := final _). clearbody st'.
    destruct (fails w GetLatestTagInBranch) as [e|];
      [destruct (fails w GetFirstCommit) as [e'|]|];
      cbn [outcome events]; try discriminate.
    all: destruct (fails w (GetCommits _)); [discriminate|].
    all: intros [= <- <-]; split; [reflexivity|].
    all: eexists; reflexivity.
  - intros Hdry Hreads Hcommits. unfold publishCanary. rewrite Hdry.
    rewrite bind_assoc, bind_log, bind_ret. rewrite commits_since_run.
    cbv zeta. rewrite Hcommits.
    destruct (fails w GetLatestTagInBranch) as [e|]; [|reflexivity].
    destruct (fails w GetFirstCommit) as [e'|]; [|reflexivity].
    exfalso. destruct Hreads as [H|H]; discriminate H.
Qed.

Lemma canary_falls_back_to_first_commit_witness :
  outcome
    (publishCanary Scenario.dry None "patch" ".1a2b3c4"
       (Scenario.collaborators Scenario.ci
          (fun c => match c with
                    | GetLatestTagInBranch => Some "No names found"
                    | _ => None
                    end) "")
       (Scenario.start (Scenario.loaded Scenario.no_api_options
                          Scenario.npm_publishes)))
  = Returns (Some (Some "", [Scenario.feature])).
Proof.
  rewrite (proj2 (canary_falls_back_to_first_commit Scenario.dry None "patch"
                    ".1a2b3c4"
                    (Scenario.collaborators Scenario.ci
                       (fun c => match c with
                                 | GetLatestTagInBranch =>
                                     Some "No names found"
                                 | _ => None
                                 end) "")
                    (Scenario.start (Scenario.loaded Scenario.no_api_options
                                       Scenario.npm_publishes)))
             eq_refl (or_intror eq_refl) eq_refl).
  reflexivity.
Defined.

(** A canary that is published: the commits are those since the latest
    tag. *)
Example canary_since_the_tag :
  let r := publishCanary
             {| dryRun := false; opt_pr := None; opt_build := None;
                opt_message := None; opt_from := None; opt_to := None;
                opt_useVersion := None |}
             None "patch" ".1a2b3c4"
             (Scenario.collaborators Scenario.ci Scenario.nothing_fails "")
             (Scenario.start (Scenario.loaded Scenario.no_api_options
                                Scenario.npm_publishes)) in
  outcome r = Returns (Some (Some "1.0.1-canary.1a2b3c4", [Scenario.feature]))
  /\
  skipn 2 (events r) =
    [Logged "success" ["Published canary version: 1.0.1-canary.1a2b3c4"];
     Called GetLatestTagInBranch; Called (GetCommits "v1.0.0")].
Proof. vm_compute. split; reflexivity. Qed.

(** ** The trunk path and the choice of [shipit] *)

(** X17. When the bump computed since the latest release is empty,
    [publishLatest] stops after the version step: it logs that no version
    is published and returns nothing, without a changelog, a hook call or a
    release; the empty bump is what the engine records. *)
Theorem no_bump_publishes_nothing (options : CommandOptions) (w : World)
    (st : St) :
  initialized (auto st) = true ->
  fails w GetLatestRelease = None ->
  fails w (GetSemverBump (latestRelease w) None) = None ->
  semverBump w (latestRelease w) None = SEMVER.noVersion ->
  publishLatest options w st =
  Build_Run
    [Called GetLatestRelease; Called (GetSemverBump (latestRelease w) None);
     Logged "info" ["No version published."]]
    {| auto := set_versionBump (auto st) SEMVER.noVersion;
       platform := platform st |}
    (Returns None).
Proof.
  intros Hinit Hlatest Hbump Hnone. unfold publishLatest.
  rewrite bind_this, Hinit. cbn [negb]. unfold getVersion.
  rewrite bind_assoc, bind_this, Hinit. cbn [negb JS.truthy].
  rewrite bind_assoc, bind_call, Hlatest.
  rewrite bind_assoc, bind_call, Hbump. run. rewrite Hnone.
  cbn [String.eqb SEMVER.noVersion]. run. reflexivity.
Qed.

Lemma no_bump_publishes_nothing_witness :
  outcome (publishLatest default_options
             (Scenario.collaborators Scenario.ci Scenario.nothing_fails "")
             (Scenario.start (Scenario.loaded Scenario.no_api_options
                                Scenario.released_hooks)))
  = Returns None.
Proof.
  rewrite (no_bump_publishes_nothing default_options
             (Scenario.collaborators Scenario.ci Scenario.nothing_fails "")
             (Scenario.start (Scenario.loaded Scenario.no_api_options
                                Scenario.released_hooks))
             eq_refl eq_refl eq_refl eq_refl).
  reflexivity.
Defined.









(** X19. An engine that [loadConfig] has not initialised refuses every
    command before doing anything: [canary], [shipit], [changelog],
    [release], the trunk path and the version computation throw the
    initialisation error when the hosting client or the release helper is
    missing, and [comment] and [prBody] when the hosting client is. *)
Theorem uninitialized_engine_refuses (w : World) (st : St) :
  (initialized (auto st) = false ->
   forall options,
     canary options w st = Build_Run [] st (Throws createErrorMessage) /\
     shipit options w st = Build_Run [] st (Throws createErrorMessage) /\
     changelog options w st = Build_Run [] st (Throws createErrorMessage) /\
     runRelease options w st = Build_Run [] st (Throws createErrorMessage) /\
     publishLatest options w st = Build_Run [] st (Throws createErrorMessage)
     /\
     version options w st = Build_Run [] st (Throws createErrorMessage)) /\
  (this_git (auto st) = None ->
   forall options,
     comment options w st = Build_Run [] st (Throws createErrorMessage) /\
     prBody options w st = Build_Run [] st (Throws createErrorMessage)).
Proof.
  split.
  - intros Hinit options.
    unfold canary, shipit, changelog, runRelease, publishLatest, version,
      makeChangelog, makeRelease, getVersion.
    cbv zeta. rewrite ?bind_assoc, !bind_this, Hinit. repeat split.
  - intros Hgit options. rewrite comment_alone. unfold prBody. cbv zeta.
    rewrite !bind_this, Hgit. repeat split.
Qed.

Lemma uninitialized_engine_refuses_witness :
  shipit default_options
    (Scenario.collaborators Scenario.ci Scenario.nothing_fails "minor")
    (Scenario.start (new_Auto Scenario.no_api_options))
  = Build_Run [] (Scenario.start (new_Auto Scenario.no_api_options))
      (Throws createErrorMessage).
Proof.
  destruct (uninitialized_engine_refuses
              (Scenario.collaborators Scenario.ci Scenario.nothing_fails
                 "minor")
              (Scenario.start (new_Auto Scenario.no_api_options)))
    as (Hrefuses & _).
  apply (Hrefuses eq_refl default_options).
Defined.

(** ** What [loadConfig] establishes *)

Lemma bind_returns_run {A B} (m : M A) (f : A -> M B) w st b :
  outcome (bind m f w st) = Returns b ->
  exists a,
    outcome (m w st) = Returns a /\
    bind m f w st = prepend (events (m w st)) (f a w (final (m w st))).
Proof.
  unfold bind. destruct (outcome (m w st)) as [a|e|c]; cbn; try discriminate.
  intros _. exists a. split; reflexivity.
Qed.

Lemma series_final {A} (hook : string) (h : Hook.taps (Observer A)) (a : A)
    w st :
  final (series (map (fun t => run_observer hook (fst t) (snd t) a) h) w st)
  = st.
Proof.
  induction h as [|[owner f] h IH]; [reflexivity|].
  cbn [map series fst snd]. unfold run_observer at 1.
  rewrite bind_assoc, bind_emit. cbn [prepend final].
  destruct (f a); [reflexivity|]. rewrite bind_ret. exact IH.
Qed.

Lemma call_series_final {A} (hook : string) (payload : Payload)
    (h : Hook.taps (Observer A)) (a : A) w st :
  final (call_series hook payload h a w st) = st.
Proof.
  unfold call_series. rewrite bind_emit. cbn [prepend final].
  apply series_final.
Qed.

Lemma waterfall_final {A} (hook : string) (h : Hook.taps (A -> A)) (a : A)
    w st :
  final (waterfall hook h a w st) = st.
Proof.
  revert a. induction h as [|[owner f] h IH]; intros a; [reflexivity|].
  cbn [waterfall]. rewrite bind_emit. cbn [prepend final]. apply IH.
Qed.

Lemma getRepo_final (config : IAutoConfig) w st :
  final (getRepo config w st) = st.
Proof.
  unfold getRepo.
  destruct (JS.truthy (cfg_owner config) && JS.truthy (cfg_repo config));
    [reflexivity|].
  rewrite bind_this, bind_emit, bail_run. reflexivity.
Qed.

Ltac returned H a Ha :=
  let E := fresh "E" in
  destruct (bind_returns_run _ _ _ _ _ H) as (a & Ha & E);
  rewrite E in H |- *; clear E; cbn [prepend outcome final] in H |- *.

(** X20. When [loadConfig] returns, the engine is initialised: it holds a
    hosting client whose owner and repository are set and whose token is
    neither empty nor the text [undefined], it holds a release helper and
    the configuration, and the label store of the platform is untouched. *)
Theorem loadConfig_initializes (w : World) (st : St) :
  outcome (loadConfig w st) = Returns tt ->
  exists git,
    this_git (auto (final (loadConfig w st))) = Some git /\
    JS.truthy (git_owner git) = true /\
    JS.truthy (git_repo git) = true /\
    git_token git <> "" /\
    git_token git <> "undefined" /\
    initialized (auto (final (loadConfig w st))) = true /\
    defined (this_config (auto (final (loadConfig w st)))) = true /\
    platform (final (loadConfig w st)) = platform st.
Proof.
  intros H. unfold loadConfig in H |- *.
  rewrite bind_this in H |- *.
  returned H loaded Hloaded.
  apply call_returns_inv in Hloaded as [-> Hfinal].
  rewrite Hfinal in H |- *. clear Hfinal. cbv zeta in H |- *.
  rewrite bind_emit in H |- *. cbn [prepend outcome final] in H |- *.
  returned H config Hconfig. rewrite waterfall_final in H |- *.
  rewrite bind_world in H |- *. cbv zeta in H |- *.
  rewrite bind_set_this in H |- *.
  unfold loadPlugins in H |- *.
  rewrite bind_assoc, bind_world in H |- *. cbv zeta in H |- *.
  rewrite bind_assoc, bind_this, bind_set_this, bind_this in H |- *.
  cbn [auto platform] in H |- *.
  returned H u Hbefore. rewrite call_series_final in H |- *.
  returned H repository Hrepository. rewrite getRepo_final in H |- *.
  match type of H with
  | context [if ?c then _ else _] => destruct c eqn:Htoken
  end.
  { rewrite bind_log in H. discriminate H. }
  returned H git Hgit.
  unfold startGit in Hgit |- *.
  match type of Hgit with
  | context [if ?c then _ else _] => destruct c eqn:Hstart
  end; [discriminate Hgit|].
  injection Hgit as <-. cbn [ret final] in H |- *.
  rewrite bind_this, bind_set_this in H |- *. rewrite call_series_final.
  apply orb_false_elim in Hstart as [Hstart _].
  apply orb_false_elim in Hstart as [Howner Hrepo].
  apply negb_false_iff in Howner, Hrepo.
  apply orb_false_elim in Htoken as [Htruthy Hundefined].
  apply negb_false_iff in Htruthy.
  eexists. split; [reflexivity|]. cbn [git_owner git_repo git_token].
  split; [exact Howner|]. split; [exact Hrepo|].
  split.
  { intros E. unfold JS.show in E.
    match type of Htruthy with JS.truthy ?t = true => destruct t as [s|] end;
      cbn in E, Htruthy; [subst s|]; discriminate. }
  split.
  { intros E. rewrite E in Hundefined. discriminate. }
  repeat split.
Qed.

Lemma loadConfig_initializes_witness :
  exists git,
    this_git
      (auto (final (loadConfig
                      (Scenario.collaborators Scenario.ci
                         Scenario.nothing_fails "minor")
                      (Scenario.start (new_Auto Scenario.no_api_options)))))
    = Some git /\
    git_token git = "ghp_0123456789".
Proof.
  destruct (loadConfig_initializes
              (Scenario.collaborators Scenario.ci Scenario.nothing_fails
                 "minor")
              (Scenario.start (new_Auto Scenario.no_api_options)))
    as (git & Hgit & _).
  - vm_compute. reflexivity.
  - exists git. split; [exact Hgit|].
    vm_compute in Hgit. injection Hgit as <-. reflexivity.
Defined.

(** ** The order of the trunk path *)

Lemma preceded_silent (P Q : Event -> bool) (evs : list Event) :
  Forall (fun e => Q e = false) evs -> preceded_by P Q evs.
Proof.
  intros H pre e post -> HQ. apply Forall_app in H as [_ H].
  inversion H; congruence.
Qed.

Lemma preceded_app (P Q : Event -> bool) (xs ys : list Event) :
  preceded_by P Q xs -> preceded_by P Q ys -> preceded_by P Q (xs ++ ys).
Proof.
  intros Hx Hy pre e post E HQ.
  symmetry in E. apply app_eq_app in E as [l [[-> E]|[-> E]]].
  - rewrite existsb_app, (Hy l e post E HQ). apply orb_true_r.
  - destruct l as [|e' l]; cbn [app] in E.
    + discriminate (Hy [] e post (eq_sym E) HQ).
    + injection E as <- ->. exact (Hx pre e l eq_refl HQ).
Qed.

Lemma preceded_after (P Q : Event -> bool) (xs ys : list Event) :
  existsb P xs = true -> preceded_by P Q xs -> preceded_by P Q (xs ++ ys).
Proof.
  intros HP Hx pre e post E HQ.
  symmetry in E. apply app_eq_app in E as [l [[-> E]|[-> E]]].
  - rewrite existsb_app, HP. reflexivity.
  - destruct l as [|e' l]; cbn [app] in E.
    + rewrite app_nil_r in HP. exact HP.
    + injection E as <- ->. exact (Hx pre e l eq_refl HQ).
Qed.

Lemma preceded_cons (P Q : Event -> bool) (e : Event) (evs : list Event) :
  Q e = false -> preceded_by P Q evs -> preceded_by P Q (e :: evs).
Proof.
  intros HQ H. apply (preceded_app P Q [e] evs); [|exact H].
  apply preceded_silent. repeat constructor. exact HQ.
Qed.

Lemma preceded_head (P Q : Event -> bool) (e : Event) (evs : list Event) :
  P e = true -> Q e = false -> preceded_by P Q (e :: evs).
Proof.
  intros HP HQ. apply (preceded_after P Q [e] evs).
  - cbn. rewrite HP. reflexivity.
  - apply preceded_silent. repeat constructor. exact HQ.
Qed.

Lemma bind_events {A B} (m : M A) (f : A -> M B) w st :
  events (bind m f w st) =
  events (m w st) ++
  match outcome (m w st) with
  | Returns a => events (f a w (final (m w st)))
  | _ => []
  end.
Proof.
  unfold bind. destruct (outcome (m w st)); cbn [events];
    rewrite ?app_nil_r; reflexivity.
Qed.

Lemma preceded_bind {A B} (P Q : Event -> bool) (m : M A) (f : A -> M B)
    w st :
  Forall (fun e => Q e = false) (events (m w st)) ->
  (forall a, preceded_by P Q (events (f a w (final (m w st))))) ->
  preceded_by P Q (events (bind m f w st)).
Proof.
  intros Hm Hf. rewrite bind_events.
  apply preceded_app; [apply preceded_silent, Hm|].
  destruct (outcome (m w st)); [apply Hf| |]; apply preceded_silent;
    constructor.
Qed.

Lemma preceded_bind_done {A B} (P Q : Event -> bool) (m : M A)
    (f : A -> M B) w st :
  Forall (fun e => Q e = false) (events (m w st)) ->
  (forall a, outcome (m w st) = Returns a ->
             existsb P (events (m w st)) = true) ->
  preceded_by P Q (events (bind m f w st)).
Proof.
  intros Hm HP. rewrite bind_events.
  destruct (outcome (m w st)) as [a| |] eqn:E;
    [|rewrite app_nil_r; apply preceded_silent, Hm..].
  apply preceded_after; [exact (HP a eq_refl)|apply preceded_silent, Hm].
Qed.

Lemma setGitUser_unpublished : emits unpublished setGitUser.
Proof. unfold setGitUser. emits_auto. Qed.

Lemma getCurrentVersion_unpublished lastRelease :
  emits unpublished (getCurrentVersion lastRelease).
Proof. unfold getCurrentVersion. emits_auto. Qed.

Lemma getVersion_unpublished from : emits unpublished (getVersion from).
Proof. unfold getVersion. emits_auto. Qed.

Lemma makeChangelog_unpublished options :
  emits unpublished (makeChangelog options).
Proof.
  unfold makeChangelog. emits_auto;
    first [apply setGitUser_unpublished | apply getCurrentVersion_unpublished].
Qed.

Ltac found :=
  rewrite ?existsb_app, ?orb_true_iff;
  repeat first [left; reflexivity | right].

Ltac passed H :=
  let a := fresh "a" in
  let Ha := fresh "Ha" in
  let E := fresh "E" in
  destruct (bind_returns_run _ _ _ _ _ H) as (a & Ha & E);
  rewrite E in H |- *; clear E Ha;
  cbn [prepend events outcome] in H |- *.

(** A changelog step that returns, outside of a dry run, has written the
    changelog and committed it. *)
Lemma makeChangelog_writes_and_commits options w st u :
  dryRun options = false ->
  outcome (makeChangelog options w st) = Returns u ->
  existsb writes_changelog (events (makeChangelog options w st)) = true /\
  existsb commits_changelog (events (makeChangelog options w st)) = true.
Proof.
  intros Hdry H. unfold makeChangelog in H |- *. cbv zeta in H |- *.
  rewrite bind_this in H |- *.
  destruct (initialized (auto st)); cbn [negb] in H |- *; [|discriminate H].
  passed H. rewrite !existsb_app.
  passed H. rewrite !existsb_app.
  passed H. rewrite !existsb_app.
  rewrite bind_this in H |- *.
  passed H. rewrite !existsb_app.
  rewrite bind_log in H |- *. cbn [prepend events outcome] in H |- *.
  rewrite Hdry in H |- *.
  passed H. rewrite !existsb_app.
  rewrite bind_call in H |- *.
  match type of H with
  | context [fails w ?c] => destruct (fails w c); [discriminate H|]
  end.
  cbn [prepend events outcome] in H |- *.
  split.
  { found. }
  passed H. rewrite !existsb_app.
  rewrite bind_this in H |- *.
  passed H. rewrite !existsb_app.
  rewrite bind_call in H |- *.
  match type of H with
  | context [fails w ?c] => destruct (fails w c); [discriminate H|]
  end.
  cbn [prepend events outcome] in H |- *.
  found.
Qed.

Ltac to_changelog w :=
  unfold publishLatest; rewrite bind_this;
  destruct (initialized _); cbn [negb];
  [|exact (preceded_silent _ _ [] (List.Forall_nil _))];
  apply preceded_bind; [apply getVersion_unpublished|intros ?];
  match goal with
  | |- context [String.eqb ?v ""] => destruct (String.eqb v "")
  end;
  [rewrite bind_log; apply preceded_silent; repeat constructor|];
  rewrite bind_call; destruct (fails w GetLatestRelease);
  [apply preceded_silent; repeat constructor|];
  cbn [prepend events]; apply preceded_cons; [reflexivity|];
  rewrite bind_call;
  destruct (fails w (GetCommitsInRelease (latestRelease w) None));
  [apply preceded_silent; repeat constructor|];
  cbn [prepend events]; apply preceded_cons; [reflexivity|].

Lemma bind_call_parallel {A B} (hook : string) (payload : Payload)
    (h : Hook.taps (Observer A)) (a : A) (k : unit -> M B) w st :
  events (bind (call_parallel hook payload h a) k w st) =
  Fired hook payload ::
  events (bind (parallel
                  (map (fun t => atomic (run_observer hook (fst t) (snd t) a))
                     h)) k w st).
Proof. unfold call_parallel. rewrite bind_assoc, bind_emit. reflexivity. Qed.

Ltac hook_stage :=
  first
    [ rewrite bind_call_parallel; apply preceded_head; reflexivity
    | apply preceded_bind;
      [apply (emits_call_parallel unpublished);
       [reflexivity|intros; reflexivity]
      |intros _; rewrite ?bind_assoc];
      hook_stage ].

(** X21. On the trunk path, outside of a dry run, the release comes last:
    whenever [publishLatest] creates a release on the hosting platform, the
    changelog has been written and committed and the hook points [version],
    [afterVersion], [publish] and [afterPublish] have been called before,
    whatever fails or is rejected on the way. *)
Theorem release_comes_last (options : CommandOptions) (w : World) (st : St) :
  dryRun options = false ->
  Forall
    (fun step =>
       preceded_by step is_publish (events (publishLatest options w st)))
    before_the_release.
Proof.
  intros Hdry. unfold before_the_release.
  repeat apply List.Forall_cons; [..|apply List.Forall_nil].
  1, 2:
    to_changelog w;
    (apply preceded_bind_done;
     [apply makeChangelog_unpublished
     |intros u Hu; eapply makeChangelog_writes_and_commits; eassumption]).
  all: to_changelog w.
  all: apply preceded_bind; [apply makeChangelog_unpublished|intros _].
  all: rewrite Hdry; cbn [negb]; rewrite bind_assoc, bind_this, !bind_assoc.
  all: hook_stage.
Qed.

Lemma release_comes_last_witness :
  existsb is_publish
    (events (publishLatest
               {| dryRun := false; opt_pr := None; opt_build := None;
                  opt_message := None; opt_from := None; opt_to := None;
                  opt_useVersion := Some "1.1.0" |}
               (Scenario.collaborators Scenario.ci Scenario.nothing_fails
                  "minor")
               (Scenario.start (Scenario.loaded Scenario.no_api_options
                                  Scenario.npm_publishes)))) = true /\
  Forall
    (fun step =>
       preceded_by step is_publish
         (events (publishLatest
               {| dryRun := false; opt_pr := None; opt_build := None;
                  opt_message := None; opt_from := None; opt_to := None;
                  opt_useVersion := Some "1.1.0" |}
                    (Scenario.collaborators Scenario.ci Scenario.nothing_fails
                       "minor")
                    (Scenario.start (Scenario.loaded Scenario.no_api_options
                                       Scenario.npm_publishes)))))
    before_the_release.
Proof.
  split; [vm_compute; reflexivity|].
  apply release_comes_last. reflexivity.
Defined.

Lemma getRepo_run (config : IAutoConfig) w st :
  getRepo config w st =
  if JS.truthy (cfg_owner config) && JS.truthy (cfg_repo config)
  then Build_Run [] st
         (Returns (Some {| repo_owner := Some (cfg_owner config);
                           repo_repo := Some (cfg_repo config);
                           repo_token := cfg_token config |}))
  else Build_Run
         (Fired "getRepository" NoArguments ::
          map (Ran "getRepository")
            (consulted (Hook.getRepository (this_hooks (auto st))) tt))
         st
         (settle (first_answer (Hook.getRepository (this_hooks (auto st))) tt)).
Proof.
  unfold getRepo.
  destruct (JS.truthy (cfg_owner config) && JS.truthy (cfg_repo config));
    [reflexivity|].
  rewrite bind_this, bind_emit, bail_run. reflexivity.
Qed.

(** X22. Where the hosting client of [loadConfig] comes from. When the
    configuration names an owner and a repository, the client is made from
    the configuration, whatever the plugins would answer to
    [getRepository]. Otherwise [loadConfig] returns only when a plugin
    answers that hook; the answer is laid over the configuration: the
    owner of the client is the one of the answer when the answer has an
    owner, and the one of the configuration when it has none, and so is
    the repository. In both cases the owner and the repository of the
    client are named, and a token of the repository wins over the
    [GH_TOKEN] of the process. *)
Theorem loadConfig_repository (w : World) (st : St) :
  outcome (loadConfig w st) = Returns tt ->
  exists config git,
    this_config (auto (final (loadConfig w st))) = Some config /\
    this_git (auto (final (loadConfig w st))) = Some git /\
    JS.truthy (git_owner git) = true /\
    JS.truthy (git_repo git) = true /\
    if JS.truthy (cfg_owner config) && JS.truthy (cfg_repo config)
    then
      git_owner git = cfg_owner config /\
      git_repo git = cfg_repo config /\
      git_token git =
        JS.show (if JS.truthy (cfg_token config)
                 then cfg_token config else GH_TOKEN w)
    else
      exists repository,
        first_answer
          (Hook.getRepository (this_hooks (auto (final (loadConfig w st)))))
          tt
        = Answer repository /\
        git_owner git =
          (if has (repo_owner repository)
           then value_of (repo_owner repository) else cfg_owner config) /\
        git_repo git =
          (if has (repo_repo repository)
           then value_of (repo_repo repository) else cfg_repo config) /\
        git_token git =
          JS.show (if JS.truthy (repo_token repository)
                   then repo_token repository else GH_TOKEN w).
Proof.
  intros H. unfold loadConfig in H |- *.
  rewrite bind_this in H |- *.
  returned H loaded Hloaded.
  apply call_returns_inv in Hloaded as [-> Hfinal].
  rewrite Hfinal in H |- *. clear Hfinal. cbv zeta in H |- *.
  rewrite bind_emit in H |- *. cbn [prepend outcome final] in H |- *.
  returned H config Hconfig. rewrite waterfall_final in H |- *.
  rewrite bind_world in H |- *. cbv zeta in H |- *.
  rewrite bind_set_this in H |- *.
  unfold loadPlugins in H |- *.
  rewrite bind_assoc, bind_world in H |- *. cbv zeta in H |- *.
  rewrite bind_assoc, bind_this, bind_set_this, bind_this in H |- *.
  cbn [auto platform] in H |- *.
  returned H u Hbefore. rewrite call_series_final in H |- *.
  returned H repository Hrepository. rewrite getRepo_final in H |- *.
  rewrite getRepo_run in Hrepository.
  match type of H with
  | context [if ?c then _ else _] => destruct c eqn:Htoken
  end.
  { rewrite bind_log in H. discriminate H. }
  returned H git Hgit.
  unfold startGit in Hgit |- *.
  match type of Hgit with
  | context [if ?c then _ else _] => destruct c eqn:Hstart
  end; [discriminate Hgit|].
  injection Hgit as <-. cbn [ret final] in H |- *.
  rewrite bind_this, bind_set_this in H |- *. rewrite call_series_final.
  cbn [auto this_config this_git this_hooks set_release set_git set_hooks
       set_config].
  exists config. eexists. split; [reflexivity|]. split; [reflexivity|].
  cbn [git_owner git_repo git_token] in Hstart |- *.
  apply orb_false_elim in Hstart as [Hstart _].
  apply orb_false_elim in Hstart as [Howner Hrepo].
  apply negb_false_iff in Howner, Hrepo.
  split; [exact Howner|]. split; [exact Hrepo|].
  destruct (JS.truthy (cfg_owner config) && JS.truthy (cfg_repo config))
    eqn:Hnamed.
  - injection Hrepository as <-.
    cbn [repo_owner repo_repo repo_token has value_of]. repeat split.
  - cbn [outcome auto this_hooks set_hooks] in Hrepository.
    destruct (first_answer _ tt) as [|r|e] eqn:Hanswer;
      cbn [settle] in Hrepository; try discriminate Hrepository.
    + injection Hrepository as <-.
      apply andb_false_iff in Hnamed. destruct Hnamed; congruence.
    + injection Hrepository as <-. exists r. repeat split.
Qed.

Lemma loadConfig_repository_witness :
  let w := Scenario.with_git_info
             (Scenario.collaborators Scenario.ci Scenario.nothing_fails
                "minor") in
  let st := Scenario.start (new_Auto Scenario.no_api_options) in
  exists git,
    this_git (auto (final (loadConfig w st))) = Some git /\
    git_owner git = Some "octo" /\
    git_repo git = Some "project" /\
    git_token git = "ghp_9876543210".
Proof.
  intros w st.
  destruct (loadConfig_repository w st)
    as (config & git & Hconfig & Hgit & _ & _ & Hfrom).
  - vm_compute. reflexivity.
  - exists git. split; [exact Hgit|].
    vm_compute in Hconfig. injection Hconfig as <-.
    cbn [cfg_owner cfg_repo JS.truthy andb] in Hfrom.
    destruct Hfrom as (repository & Hanswer & Howner & Hrepo & Htoken).
    vm_compute in Hanswer. injection Hanswer as <-.
    split; [exact Howner|]. split; [exact Hrepo|exact Htoken].
Defined.

(** The configuration names an owner and a repository: the hook is not
    asked. *)
Example repository_of_the_configuration :
  let r := loadConfig
             (Scenario.collaborators Scenario.ci Scenario.nothing_fails
                "minor")
             (Scenario.start (new_Auto Scenario.no_api_options)) in
  option_map (fun git => (git_owner git, git_repo git, git_token git))
    (this_git (auto (final r)))
  = Some (Some "octo", Some "project", "ghp_0123456789") /\
  existsb (is_fired "getRepository") (events r) = false.
Proof. vm_compute. split; reflexivity. Qed.
(** ** What the plugin does *)

Lemma getPrNumber_plugin_does options command pr :
  emits (plugin_does options) (getPrNumber command pr).
Proof. unfold getPrNumber. emits_auto. Qed.

Lemma addCommentAndLabel_plugin_does options newVersion prOrIssue isIssue :
  task_obeys (emitting (plugin_does options))
    (ReleasedLabelPlugin.addCommentAndLabel options newVersion prOrIssue
       isIssue).
Proof.
  unfold ReleasedLabelPlugin.addCommentAndLabel, comment,
    ReleasedLabelPlugin.ensureLabel.
  cbn [co_message co_pr co_context co_dryRun co_delete co_edit default
       from_option andb].
  emits_auto; first [apply getPrNumber_plugin_does | exact I].
Qed.

Lemma releaseIssues_plugin_does options newVersion messages :
  task_obeys (emitting (plugin_does options))
    (ReleasedLabelPlugin.releaseIssues options newVersion messages).
Proof.
  unfold ReleasedLabelPlugin.releaseIssues.
  destruct (lockIssues options) eqn:Hlock; cbn [andb]; emits_auto.
  all: first [apply addCommentAndLabel_plugin_does | exact Hlock | exact I].
Qed.

Lemma addReleased_plugin_does options commit newVersion :
  task_obeys (emitting (plugin_does options))
    (ReleasedLabelPlugin.addReleased options commit newVersion).
Proof.
  unfold ReleasedLabelPlugin.addReleased. emits_auto.
  all: first [ apply addCommentAndLabel_plugin_does
             | apply releaseIssues_plugin_does | exact I ].
Qed.

Lemma plugin_afterRelease_does options payload :
  task_obeys (emitting (plugin_does options))
    (ReleasedLabelPlugin.afterRelease options payload).
Proof.
  unfold ReleasedLabelPlugin.afterRelease. emits_auto.
  all: apply addReleased_plugin_does.
Qed.

(** X23. What the "released" plugin does after a release, whatever the
    release, the state of the engine and the order in which its callbacks
    are resumed: it logs, reads labels, requests and their commits, and
    writes new comments in the context [released], the label of its
    options, and locks, the latter only when its [lockIssues] option is
    set. Nothing else: it edits and deletes no comment, touches no
    description of a request, no changelog and no release, calls no hook
    point, runs no command (so no git command), and leaves the engine as
    it is. *)
Theorem plugin_writes_its_own (options : IReleasedLabelPluginOptions)
    (payload : AfterRelease) (w : World) (st : St) :
  let r := ReleasedLabelPlugin.afterRelease options payload w st in
  Forall (plugin_does options) (events r) /\
  existsb runs_command (events r) = false /\
  auto (final r) = auto st.
Proof.
  cbv zeta.
  pose proof (emits_alone _ _ (plugin_afterRelease_does options payload) w st)
    as Hdoes.
  split; [exact Hdoes|]. split.
  - induction Hdoes as [|e evs He _ IH]; [reflexivity|].
    cbn [existsb]. rewrite IH, orb_false_r.
    destruct e as [| | | |[]]; try reflexivity; destruct He.
  - assert (Hcomposes : composes (relating (fun s s' => auto s' = auto s))).
    { split; [reflexivity|]. intros s evs s' evs' s'' H H'.
      unfold relating in *. congruence. }
    apply (alone_obeys _ Hcomposes).
    apply plugin_afterRelease_relating.
    + reflexivity.
    + intros s s' s'' H H'. congruence.
    + reflexivity.
Qed.

(** A release of request 5 with the [lockIssues] option: the comment and
    the label on the request, then the comment, the label and the lock on
    the issue that it closes. *)
Example plugin_locks_the_issue :
  List.filter (fun e => mutating e)
    (events
       (ReleasedLabelPlugin.afterRelease
          (ReleasedLabelPlugin.constructor
             {| given_message := None; given_label := None;
                given_lockIssues := Some true |})
          {| ar_lastRelease := "v1.0.0"; ar_newVersion := Some "v1.1.0";
             ar_commits := [Scenario.feature];
             ar_releaseNotes := "#### Enhancement"; ar_response := None |}
          (Scenario.collaborators Scenario.ci Scenario.nothing_fails "minor")
          (Scenario.start (Scenario.loaded Scenario.no_api_options
                             Scenario.released_hooks))))
  = [Called (CreateComment ":rocket: PR was released in v1.1.0 :rocket:" 5
               "released");
     Called (AddLabelToPr 5 "released");
     Called (CreateComment ":rocket: Issue was released in v1.1.0 :rocket:"
               10 "released");
     Called (AddLabelToPr 10 "released");
     Called (LockIssue 10)].
Proof. vm_compute. reflexivity. Qed.

(** ** The status of a request *)

Lemma existsb_eqb_In (l : string) (ls : list string) :
  existsb (String.eqb l) ls = true <-> In l ls.
Proof.
  rewrite existsb_exists. split.
  - intros (x & Hx & E). apply String.eqb_eq in E. subst x. exact Hx.
  - intros H. exists l. split; [exact H|apply String.eqb_refl].
Qed.

(** X24. The status that [prCheck] computes from the labels of a request.
    A label of the skip-release list wins: the status is a success that
    announces no release, whatever the other labels are (the skip-release
    list is assumed not to hold the empty label). Without such a label, a
    request none of whose labels is a version label gets the error
    [No semver label!]; the label [release] never counts as a version
    label, even when the version map lists it. Otherwise the status is a
    success whose description ends with a version label of the request. *)
Theorem prCheck_status_of_labels (labels : list string)
    (labelValues : list (list string)) (release : ReleaseOptions) :
  let msg := statusOfLabels labels labelValues release in
  ((exists l, In l labels /\ In l (skipReleaseLabels release)) ->
   ~ In "" (skipReleaseLabels release) ->
   msg = {| msg_description := "PR will not create a release";
            msg_state := "success" |}) /\
  ((forall l, In l labels ->
      ~ In l (skipReleaseLabels release) /\
      (l = "release" \/ forall v, In v labelValues -> ~ In l v)) ->
   msg = {| msg_description := "No semver label!"; msg_state := "error" |}) /\
  ((forall l, In l labels -> ~ In l (skipReleaseLabels release)) ->
   msg_state msg = "success" ->
   exists tag v,
     In tag labels /\ In v labelValues /\ In tag v /\ tag <> "release" /\
     msg_description msg =
       (if existsb (String.eqb "release") labels
        then "PR will create release once merged - " else "CI - ") +:+ tag).
Proof.
  cbv zeta. unfold statusOfLabels.
  set (skip := fun l => existsb (String.eqb l) (skipReleaseLabels release)).
  set (semver := fun l =>
         existsb (fun labelValue => existsb (String.eqb l) labelValue)
           labelValues &&
         negb (existsb (String.eqb l) (skipReleaseLabels release)) &&
         negb (String.eqb l "release")).
  split; [|split].
  - intros (l & Hl & Hskip) Hempty.
    destruct (List.find skip labels) as [s|] eqn:Hfind.
    + apply List.find_some in Hfind as [_ Hs]. unfold skip in Hs.
      apply existsb_eqb_In in Hs.
      assert (JS.truthy (Some s) = true) as ->.
      { cbn. destruct s; [contradiction|reflexivity]. }
      rewrite andb_false_r. reflexivity.
    + apply (List.find_none _ _ Hfind) in Hl. unfold skip in Hl.
      apply existsb_eqb_In in Hskip. congruence.
  - intros Hnone.
    assert (List.find semver labels = None) as ->.
    { destruct (List.find semver labels) as [t|] eqn:Hfind; [|reflexivity].
      apply List.find_some in Hfind as [Hin Ht]. unfold semver in Ht.
      apply andb_prop in Ht as [Ht Hrelease].
      apply andb_prop in Ht as [Hlisted _].
      apply existsb_exists in Hlisted as (v & Hv & Htv).
      apply existsb_eqb_In in Htv.
      destruct (Hnone t Hin) as [_ [->|Hno]]; [discriminate|].
      destruct (Hno v Hv Htv). }
    assert (List.find skip labels = None) as ->.
    { destruct (List.find skip labels) as [s|] eqn:Hfind; [|reflexivity].
      apply List.find_some in Hfind as [Hin Hs]. unfold skip in Hs.
      apply existsb_eqb_In in Hs. destruct (Hnone s Hin) as [Hno _].
      contradiction. }
    reflexivity.
  - intros Hnone.
    assert (List.find skip labels = None) as ->.
    { destruct (List.find skip labels) as [s|] eqn:Hfind; [|reflexivity].
      apply List.find_some in Hfind as [Hin Hs]. unfold skip in Hs.
      apply existsb_eqb_In in Hs. destruct (Hnone s Hin Hs). }
    destruct (List.find semver labels) as [t|] eqn:Hfind;
      cbn [defined negb andb JS.truthy]; [|discriminate].
    intros _. apply List.find_some in Hfind as [Hin Ht]. unfold semver in Ht.
    apply andb_prop in Ht as [Ht Hrelease].
    apply andb_prop in Ht as [Hlisted _].
    apply existsb_exists in Hlisted as (v & Hv & Htv).
    apply existsb_eqb_In in Htv. apply negb_true_iff in Hrelease.
    apply String.eqb_neq in Hrelease.
    exists t, v. repeat (split; [assumption|]).
    cbn [msg_description JS.show default from_option]. unfold id.
    destruct (List.find (fun l => String.eqb l "release") labels) as [r|]
      eqn:Hr.
    + apply List.find_some in Hr as [Hin' E]. apply String.eqb_eq in E.
      subst r.
      assert (existsb (String.eqb "release") labels = true) as ->
        by (apply existsb_eqb_In; exact Hin').
      reflexivity.
    + assert (existsb (String.eqb "release") labels = false) as ->.
      { destruct (existsb (String.eqb "release") labels) eqn:E;
          [|reflexivity].
        apply existsb_eqb_In in E.
        apply (List.find_none _ _ Hr) in E. discriminate E. }
      reflexivity.
Qed.

Lemma prCheck_status_of_labels_witness :
  statusOfLabels ["minor"; "skip-release"] [["minor"]]
    Scenario.options_of_release
  = {| msg_description := "PR will not create a release";
       msg_state := "success" |} /\
  statusOfLabels ["release"] [["release"]; ["minor"]]
    Scenario.options_of_release
  = {| msg_description := "No semver label!"; msg_state := "error" |}.
Proof.
  split.
  - apply (prCheck_status_of_labels ["minor"; "skip-release"] [["minor"]]
             Scenario.options_of_release).
    + exists "skip-release". split; cbn; auto.
    + cbn. intros [H|[]]. discriminate H.
  - apply (prCheck_status_of_labels ["release"] [["release"]; ["minor"]]
             Scenario.options_of_release).
    intros l [<-|[]]. split; [|left; reflexivity].
    cbn. intros [H|[]]. discriminate H.
Defined.
